(** * env-crypto: the encryption engine of [src/env-crypto.ts], its
    loader and its command line

    A shallow embedding of [validatePath], [clearBuffer], [encryptEnvFile]
    and [decryptEnvFile], with the parts of the JavaScript run time they
    call (path, fs, JSON, Buffer, crypto, RegExp) modelled next to them;
    then of [processEnvValue], [initEnv] and [resetEnv] of
    [src/env-loader.ts] and of the script [cli/env-crypto.ts]. *)

From Stdlib Require Import NArith ZArith String Ascii Lia.
From Stdlib.Strings Require Import Byte.
From stdpp Require Import base option list gmap.

Local Open Scope N_scope.

(** ** JavaScript strings

    A JavaScript string is a sequence of UTF-16 code units. *)

Abbreviation jsstring := (list N).

Fixpoint js (s : string) : jsstring :=
  match s with
  | EmptyString => []
  | String a r => N_of_ascii a :: js r
  end.

Fixpoint startsWith (s p : jsstring) {struct p} : bool :=
  match p, s with
  | [], _ => true
  | _ :: _, [] => false
  | c :: p', d :: s' => (c =? d) && startsWith s' p'
  end.

Definition endsWith (s p : jsstring) : bool := startsWith (rev s) (rev p).

(** [s.substring(a, b)] for [0 <= a <= b]. *)
Definition substring (a b : nat) (s : jsstring) : jsstring :=
  take (b - a) (drop a s).

(** [s.split(c)] for a one-character separator: always at least one piece. *)
Fixpoint split_on (c : N) (s : jsstring) : list jsstring :=
  match s with
  | [] => [[]]
  | x :: r =>
      if x =? c then [] :: split_on c r
      else match split_on c r with
           | h :: t => (x :: h) :: t
           | [] => [[x]]
           end
  end.

Fixpoint join_with (sep : jsstring) (l : list jsstring) : jsstring :=
  match l with
  | [] => []
  | [x] => x
  | x :: r => x ++ sep ++ join_with sep r
  end.

Definition jsstring_eqb (a b : jsstring) : bool := bool_decide (a = b).

(** ** Errors

    [EnvCryptoError] is the class of the engine: a message and a [code].
    The other constructors are the errors the run time throws by itself. *)

Inductive js_error : Type :=
  | EnvCryptoError (message code : jsstring)
  | SyntaxError (message : jsstring)
  | TypeError (message : jsstring)
  | SystemError (code : jsstring)
  | CryptoError (message : jsstring).

(** The tag a caller can branch on: only an [EnvCryptoError] carries one. *)
Definition error_code (e : js_error) : option jsstring :=
  match e with
  | EnvCryptoError _ c => Some c
  | _ => None
  end.

Definition is_EnvCryptoError (e : js_error) : bool :=
  match e with EnvCryptoError _ _ => true | _ => false end.

Inductive outcome (A : Type) : Type :=
  | Return (a : A)
  | Throw (e : js_error).
Arguments Return {A} a.
Arguments Throw {A} e.

(** ** Module [path] (POSIX flavour)

    [path.resolve], [path.relative], [path.isAbsolute] and [path.sep] of the
    run time, on a POSIX host. *)
Module path.

Definition sep : jsstring := js "/".
Definition slash : N := 47.
Definition dot : jsstring := js ".".
Definition dotdot : jsstring := js "..".

Definition isAbsolute (p : jsstring) : bool :=
  match p with
  | c :: _ => c =? slash
  | [] => false
  end.

(** [normalizeString]: drop empty and [.] segments, let [..] remove the
    segment before it; above the start, [..] is kept only when
    [allowAboveRoot]. [acc] is the stack of kept segments, last first. *)
Fixpoint normalize_segs (allowAboveRoot : bool) (acc segs : list jsstring)
  : list jsstring :=
  match segs with
  | [] => rev acc
  | s :: r =>
      if jsstring_eqb s [] || jsstring_eqb s dot then
        normalize_segs allowAboveRoot acc r
      else if jsstring_eqb s dotdot then
        match acc with
        | top :: acc' =>
            if jsstring_eqb top dotdot
            then normalize_segs allowAboveRoot (s :: acc) r
            else normalize_segs allowAboveRoot acc' r
        | [] =>
            if allowAboveRoot
            then normalize_segs allowAboveRoot [s] r
            else normalize_segs allowAboveRoot [] r
        end
      else normalize_segs allowAboveRoot (s :: acc) r
  end.

Definition normalizeString (p : jsstring) (allowAboveRoot : bool) : jsstring :=
  join_with sep (normalize_segs allowAboveRoot [] (split_on slash p)).

(** The loop of [resolve], from the last argument to the first and then the
    working directory, until an absolute piece is met. *)
Fixpoint resolve_loop (rargs : list jsstring) (resolvedPath : jsstring)
  : jsstring * bool :=
  match rargs with
  | [] => (resolvedPath, false)
  | p :: r =>
      match p with
      | [] => resolve_loop r resolvedPath
      | _ =>
          let rp := p ++ sep ++ resolvedPath in
          if isAbsolute p then (rp, true) else resolve_loop r rp
      end
  end.

Definition resolve (cwd : jsstring) (args : list jsstring) : jsstring :=
  let '(resolvedPath, resolvedAbsolute) := resolve_loop (rev args ++ [cwd]) [] in
  let n := normalizeString resolvedPath (negb resolvedAbsolute) in
  if resolvedAbsolute then sep ++ n
  else match n with [] => dot | _ => n end.

(** Segments of an absolute, normalized path. *)
Definition segments (p : jsstring) : list jsstring :=
  normalize_segs false [] (split_on slash p).

Fixpoint strip_common (a b : list jsstring) : list jsstring * list jsstring :=
  match a, b with
  | x :: a', y :: b' => if jsstring_eqb x y then strip_common a' b' else (a, b)
  | _, _ => (a, b)
  end.

(** [relative(from, to)]: resolve both, go up once per segment of [from]
    below the common ancestor, then down the rest of [to]. *)
Definition relative (cwd from to : jsstring) : jsstring :=
  let from' := resolve cwd [from] in
  let to' := resolve cwd [to] in
  let '(up, down) := strip_common (segments from') (segments to') in
  join_with sep (replicate (length up) dotdot ++ down).

(** A segment of a normalized path. *)
Definition clean_seg (s : jsstring) : Prop :=
  s ≠ [] ∧ s ≠ dot ∧ s ≠ dotdot ∧ slash ∉ s.

(** The absolute path with the given segments: what [process.cwd()]
    returns is of this form, with clean segments. *)
Definition abs_path (segs : list jsstring) : jsstring :=
  sep ++ join_with sep segs.

(** The segments [resolve(cwd, filePath)] ends with, the working directory
    being [abs_path cs]. *)
Definition resolved_segs (cs : list jsstring) (filePath : jsstring)
  : list jsstring :=
  normalize_segs false (if isAbsolute filePath then [] else rev cs)
                 (split_on slash filePath).

End path.

(** ** The world an engine call runs in

    [process.env], [process.cwd()], the files (absolute path to text, as
    [readFileSync(p, 'utf8')] returns it), the paths [writeFileSync] cannot
    write, the source of [randomBytes], the [Buffer]s allocated so far, and
    the calls made to the outside, oldest first. *)

Inductive buffer_role : Type :=
  | SaltBuffer | KeyBuffer | IvBuffer | AuthTagBuffer.

Inductive event : Type :=
  | E_readFileSync (file : jsstring)
  | E_writeFileSync (file data : jsstring) (mode : N)
  | E_randomBytes (n : nat)
  | E_scryptSync
  | E_createCipheriv
  | E_createDecipheriv
  | E_console_log (msg : jsstring).

Record world : Type := mkWorld {
  process_env : gmap jsstring jsstring;
  process_cwd : jsstring;
  fs_files : gmap jsstring jsstring;
  fs_denied : gset jsstring;
  entropy : nat -> byte;
  entropy_pos : nat;
  heap : list (buffer_role * list byte);
  trace : list event
}.

(** A [Buffer] is a reference into [heap]. *)
Abbreviation Buffer := nat.

(** Computations that read and change the world and either return or throw. *)
Definition M (A : Type) : Type := world -> outcome A * world.

Definition ret {A} (a : A) : M A := fun w => (Return a, w).
Definition throw {A} (e : js_error) : M A := fun w => (Throw e, w).
Definition bind {A B} (m : M A) (k : A -> M B) : M B :=
  fun w => match m w with
           | (Return a, w') => k a w'
           | (Throw e, w') => (Throw e, w')
           end.

#[global] Instance M_ret : MRet M := @ret.
#[global] Instance M_bind : MBind M := fun A B k m => bind m k.

Definition lift {A} (o : outcome A) : M A := fun w => (o, w).

(** Updates of one field. *)
Definition with_trace (t : list event) (w : world) : world :=
  mkWorld (process_env w) (process_cwd w) (fs_files w) (fs_denied w)
          (entropy w) (entropy_pos w) (heap w) t.
Definition with_heap (h : list (buffer_role * list byte)) (w : world) : world :=
  mkWorld (process_env w) (process_cwd w) (fs_files w) (fs_denied w)
          (entropy w) (entropy_pos w) h (trace w).
Definition with_files (f : gmap jsstring jsstring) (w : world) : world :=
  mkWorld (process_env w) (process_cwd w) f (fs_denied w)
          (entropy w) (entropy_pos w) (heap w) (trace w).
Definition with_entropy_pos (n : nat) (w : world) : world :=
  mkWorld (process_env w) (process_cwd w) (fs_files w) (fs_denied w)
          (entropy w) n (heap w) (trace w).

Definition log_event (e : event) : M unit :=
  fun w => (Return tt, with_trace (trace w ++ [e]) w).

(** The properties every object inherits from [Object.prototype]; all of
    them hold functions, or the prototype itself, which are truthy. *)
Definition Object_prototype_properties : list jsstring :=
  [js "constructor"; js "hasOwnProperty"; js "isPrototypeOf";
   js "propertyIsEnumerable"; js "toLocaleString"; js "toString";
   js "valueOf"; js "__proto__"; js "__defineGetter__"; js "__defineSetter__";
   js "__lookupGetter__"; js "__lookupSetter__"].

(** What [process.env[name]] gives: the variable when it is set, a string;
    otherwise what [Object.prototype] holds under that name, a function or
    an object; otherwise [undefined]. *)
Inductive env_entry : Type :=
  | Env_string (s : jsstring)
  | Env_inherited
  | Env_undefined.

Definition get_env (name : jsstring) : M env_entry :=
  fun w => (Return (match process_env w !! name with
                    | Some s => Env_string s
                    | None => if bool_decide (name ∈ Object_prototype_properties)
                              then Env_inherited
                              else Env_undefined
                    end), w).

Definition get_cwd : M jsstring := fun w => (Return (process_cwd w), w).

(** [new Buffer] holding [data]; the role records what the engine keeps in it. *)
Definition alloc (role : buffer_role) (data : list byte) : M Buffer :=
  fun w => (Return (length (heap w)), with_heap (heap w ++ [(role, data)]) w).

Definition buffer_data (h : list (buffer_role * list byte)) (b : Buffer)
  : list byte :=
  match h !! b with Some (_, d) => d | None => [] end.

Definition read_buffer (b : Buffer) : M (list byte) :=
  fun w => (Return (buffer_data (heap w) b), w).

Definition zero_fill (cell : buffer_role * list byte) : buffer_role * list byte :=
  (cell.1, replicate (length cell.2) x00).

(** [buffer.fill(0)] *)
Definition buffer_fill0 (b : Buffer) : M unit :=
  fun w => (Return tt, with_heap (alter zero_fill b (heap w)) w).

Definition lookup_file (file : jsstring) : M jsstring :=
  fun w => match fs_files w !! file with
           | Some text => (Return text, w)
           | None => (Throw (SystemError (js "ENOENT")), w)
           end.

(** [fs.readFileSync(file, 'utf8')] *)
Definition readFileSync (file : jsstring) : M jsstring :=
  log_event (E_readFileSync file);; lookup_file file.

(** [fs.writeFileSync(file, data, { mode })] *)
Definition writeFileSync (file data : jsstring) (mode : N) : M unit :=
  fun w =>
    if bool_decide (file ∈ fs_denied w) then (Throw (SystemError (js "EACCES")), w)
    else (Return tt,
          with_trace (trace w ++ [E_writeFileSync file data mode])
                     (with_files (<[file := data]> (fs_files w)) w)).

Definition draw (n : nat) : M (list byte) :=
  fun w => (Return (map (entropy w) (seq (entropy_pos w) n)),
            with_entropy_pos (entropy_pos w + n)%nat w).

(** [crypto.randomBytes(n)]: the next [n] bytes of the source, in a new
    [Buffer]. *)
Definition randomBytes (role : buffer_role) (n : nat) : M Buffer :=
  log_event (E_randomBytes n);; data ← draw n; alloc role data.

(** ** [Buffer] encodings

    ['hex'] and ['utf8'], as [buffer.toString(enc)] and
    [Buffer.from(string, enc)] apply them. *)

#[global] Instance byte_eq_decision : EqDecision byte := Byte.byte_eq_dec.

Definition byte_of_N (n : N) : byte :=
  match Byte.of_N n with Some b => b | None => x00 end.

Definition hex_digit (n : N) : N := if n <? 10 then 48 + n else 87 + n.

Definition hex_value (c : N) : option N :=
  if (48 <=? c) && (c <=? 57) then Some (c - 48)
  else if (97 <=? c) && (c <=? 102) then Some (c - 87)
  else if (65 <=? c) && (c <=? 70) then Some (c - 55)
  else None.

(** [buffer.toString('hex')]: two lower-case digits per byte. *)
Fixpoint toString_hex (l : list byte) : jsstring :=
  match l with
  | [] => []
  | b :: r =>
      hex_digit (Byte.to_N b / 16) :: hex_digit (Byte.to_N b mod 16)
        :: toString_hex r
  end.

(** [Buffer.from(s, 'hex')]: pairs of digits, up to the first pair that is
    not one. *)
Fixpoint from_hex (s : jsstring) : list byte :=
  match s with
  | a :: b :: r =>
      match hex_value a, hex_value b with
      | Some x, Some y => byte_of_N (16 * x + y) :: from_hex r
      | _, _ => []
      end
  | _ => []
  end.

Definition is_high_surrogate (c : N) : bool := (0xD800 <=? c) && (c <=? 0xDBFF).
Definition is_low_surrogate (c : N) : bool := (0xDC00 <=? c) && (c <=? 0xDFFF).

(** U+FFFD, and its three bytes. *)
Definition replacement_char : N := 0xFFFD.
Definition replacement_bytes : list byte := [xef; xbf; xbd].

Definition utf8_of_codepoint (cp : N) : list byte :=
  if cp <? 0x80 then [byte_of_N cp]
  else if cp <? 0x800 then
    [byte_of_N (0xC0 + cp / 64); byte_of_N (0x80 + cp mod 64)]
  else if cp <? 0x10000 then
    [byte_of_N (0xE0 + cp / 4096); byte_of_N (0x80 + (cp / 64) mod 64);
     byte_of_N (0x80 + cp mod 64)]
  else
    [byte_of_N (0xF0 + cp / 262144); byte_of_N (0x80 + (cp / 4096) mod 64);
     byte_of_N (0x80 + (cp / 64) mod 64); byte_of_N (0x80 + cp mod 64)].

(** [Buffer.from(s, 'utf8')]: a surrogate pair is one code point, a lone
    surrogate becomes U+FFFD. *)
Fixpoint utf8_encode (s : jsstring) : list byte :=
  match s with
  | [] => []
  | c :: r =>
      if is_high_surrogate c then
        match r with
        | d :: r' =>
            if is_low_surrogate d
            then utf8_of_codepoint (0x10000 + (c - 0xD800) * 1024 + (d - 0xDC00))
                   ++ utf8_encode r'
            else replacement_bytes ++ utf8_encode r
        | [] => replacement_bytes
        end
      else if is_low_surrogate c then replacement_bytes ++ utf8_encode r
      else utf8_of_codepoint c ++ utf8_encode r
  end.

Definition codeunits_of_codepoint (cp : N) : jsstring :=
  if cp <? 0x10000 then [cp]
  else [0xD800 + (cp - 0x10000) / 1024; 0xDC00 + (cp - 0x10000) mod 1024].

Definition in_range (lo hi : N) (b : byte) : bool :=
  (lo <=? Byte.to_N b) && (Byte.to_N b <=? hi).

Definition tail6 (b : byte) : N := Byte.to_N b - 0x80.

(** [buffer.toString('utf8')]: every maximal ill-formed part becomes one
    U+FFFD. *)
Fixpoint utf8_decode (l : list byte) : jsstring :=
  match l with
  | [] => []
  | b0 :: r =>
      let n0 := Byte.to_N b0 in
      if n0 <? 0x80 then n0 :: utf8_decode r
      else if (0xC2 <=? n0) && (n0 <=? 0xDF) then
        match r with
        | b1 :: r1 =>
            if in_range 0x80 0xBF b1
            then ((n0 - 0xC0) * 64 + tail6 b1) :: utf8_decode r1
            else replacement_char :: utf8_decode r
        | [] => [replacement_char]
        end
      else if (0xE0 <=? n0) && (n0 <=? 0xEF) then
        let lo := if n0 =? 0xE0 then 0xA0 else 0x80 in
        let hi := if n0 =? 0xED then 0x9F else 0xBF in
        match r with
        | b1 :: r1 =>
            if in_range lo hi b1 then
              match r1 with
              | b2 :: r2 =>
                  if in_range 0x80 0xBF b2
                  then ((n0 - 0xE0) * 4096 + tail6 b1 * 64 + tail6 b2)
                         :: utf8_decode r2
                  else replacement_char :: utf8_decode r1
              | [] => [replacement_char]
              end
            else replacement_char :: utf8_decode r
        | [] => [replacement_char]
        end
      else if (0xF0 <=? n0) && (n0 <=? 0xF4) then
        let lo := if n0 =? 0xF0 then 0x90 else 0x80 in
        let hi := if n0 =? 0xF4 then 0x8F else 0xBF in
        match r with
        | b1 :: r1 =>
            if in_range lo hi b1 then
              match r1 with
              | b2 :: r2 =>
                  if in_range 0x80 0xBF b2 then
                    match r2 with
                    | b3 :: r3 =>
                        if in_range 0x80 0xBF b3
                        then codeunits_of_codepoint
                               ((n0 - 0xF0) * 262144 + tail6 b1 * 4096
                                + tail6 b2 * 64 + tail6 b3)
                               ++ utf8_decode r3
                        else replacement_char :: utf8_decode r2
                    | [] => [replacement_char]
                    end
                  else replacement_char :: utf8_decode r1
              | [] => [replacement_char]
              end
            else replacement_char :: utf8_decode r
        | [] => [replacement_char]
        end
      else replacement_char :: utf8_decode r
  end.

(** The strings [readFileSync(_, 'utf8')] can return: 16-bit code units,
    every surrogate in a pair. *)
Fixpoint well_formed (s : jsstring) : bool :=
  match s with
  | [] => true
  | c :: r =>
      if is_high_surrogate c then
        match r with
        | d :: r' => is_low_surrogate d && well_formed r'
        | [] => false
        end
      else negb (is_low_surrogate c) && (c <? 0x10000) && well_formed r
  end.

Set Warnings "-register-all".

(** ** JSON

    The values [JSON.parse] builds, [JSON.parse] itself, and
    [JSON.stringify] on an object whose values are strings. A number is kept
    as its decimal digits and power of ten. *)

Inductive json : Type :=
  | JNull
  | JBool (b : bool)
  | JNumber (negative : bool) (digits : N) (exp10 : Z)
  | JString (s : jsstring)
  | JArray (items : list json)
  | JObject (members : list (jsstring * json)).

Definition dquote : N := 34.
Definition backslash : N := 92.

Definition is_json_ws (c : N) : bool :=
  (c =? 0x20) || (c =? 0x09) || (c =? 0x0A) || (c =? 0x0D).

Fixpoint skip_ws (s : jsstring) : jsstring :=
  match s with
  | c :: r => if is_json_ws c then skip_ws r else s
  | [] => []
  end.

Definition is_digit (c : N) : bool := (48 <=? c) && (c <=? 57).

Fixpoint take_digits (s : jsstring) : list N * jsstring :=
  match s with
  | c :: r =>
      if is_digit c
      then let '(ds, r') := take_digits r in ((c - 48) :: ds, r')
      else ([], s)
  | [] => ([], [])
  end.

Definition digits_value (ds : list N) : N :=
  foldl (fun acc d => 10 * acc + d) 0 ds.

(** [-? int frac? exp?] *)
Definition parse_number (s : jsstring) : option (json * jsstring) :=
  let '(neg, s1) := match s with
                    | 45 :: r => (true, r)
                    | _ => (false, s)
                    end in
  let int_part := match s1 with
                  | 48 :: r => Some ([0], r)
                  | _ => match take_digits s1 with
                         | ([], _) => None
                         | (ds, r) => Some (ds, r)
                         end
                  end in
  match int_part with
  | None => None
  | Some (ids, s2) =>
      let frac_part := match s2 with
                       | 46 :: r => match take_digits r with
                                    | ([], _) => None
                                    | (ds, r') => Some (ds, r')
                                    end
                       | _ => Some ([], s2)
                       end in
      match frac_part with
      | None => None
      | Some (fds, s3) =>
          let exp_digits (positive : bool) (r : jsstring) :=
            match take_digits r with
            | ([], _) => None
            | (ds, r') =>
                let e := Z.of_N (digits_value ds) in
                Some (if positive then e else (- e)%Z, r')
            end in
          let exp_part :=
            match s3 with
            | c :: r =>
                if (c =? 101) || (c =? 69) then
                  match r with
                  | 43 :: r' => exp_digits true r'
                  | 45 :: r' => exp_digits false r'
                  | _ => exp_digits true r
                  end
                else Some (0%Z, s3)
            | [] => Some (0%Z, s3)
            end in
          match exp_part with
          | None => None
          | Some (e, s4) =>
              Some (JNumber neg (digits_value (ids ++ fds))
                            (e - Z.of_nat (length fds))%Z, s4)
          end
      end
  end.

Definition hex4 (a b c d : N) : option N :=
  match hex_value a, hex_value b, hex_value c, hex_value d with
  | Some x, Some y, Some z, Some t => Some (4096 * x + 256 * y + 16 * z + t)
  | _, _, _, _ => None
  end.

(** The characters of a string, after the opening quote, up to the closing
    one. *)
Fixpoint parse_string_body (s : jsstring) : option (jsstring * jsstring) :=
  match s with
  | [] => None
  | c :: r =>
      if c =? dquote then Some ([], r)
      else if c =? backslash then
        match r with
        | e :: r' =>
            let simple (x : N) :=
              match parse_string_body r' with
              | Some (t, rest) => Some (x :: t, rest)
              | None => None
              end in
            if e =? dquote then simple dquote
            else if e =? backslash then simple backslash
            else if e =? 47 then simple 47
            else if e =? 98 then simple 8
            else if e =? 102 then simple 12
            else if e =? 110 then simple 10
            else if e =? 114 then simple 13
            else if e =? 116 then simple 9
            else if e =? 117 then
              match r' with
              | h1 :: h2 :: h3 :: h4 :: r4 =>
                  match hex4 h1 h2 h3 h4, parse_string_body r4 with
                  | Some x, Some (t, rest) => Some (x :: t, rest)
                  | _, _ => None
                  end
              | _ => None
              end
            else None
        | [] => None
        end
      else if c <? 0x20 then None
      else match parse_string_body r with
           | Some (t, rest) => Some (c :: t, rest)
           | None => None
           end
  end.

Fixpoint parse_value (fuel : nat) (s : jsstring) : option (json * jsstring) :=
  match fuel with
  | O => None
  | S f =>
      match skip_ws s with
      | [] => None
      | c :: r =>
          if c =? 123 then
            match skip_ws r with
            | 125 :: r' => Some (JObject [], r')
            | _ => parse_members f [] r
            end
          else if c =? 91 then
            match skip_ws r with
            | 93 :: r' => Some (JArray [], r')
            | _ => parse_elements f [] r
            end
          else if c =? dquote then
            match parse_string_body r with
            | Some (t, rest) => Some (JString t, rest)
            | None => None
            end
          else if startsWith (c :: r) (js "true") then Some (JBool true, drop 4 (c :: r))
          else if startsWith (c :: r) (js "false") then Some (JBool false, drop 5 (c :: r))
          else if startsWith (c :: r) (js "null") then Some (JNull, drop 4 (c :: r))
          else parse_number (c :: r)
      end
  end
with parse_members (fuel : nat) (acc : list (jsstring * json)) (s : jsstring)
  : option (json * jsstring) :=
  match fuel with
  | O => None
  | S f =>
      match skip_ws s with
      | c :: r =>
          if c =? dquote then
            match parse_string_body r with
            | Some (k, r1) =>
                match skip_ws r1 with
                | 58 :: r2 =>
                    match parse_value f r2 with
                    | Some (v, r3) =>
                        match skip_ws r3 with
                        | 44 :: r4 => parse_members f (acc ++ [(k, v)]) r4
                        | 125 :: r4 => Some (JObject (acc ++ [(k, v)]), r4)
                        | _ => None
                        end
                    | None => None
                    end
                | _ => None
                end
            | None => None
            end
          else None
      | [] => None
      end
  end
with parse_elements (fuel : nat) (acc : list json) (s : jsstring)
  : option (json * jsstring) :=
  match fuel with
  | O => None
  | S f =>
      match parse_value f s with
      | Some (v, r1) =>
          match skip_ws r1 with
          | 44 :: r2 => parse_elements f (acc ++ [v]) r2
          | 93 :: r2 => Some (JArray (acc ++ [v]), r2)
          | _ => None
          end
      | None => None
      end
  end.

Definition json_syntax_error : js_error := SyntaxError (js "JSON Parse error").

(** [JSON.parse(text)] *)
Definition JSON_parse (text : jsstring) : outcome json :=
  match parse_value (S (length text)) text with
  | Some (v, rest) =>
      match skip_ws rest with
      | [] => Return v
      | _ => Throw json_syntax_error
      end
  | None => Throw json_syntax_error
  end.

Definition hex4_of (c : N) : jsstring :=
  [hex_digit (c / 4096); hex_digit ((c / 256) mod 16);
   hex_digit ((c / 16) mod 16); hex_digit (c mod 16)].

(** [JSON.stringify] of a string: quotes, with the escapes of
    [QuoteJSONString]. *)
Fixpoint quote_chars (s : jsstring) : jsstring :=
  match s with
  | [] => []
  | c :: r =>
      if c =? dquote then backslash :: dquote :: quote_chars r
      else if c =? backslash then backslash :: backslash :: quote_chars r
      else if c =? 8 then backslash :: 98 :: quote_chars r
      else if c =? 12 then backslash :: 102 :: quote_chars r
      else if c =? 10 then backslash :: 110 :: quote_chars r
      else if c =? 13 then backslash :: 114 :: quote_chars r
      else if c =? 9 then backslash :: 116 :: quote_chars r
      else if c <? 0x20 then backslash :: 117 :: hex4_of c ++ quote_chars r
      else if is_high_surrogate c then
        match r with
        | d :: r' =>
            if is_low_surrogate d then c :: d :: quote_chars r'
            else backslash :: 117 :: hex4_of c ++ quote_chars r
        | [] => backslash :: 117 :: hex4_of c
        end
      else if is_low_surrogate c then backslash :: 117 :: hex4_of c ++ quote_chars r
      else c :: quote_chars r
  end.

Definition JSON_quote (s : jsstring) : jsstring :=
  dquote :: quote_chars s ++ [dquote].

(** [JSON.stringify(o)] for an object [o] whose own properties, in order,
    are the given names with string values. *)
Definition JSON_stringify (members : list (jsstring * jsstring)) : jsstring :=
  js "{"
  ++ join_with (js ",")
       (map (fun '(k, v) => JSON_quote k ++ js ":" ++ JSON_quote v) members)
  ++ js "}".

(** [o.name] on a parsed value, for a name that no prototype defines: the
    last member of that name for an object, [undefined] for the other
    values, a [TypeError] on [null]. *)
Fixpoint lookup_member (name : jsstring) (ms : list (jsstring * json))
  : option json :=
  match ms with
  | [] => None
  | (k, v) :: r =>
      match lookup_member name r with
      | Some v' => Some v'
      | None => if jsstring_eqb k name then Some v else None
      end
  end.

Definition get_property (v : json) (name : jsstring) : outcome (option json) :=
  match v with
  | JNull => Throw (TypeError (js "Cannot read properties of null"))
  | JObject ms => Return (lookup_member name ms)
  | _ => Return None
  end.

(** A decimal [digits * 10^exp10] that the nearest double rounds to zero. *)
Definition rounds_to_zero (digits : N) (exp10 : Z) : bool :=
  (digits =? 0)
  || ((exp10 <? 0)%Z && (Z.of_N digits * 2 ^ 1075 <=? 10 ^ (- exp10))%Z).

(** [ToBoolean]; [None] is [undefined]. *)
Definition truthy (v : option json) : bool :=
  match v with
  | None => false
  | Some JNull => false
  | Some (JBool b) => b
  | Some (JNumber _ d e) => negb (rounds_to_zero d e)
  | Some (JString s) => negb (jsstring_eqb s [])
  | Some (JArray _) => true
  | Some (JObject _) => true
  end.

(** ** Regular expressions

    The fragment of ECMAScript patterns the engine uses, matched by
    backtracking, greedy quantifiers first; an iteration of [*] or [?] that
    matches the empty string is refused, as [RepeatMatcher] does. *)

Inductive regex : Type :=
  | Re_class (p : N -> bool)
  | Re_seq (a b : regex)
  | Re_star (a : regex)
  | Re_opt (a : regex)
  | Re_group (i : nat) (a : regex)
  | Re_bol
  | Re_eol.

Abbreviation captures := (gmap nat jsstring).

(** A matcher takes the position, the rest of the input, the captures so
    far and what remains to be matched after it. *)
Definition continuation : Type := nat -> jsstring -> captures -> option captures.
Definition matcher : Type := nat -> jsstring -> captures -> continuation -> option captures.

(** The iterations of [m*], at most [fuel] of them, the longest first. *)
Fixpoint star_loop (m : matcher) (k : continuation) (fuel : nat)
    (pos : nat) (s : jsstring) (caps : captures) : option captures :=
  match fuel with
  | O => k pos s caps
  | S fuel' =>
      match m pos s caps
              (fun pos' s' caps' =>
                 if (length s' <? length s)%nat
                 then star_loop m k fuel' pos' s' caps' else None) with
      | Some c => Some c
      | None => k pos s caps
      end
  end.

Fixpoint re_match (r : regex) : matcher :=
  fun pos s caps k =>
  match r with
  | Re_class p =>
      match s with
      | c :: s' => if p c then k (S pos) s' caps else None
      | [] => None
      end
  | Re_seq a b =>
      re_match a pos s caps (fun pos' s' caps' => re_match b pos' s' caps' k)
  | Re_star a => star_loop (re_match a) k (length s) pos s caps
  | Re_opt a =>
      match re_match a pos s caps
              (fun pos' s' caps' =>
                 if (length s' <? length s)%nat then k pos' s' caps' else None) with
      | Some c => Some c
      | None => k pos s caps
      end
  | Re_group i a =>
      re_match a pos s caps
        (fun pos' s' caps' => k pos' s' (<[i := take (pos' - pos) s]> caps'))
  | Re_bol => if (pos =? 0)%nat then k pos s caps else None
  | Re_eol => match s with [] => k pos s caps | _ => None end
  end.

(** [a+] is [aa*]. *)
Definition Re_plus (a : regex) : regex := Re_seq a (Re_star a).

(** [string.match(re)] for a pattern without flags: the first start index
    at which the pattern matches. *)
Fixpoint re_exec_from (r : regex) (pos : nat) (s : jsstring) : option captures :=
  match re_match r pos s ∅ (fun _ _ c => Some c) with
  | Some c => Some c
  | None =>
      match s with
      | [] => None
      | _ :: s' => re_exec_from r (S pos) s'
      end
  end.

Definition re_exec (r : regex) (s : jsstring) : option captures :=
  re_exec_from r 0 s.

(** [\s]: WhiteSpace and LineTerminator. *)
Definition is_space (c : N) : bool :=
  ((9 <=? c) && (c <=? 13)) || (c =? 32) || (c =? 0xA0) || (c =? 0x1680)
  || ((0x2000 <=? c) && (c <=? 0x200A)) || (c =? 0x2028) || (c =? 0x2029)
  || (c =? 0x202F) || (c =? 0x205F) || (c =? 0x3000) || (c =? 0xFEFF).

(** [\w] *)
Definition is_word (c : N) : bool :=
  ((97 <=? c) && (c <=? 122)) || ((65 <=? c) && (c <=? 90))
  || ((48 <=? c) && (c <=? 57)) || (c =? 95).

(** [[\w.-]] *)
Definition is_key_char (c : N) : bool := is_word c || (c =? 46) || (c =? 45).

(** [.]: anything but a line terminator. *)
Definition is_any (c : N) : bool :=
  negb ((c =? 10) || (c =? 13) || (c =? 0x2028) || (c =? 0x2029)).

Definition is_equals (c : N) : bool := c =? 61.

(** The pattern of the parser, [/^\s*([\w.-]+)\s*=\s*(V)?\s*$/] with [.*]
    for [V]. *)
Definition env_line_regex : regex :=
  Re_seq Re_bol
 (Re_seq (Re_star (Re_class is_space))
 (Re_seq (Re_group 1 (Re_plus (Re_class is_key_char)))
 (Re_seq (Re_star (Re_class is_space))
 (Re_seq (Re_class is_equals)
 (Re_seq (Re_star (Re_class is_space))
 (Re_seq (Re_opt (Re_group 2 (Re_star (Re_class is_any))))
 (Re_seq (Re_star (Re_class is_space))
         Re_eol))))))).

(** ** The key-value parser inside [decryptEnvFile] *)

Definition squote : N := 39.

(** "Remove quotes if present" *)
Definition unquote (value : jsstring) : jsstring :=
  if (1 <? length value)%nat
     && ((startsWith value [dquote] && endsWith value [dquote])
         || (startsWith value [squote] && endsWith value [squote]))
  then substring 1 (length value - 1) value
  else value.

(** [envVars[key] = value] on an object created by [{}]: [__proto__] is the
    accessor of [Object.prototype], whose setter ignores a string; any other
    key becomes, or overwrites, an own property. *)
Definition set_property (envVars : gmap jsstring jsstring) (key value : jsstring)
  : gmap jsstring jsstring :=
  if jsstring_eqb key (js "__proto__") then envVars else <[key := value]> envVars.

(** The body of the [forEach] over the lines. *)
Definition parse_env_line (envVars : gmap jsstring jsstring) (line : jsstring)
  : gmap jsstring jsstring :=
  if jsstring_eqb line [] || startsWith line (js "#") then envVars
  else
    match re_exec env_line_regex line with
    | Some m =>
        match m !! 1%nat with
        | Some key => set_property envVars key (unquote (default [] (m !! 2%nat)))
        | None => envVars
        end
    | None => envVars
    end.

Definition parse_env (decrypted : jsstring) : gmap jsstring jsstring :=
  foldl parse_env_line ∅ (split_on 10 decrypted).

(** ** The engine *)

(** [validatePath] *)
Definition validatePath (filePath : jsstring) : M jsstring :=
  here ← get_cwd;
  let resolved := path.resolve here [here; filePath] in
  let cwd := path.resolve here [here] in
  let relative := path.relative here cwd resolved in
  if startsWith relative (js "..")
     || (path.isAbsolute filePath && negb (startsWith resolved (cwd ++ path.sep)))
  then throw (EnvCryptoError (js "Invalid file path: outside working directory")
                             (js "INVALID_PATH"))
  else mret resolved.

(** ** The cryptographic primitives

    [scrypt] with the default cost, the counter-mode transform of
    AES-256-GCM (the same in both directions), its tag over the ciphertext,
    and what [createDecipheriv], [setAuthTag] and [final] accept.
    [Buffer_from_object] is [Buffer.from(v, 'hex')] on an array or object. *)

Class Crypto : Type := {
  scrypt : list byte -> list byte -> nat -> list byte;
  gcm_crypt : list byte -> list byte -> list byte -> list byte;
  gcm_tag : list byte -> list byte -> list byte -> list byte;
  gcm_iv_ok : list byte -> bool;
  gcm_tag_ok : list byte -> bool;
  gcm_verify : list byte -> list byte -> list byte -> list byte -> bool;
  Buffer_from_object : json -> outcome (list byte)
}.

(** What the engine relies on. *)
Class CryptoLaws (C : Crypto) : Prop := {
  scrypt_length : forall password salt n, length (scrypt password salt n) = n;
  gcm_crypt_involutive :
    forall key iv data, gcm_crypt key iv (gcm_crypt key iv data) = data;
  gcm_crypt_length :
    forall key iv data, length (gcm_crypt key iv data) = length data;
  gcm_tag_length : forall key iv c, length (gcm_tag key iv c) = 16%nat;
  gcm_iv_ok_16 : forall iv, length iv = 16%nat -> gcm_iv_ok iv = true;
  gcm_tag_ok_16 : forall t, length t = 16%nat -> gcm_tag_ok t = true;
  gcm_verify_16 :
    forall key iv c t, length t = 16%nat ->
      gcm_verify key iv c t = bool_decide (t = gcm_tag key iv c)
}.

(** ** The engine, continued *)

(** The [let] variables of a call that its [finally] block reads. *)
Record locals : Type := mkLocals {
  keyBuffer : option Buffer;
  salt : option Buffer
}.

Abbreviation call_state := (locals * world)%type.

(** A call in progress: its variables and the world. *)
Definition C (A : Type) : Type := call_state -> outcome A * call_state.

#[global] Instance C_ret : MRet C := fun A a st => (Return a, st).
#[global] Instance C_bind : MBind C :=
  fun A B k m st => match m st with
                    | (Return a, st') => k a st'
                    | (Throw e, st') => (Throw e, st')
                    end.

Definition io {A} (m : M A) : C A :=
  fun st => match m st.2 with (r, w') => (r, (st.1, w')) end.

Definition raise {A} (e : js_error) : C A := fun st => (Throw e, st).

Definition get_locals : C locals := fun st => (Return st.1, st).
Definition set_keyBuffer (b : Buffer) : C unit :=
  fun st => (Return tt, (mkLocals (Some b) (salt st.1), st.2)).
Definition set_salt (b : Buffer) : C unit :=
  fun st => (Return tt, (mkLocals (keyBuffer st.1) (Some b), st.2)).

(** [try { body } finally { fin }]: [fin] runs on both exits of [body]; if
    [fin] throws, its error replaces the outcome of [body]. *)
Definition try_finally_c {A} (body : C A) (fin : C unit) : C A :=
  fun st => match body st with
            | (r, st') =>
                match fin st' with
                | (Return _, st'') => (r, st'')
                | (Throw e, st'') => (Throw e, st'')
                end
            end.

(** A call: both variables start as [null]. *)
Definition call {A} (body : C A) : M A :=
  fun w => match body (mkLocals None None, w) with
           | (r, st') => (r, st'.2)
           end.

(** [clearBuffer] *)
Definition clearBuffer (buffer : option Buffer) : M unit :=
  match buffer with
  | Some b => buffer_fill0 b
  | None => mret tt
  end.

(** [0o600] *)
Definition mode_owner_rw : N := 6 * 64.

Definition console_log (msg : jsstring) : M unit := log_event (E_console_log msg).

(** The state of a [Cipher] or [Decipher] object. *)
Record cipher : Type := mkCipher {
  c_key : list byte;
  c_iv : list byte;
  c_tag : list byte;
  c_text : list byte
}.

Section engine.
Context `{Crypto}.

(** [scryptSync(password, salt, keylen)]: a password that is neither a
    string nor a buffer is refused before anything is derived. *)
Definition scryptSync (password : env_entry) (salt : Buffer) (keylen : nat)
  : M Buffer :=
  match password with
  | Env_string p =>
      log_event E_scryptSync;;
      s ← read_buffer salt;
      alloc KeyBuffer (scrypt (utf8_encode p) s keylen)
  | _ => throw (TypeError (js "The password argument must be of type string"))
  end.

(** [createCipheriv('aes-256-gcm', key, iv)] *)
Definition createCipheriv (key iv : Buffer) : M cipher :=
  log_event E_createCipheriv;;
  k ← read_buffer key;
  v ← read_buffer iv;
  if bool_decide (length k = 32%nat) && gcm_iv_ok v
  then mret (mkCipher k v [] [])
  else throw (CryptoError (js "Invalid key length or initialization vector")).

(** [cipher.update(plaintext, 'utf8', 'hex')], first call on the object *)
Definition cipher_update (c : cipher) (plaintext : jsstring)
  : jsstring * cipher :=
  let ct := gcm_crypt (c_key c) (c_iv c) (utf8_encode plaintext) in
  (toString_hex ct, mkCipher (c_key c) (c_iv c) (c_tag c) ct).

(** [cipher.final('hex')]: a stream mode has nothing left to give. *)
Definition cipher_final (c : cipher) : jsstring := [].

(** [cipher.getAuthTag()] *)
Definition getAuthTag (c : cipher) : M Buffer :=
  alloc AuthTagBuffer (gcm_tag (c_key c) (c_iv c) (c_text c)).

(** [createDecipheriv('aes-256-gcm', key, iv)] *)
Definition createDecipheriv (key iv : Buffer) : M cipher :=
  log_event E_createDecipheriv;;
  k ← read_buffer key;
  v ← read_buffer iv;
  if bool_decide (length k = 32%nat) && gcm_iv_ok v
  then mret (mkCipher k v [] [])
  else throw (CryptoError (js "Invalid key length or initialization vector")).

(** [decipher.setAuthTag(authTag)] *)
Definition setAuthTag (c : cipher) (authTag : Buffer) : M cipher :=
  t ← read_buffer authTag;
  if gcm_tag_ok t
  then mret (mkCipher (c_key c) (c_iv c) t (c_text c))
  else throw (CryptoError (js "Invalid authentication tag length")).

(** [decipher.update(content, 'hex', 'utf8')], first call on the object:
    a string of odd length is refused; otherwise the bytes deciphered, of
    which the decoder gives out the complete characters now and the rest in
    [final]. *)
Definition decipher_update (c : cipher) (content : option json)
  : outcome (list byte * cipher) :=
  match content with
  | Some (JString hex) =>
      if Nat.odd (length hex)
      then Throw (TypeError (js "The argument 'encoding' is invalid for data of odd length"))
      else
        let ct := from_hex hex in
        Return (gcm_crypt (c_key c) (c_iv c) ct,
                mkCipher (c_key c) (c_iv c) (c_tag c) ct)
  | _ => Throw (TypeError (js "The data argument must be of type string"))
  end.

(** [decipher.final('utf8')]: throws unless the tag verifies. *)
Definition decipher_final (c : cipher) : outcome unit :=
  if gcm_verify (c_key c) (c_iv c) (c_text c) (c_tag c)
  then Return tt
  else Throw (CryptoError (js "Unsupported state or unable to authenticate data")).

(** The bytes of [Buffer.from(v, 'hex')], for a value out of [JSON.parse]
    that is truthy. *)
Definition Buffer_from_hex (v : option json) : outcome (list byte) :=
  match v with
  | Some (JString s) => Return (from_hex s)
  | Some (JArray l) => Buffer_from_object (JArray l)
  | Some (JObject m) => Buffer_from_object (JObject m)
  | _ => Throw (TypeError (js "The first argument must be of type string"))
  end.

Definition Buffer_from (role : buffer_role) (v : option json) : M Buffer :=
  d ← lift (Buffer_from_hex v); alloc role d.

Definition key_not_found (message : jsstring) : js_error :=
  EnvCryptoError message (js "KEY_NOT_FOUND").

(** [!key] for [key = process.env[keyEnvVar]] *)
Definition missing (key : env_entry) : bool :=
  match key with
  | Env_string (_ :: _) | Env_inherited => false
  | Env_string [] | Env_undefined => true
  end.

(** [encryptEnvFile] *)
Definition encryptEnvFile (sourcePath outputPath keyEnvVar : jsstring) : M unit :=
  call (try_finally_c
    (key ← io (get_env keyEnvVar);
     if missing key then
       raise (key_not_found
                (js "Environment variable " ++ keyEnvVar ++ js " not found"))
     else
     validatedSourcePath ← io (validatePath sourcePath);
     plaintext ← io (readFileSync validatedSourcePath);
     salt ← io (randomBytes SaltBuffer 16);
     set_salt salt;;
     keyBuffer ← io (scryptSync key salt 32);
     set_keyBuffer keyBuffer;;
     iv ← io (randomBytes IvBuffer 16);
     cipher ← io (createCipheriv keyBuffer iv);
     let '(encrypted, cipher) := cipher_update cipher plaintext in
     let encrypted := encrypted ++ cipher_final cipher in
     authTag ← io (getAuthTag cipher);
     salt_bytes ← io (read_buffer salt);
     iv_bytes ← io (read_buffer iv);
     authTag_bytes ← io (read_buffer authTag);
     let encryptedData :=
       JSON_stringify [(js "version", js "1.0.0");
                       (js "salt", toString_hex salt_bytes);
                       (js "iv", toString_hex iv_bytes);
                       (js "content", encrypted);
                       (js "authTag", toString_hex authTag_bytes)] in
     validatedOutputPath ← io (validatePath outputPath);
     io (writeFileSync validatedOutputPath encryptedData mode_owner_rw);;
     io (console_log (js "Encrypted environment file saved to " ++ outputPath)))
    (vars ← get_locals;
     io (clearBuffer (keyBuffer vars));;
     io (clearBuffer (salt vars)))).

Definition invalid_format : js_error :=
  EnvCryptoError (js "Invalid encrypted file format: missing required fields")
                 (js "INVALID_FORMAT").

(** [decryptEnvFile] *)
Definition decryptEnvFile (sourcePath keyEnvVar : jsstring)
  : M (gmap jsstring jsstring) :=
  call (try_finally_c
    (key ← io (get_env keyEnvVar);
     if missing key then
       raise (key_not_found
                (js "Decryption key not found in environment variable "
                 ++ keyEnvVar))
     else
     validatedSourcePath ← io (validatePath sourcePath);
     text ← io (readFileSync validatedSourcePath);
     encryptedData ← io (lift (JSON_parse text));
     e_salt ← io (lift (get_property encryptedData (js "salt")));
     e_iv ← io (lift (get_property encryptedData (js "iv")));
     e_content ← io (lift (get_property encryptedData (js "content")));
     e_authTag ← io (lift (get_property encryptedData (js "authTag")));
     if negb (truthy e_salt) || negb (truthy e_iv) || negb (truthy e_content)
        || negb (truthy e_authTag)
     then raise invalid_format
     else
     salt ← io (Buffer_from SaltBuffer e_salt);
     keyBuffer ← io (scryptSync key salt 32);
     set_keyBuffer keyBuffer;;
     iv ← io (Buffer_from IvBuffer e_iv);
     authTag ← io (Buffer_from AuthTagBuffer e_authTag);
     decipher ← io (createDecipheriv keyBuffer iv);
     decipher ← io (setAuthTag decipher authTag);
     updated ← io (lift (decipher_update decipher e_content));
     io (lift (decipher_final updated.2));;
     let decrypted := utf8_decode updated.1 in
     mret (parse_env decrypted))
    (vars ← get_locals;
     io (clearBuffer (keyBuffer vars)))).

End engine.

(** ** Notions used in the statements *)

(** The outcome of [validatePath] in a given working directory. *)
Definition validate (cwd filePath : jsstring) : outcome jsstring :=
  (validatePath filePath (mkWorld ∅ cwd ∅ ∅ (fun _ => x00) 0 [] [])).1.

Definition invalid_path : js_error :=
  EnvCryptoError (js "Invalid file path: outside working directory")
                 (js "INVALID_PATH").

Abbreviation cells := (list (buffer_role * list byte)).

(** The bytes of the [k]-th of the buffers [L]. *)
Fixpoint data_at (L : cells) (k : nat) : list byte :=
  match L, k with
  | [], _ => []
  | c :: _, O => c.2
  | _ :: L', S k' => data_at L' k'
  end.

(** [L], its [k]-th buffer filled with zeros. *)
Fixpoint zero_at (k : nat) (L : cells) : cells :=
  match L, k with
  | [], _ => []
  | c :: L', O => zero_fill c :: L'
  | c :: L', S k' => c :: zero_at k' L'
  end.

Definition all_zero (d : list byte) : Prop := Forall (fun b => b = x00) d.

(** The buffers holding key material: the derived key and the salt. *)
Definition key_material (role : buffer_role) : bool :=
  match role with
  | KeyBuffer | SaltBuffer => true
  | _ => false
  end.

(** The bytes [randomBytes(n)] returns when the source is at [pos]. *)
Definition drawn (w : world) (pos n : nat) : list byte :=
  map (entropy w) (seq pos n).

Section container.
Context `{Crypto}.

Definition derived_key (passphrase : jsstring) (salt : list byte) : list byte :=
  scrypt (utf8_encode passphrase) salt 32.

Definition ciphertext (passphrase plaintext : jsstring) (salt iv : list byte)
  : list byte :=
  gcm_crypt (derived_key passphrase salt) iv (utf8_encode plaintext).

Definition auth_tag (passphrase plaintext : jsstring) (salt iv : list byte)
  : list byte :=
  gcm_tag (derived_key passphrase salt) iv
          (ciphertext passphrase plaintext salt iv).

(** The text [encryptEnvFile] writes, from the passphrase, the plaintext
    and the two random draws. *)
Definition container (passphrase plaintext : jsstring) (salt iv : list byte)
  : jsstring :=
  JSON_stringify
    [(js "version", js "1.0.0");
     (js "salt", toString_hex salt);
     (js "iv", toString_hex iv);
     (js "content", toString_hex (ciphertext passphrase plaintext salt iv) ++ []);
     (js "authTag", toString_hex (auth_tag passphrase plaintext salt iv))].

(** A container text with the given four fields. *)
Definition container_of (salt iv content authTag : list byte) : jsstring :=
  JSON_stringify
    [(js "version", js "1.0.0");
     (js "salt", toString_hex salt);
     (js "iv", toString_hex iv);
     (js "content", toString_hex content);
     (js "authTag", toString_hex authTag)].

End container.

(** [data.name] for a parsed value other than [null]. *)
Definition property (data : json) (name : jsstring) : option json :=
  match data with
  | JObject ms => lookup_member name ms
  | _ => None
  end.

(** The value of a field of a container text, [None] when the text does
    not parse or has no such string field. *)
Definition field (name text : jsstring) : option jsstring :=
  match JSON_parse text with
  | Return (JObject ms) =>
      match lookup_member name ms with
      | Some (JString s) => Some s
      | _ => None
      end
  | _ => None
  end.

(** The world after a successful [encryptEnvFile] of the plaintext [P]
    under the passphrase [K], source and output resolved to [sp'] and [op']. *)
Section outcomes.
Context `{Crypto}.

Definition enc_salt (w : world) : list byte := drawn w (entropy_pos w) 16.
Definition enc_iv (w : world) : list byte := drawn w (entropy_pos w + 16) 16.

Definition after_encrypt (w : world) (sp' op op' K P : jsstring) : world :=
  let text := container K P (enc_salt w) (enc_iv w) in
  mkWorld (process_env w) (process_cwd w) (<[op' := text]> (fs_files w))
    (fs_denied w) (entropy w) (entropy_pos w + 16 + 16)
    (heap w ++ [zero_fill (SaltBuffer, enc_salt w);
                zero_fill (KeyBuffer, derived_key K (enc_salt w));
                (IvBuffer, enc_iv w);
                (AuthTagBuffer, auth_tag K P (enc_salt w) (enc_iv w))])
    (trace w ++ [E_readFileSync sp'; E_randomBytes 16; E_scryptSync;
                 E_randomBytes 16; E_createCipheriv;
                 E_writeFileSync op' text mode_owner_rw;
                 E_console_log (js "Encrypted environment file saved to " ++ op)]).

(** The world after [decryptEnvFile] has gone through the cipher, on a
    container with the given salt, nonce and tag. *)
Definition after_decrypt (w : world) (sp' K : jsstring) (salt iv tag : list byte)
  : world :=
  mkWorld (process_env w) (process_cwd w) (fs_files w) (fs_denied w)
    (entropy w) (entropy_pos w)
    (heap w ++ [(SaltBuffer, salt); zero_fill (KeyBuffer, derived_key K salt);
                (IvBuffer, iv); (AuthTagBuffer, tag)])
    (trace w ++ [E_readFileSync sp'; E_scryptSync; E_createDecipheriv]).

Definition auth_failed : js_error :=
  CryptoError (js "Unsupported state or unable to authenticate data").

End outcomes.

(** The characters [JSON.stringify] copies as they are. *)
Definition plain_char (c : N) : bool :=
  (0x20 <=? c) && negb (c =? dquote) && negb (c =? backslash)
  && negb (is_high_surrogate c) && negb (is_low_surrogate c).

Definition plain_member (m : jsstring * jsstring) : bool :=
  forallb plain_char m.1 && forallb plain_char m.2.





(** ** A small instance of the primitives

    Not AES and not scrypt: a keyed stream cipher with a checksum, of the
    same shape, on which the engine can be run. *)
Module toy.

Definition xor_byte (a b : byte) : byte :=
  let '(a0, (a1, (a2, (a3, (a4, (a5, (a6, a7))))))) := Byte.to_bits a in
  let '(b0, (b1, (b2, (b3, (b4, (b5, (b6, b7))))))) := Byte.to_bits b in
  Byte.of_bits (xorb a0 b0, (xorb a1 b1, (xorb a2 b2, (xorb a3 b3,
               (xorb a4 b4, (xorb a5 b5, (xorb a6 b6, xorb a7 b7))))))).

Definition byte_at (l : list byte) (i : nat) : byte :=
  match l with
  | [] => x00
  | _ => default x00 (l !! (i mod length l)%nat)
  end.

Definition stretch (password salt : list byte) (n : nat) : list byte :=
  map (fun i => xor_byte (byte_at password i) (byte_at salt (i + 1))) (seq 0 n).

Fixpoint stream (key iv : list byte) (i : nat) (data : list byte) : list byte :=
  match data with
  | [] => []
  | d :: r =>
      xor_byte d (xor_byte (byte_at key i) (byte_at iv i)) :: stream key iv (S i) r
  end.

Definition checksum (l : list byte) : N :=
  foldl (fun acc b => (31 * acc + Byte.to_N b + 1) mod 65521) 7 l.

Definition tag (key iv c : list byte) : list byte :=
  map (fun i => byte_of_N ((checksum (key ++ iv ++ c) * (N.of_nat i + 3)) mod 251))
      (seq 0 16).

#[global] Instance crypto : Crypto := {|
  scrypt := stretch;
  gcm_crypt key iv data := stream key iv 0 data;
  gcm_tag := tag;
  gcm_iv_ok iv := negb (bool_decide (iv = []));
  gcm_tag_ok t := bool_decide (length t ∈ [4; 8; 12; 13; 14; 15; 16]%nat);
  gcm_verify key iv c t := bool_decide (t = take (length t) (tag key iv c));
  Buffer_from_object _ := Throw (TypeError (js "The first argument must be of type string"))
|}.

End toy.

(** ** Worlds for the examples *)

(** Working directory [/home/user/project], nothing else. *)
Definition project_dir : list jsstring := [js "home"; js "user"; js "project"].
Definition empty_world : world :=
  mkWorld ∅ (path.abs_path project_dir) ∅ ∅ (fun _ => x00) 0 [] [].

(** The project with a passphrase in [ENV_CRYPTO_KEY] and a [.env] file
    holding [text]; the random source is a fixed sequence. *)
Definition demo_key : jsstring := js "mkNA802Hqwxpl6c0".
Definition demo_entropy (i : nat) : byte := byte_of_N (N.of_nat (7 * i + 3) mod 256).
Definition project_with (text : jsstring) : world :=
  mkWorld {[ js "ENV_CRYPTO_KEY" := demo_key ]} (path.abs_path project_dir)
          {[ js "/home/user/project/.env" := text ]} ∅ demo_entropy 0 [] [].

Definition demo_text : jsstring :=
  js "TEST_VAR=123" ++ [10] ++ js "ANOTHER_VAR=hello,world" ++ [10].
Definition demo_world : world := project_with demo_text.
Definition empty_env_world : world := project_with [].

(** The draws of a first run in [demo_world], and worlds holding a
    container in [.env.encrypted]. *)
Definition demo_salt : list byte := map demo_entropy (seq 0 16).
Definition demo_iv : list byte := map demo_entropy (seq 16 16).
Definition project_holding (text : jsstring) : world :=
  mkWorld {[ js "ENV_CRYPTO_KEY" := demo_key ]} (path.abs_path project_dir)
          {[ js "/home/user/project/.env.encrypted" := text ]} ∅ demo_entropy 0 [] [].

(** The container of [demo_text] under the small instance. *)
Definition sealed_world : world :=
  project_holding
    (container_of demo_salt demo_iv
       (ciphertext (H := toy.crypto) demo_key demo_text demo_salt demo_iv)
       (auth_tag (H := toy.crypto) demo_key demo_text demo_salt demo_iv)).








(** A file that is not JSON, and a JSON object without [salt]. *)
Definition malformed_world : world := project_holding (js "This is not valid JSON").
Definition no_salt_members : list (jsstring * jsstring) :=
  [(js "iv", js "test"); (js "content", js "test"); (js "authTag", js "test")].
Definition no_salt_world : world := project_holding (JSON_stringify no_salt_members).

(** The parser's edge cases. *)
Definition edge_case_text : jsstring :=
  js "DB_HOST=" ++ [dquote] ++ js "localhost" ++ [dquote; 10]
  ++ js "API_KEY='k'" ++ [10]
  ++ js "EMPTY=" ++ [dquote; dquote; 10]
  ++ js "BAD LINE" ++ [10]
  ++ js "=NOKEY" ++ [10]
  ++ js "OK=" ++ [10].

(** A run that fails with [INVALID_PATH] having done nothing the trace
    records: no file read, no random draw, no key derived, no cipher made. *)
Definition fails_before_reading (w : world) (r : outcome unit * world) : Prop :=
  r.1 = Throw invalid_path /\ trace r.2 = trace w.

(** ** The loader of [src/env-loader.ts] *)

Definition is_minus (c : N) : bool := c =? 45.
Definition is_dot (c : N) : bool := c =? 46.

(** [/^-?\d+(\.\d+)?$/] *)
Definition numeric_regex : regex :=
  Re_seq Re_bol
 (Re_seq (Re_opt (Re_class is_minus))
 (Re_seq (Re_plus (Re_class is_digit))
 (Re_seq (Re_opt (Re_group 1 (Re_seq (Re_class is_dot)
                                     (Re_plus (Re_class is_digit)))))
         Re_eol))).

(** [re.test(s)] *)
Definition re_test (r : regex) (s : jsstring) : bool :=
  match re_exec r s with Some _ => true | None => false end.

(** A number other than [NaN], as the run time holds it: a double, which
    is a zero (the mantissa is 0), or [mantissa * 2 ^ exponent] with an odd
    mantissa below [2 ^ 53] and an exponent from -1074 on, below [2 ^ 1024],
    or an infinity; each with its sign. *)
Inductive js_number : Type :=
  | Finite (negative : bool) (mantissa : N) (exponent : Z)
  | Infinity (negative : bool).

(** [n / d] rounded to the nearest integer, a tie to the even one. *)
Definition round_half_even (n d : N) : N :=
  let q := n / d in
  let r := n mod d in
  if 2 * r <? d then q
  else if d <? 2 * r then q + 1
  else if N.even q then q else q + 1.

(** [n / d / 2 ^ e], as a numerator and a denominator. *)
Definition scaled (n d : N) (e : Z) : N * N :=
  if (0 <=? e)%Z then (n, d * 2 ^ Z.to_N e) else (n * 2 ^ Z.to_N (- e), d).

(** The exponent of the last bit a double keeps of [n / d], neither being
    zero: 52 below that of the leading bit of [n / d], and -1074 at
    least. The leading bit is at [l] or at [l - 1]. *)
Definition last_bit (n d : N) : Z :=
  let l := (Z.of_N (N.log2 n) - Z.of_N (N.log2 d))%Z in
  let '(a, b) := scaled n d l in
  Z.max ((if b <=? a then l else l - 1) - 52) (-1074).

(** [m * 2 ^ e] with the factors 2 of [m] moved into the exponent. *)
Fixpoint odd_part (fuel : nat) (m : N) (e : Z) : N * Z :=
  match fuel with
  | S fuel' => if N.even m then odd_part fuel' (m / 2) (e + 1) else (m, e)
  | O => (m, e)
  end.

(** The double nearest to [n / d], [d] not zero, a tie going to the even
    mantissa of 53 bits; from [2 ^ 1024 - 2 ^ 970] on it is an infinity. *)
Definition nearest_double (negative : bool) (n d : N) : js_number :=
  if n =? 0 then Finite negative 0 0
  else
    let e := last_bit n d in
    let '(a, b) := scaled n d e in
    let m := round_half_even a b in
    if m =? 0 then Finite negative 0 0
    else
      let '(m', e') := odd_part 53 m e in
      if (1023 <? Z.of_N (N.log2 m') + e')%Z then Infinity negative
      else Finite negative m' e'.

(** [Number(value)] for a [value] that [numeric_regex] matches: the double
    nearest to the decimal the digits denote. *)
Definition Number (value : jsstring) : js_number :=
  let '(neg, s1) := match value with
                    | 45 :: r => (true, r)
                    | _ => (false, value)
                    end in
  let '(ids, s2) := take_digits s1 in
  let fds := match s2 with
             | 46 :: r => (take_digits r).1
             | _ => []
             end in
  nearest_double neg (digits_value (ids ++ fds)) (10 ^ N.of_nat (length fds)).

Fixpoint trimStart (s : jsstring) : jsstring :=
  match s with
  | c :: r => if is_space c then trimStart r else s
  | [] => []
  end.

(** [s.trim()] *)
Definition trim (s : jsstring) : jsstring := rev (trimStart (rev (trimStart s))).

(** What [processEnvValue] returns: a string, a number or an array of
    strings. *)
Inductive env_value : Type :=
  | V_string (s : jsstring)
  | V_number (n : js_number)
  | V_array (items : list jsstring).

Definition comma : N := 44.

(** [processEnvValue] *)
Definition processEnvValue (value : jsstring) : env_value :=
  if re_test numeric_regex value then V_number (Number value)
  else if bool_decide (comma ∈ value)
       then V_array (map trim (split_on comma value))
       else V_string value.

(** [ToBoolean] of such a value. *)
Definition value_truthy (v : env_value) : bool :=
  match v with
  | V_string s => negb (jsstring_eqb s [])
  | V_number (Finite _ 0 _) => false
  | V_number _ => true
  | V_array _ => true
  end.

(** [!!env[key]], for the own properties [o] of [env]. *)
Definition has_truthy (o : gmap jsstring env_value) (key : jsstring) : bool :=
  match o !! key with
  | Some v => value_truthy v
  | None => bool_decide (key ∈ Object_prototype_properties)
  end.

(** [JSON.stringify] of an array of strings. *)
Definition JSON_stringify_array (items : list jsstring) : jsstring :=
  js "[" ++ join_with (js ",") (map JSON_quote items) ++ js "]".

Definition with_env (e : gmap jsstring jsstring) (w : world) : world :=
  mkWorld e (process_cwd w) (fs_files w) (fs_denied w)
          (entropy w) (entropy_pos w) (heap w) (trace w).

(** The variables of the module: the object [env] (its own properties) and
    [isInitialized]. *)
Record loader : Type := mkLoader {
  env : gmap jsstring env_value;
  isInitialized : bool
}.

(** How a call of [initEnv] ends: it returns [env], or throws the [Error]
    it builds around the error it caught. *)
Inductive load_result : Type :=
  | Loaded (env : gmap jsstring env_value)
  | Load_failed (message : jsstring) (cause : js_error).

(** The body of the [forEach] over the decrypted entries: the own
    properties of [env] and the world, before and after. *)
Definition initEnv_entry (st : gmap jsstring env_value * world)
    (entry : jsstring * jsstring) : gmap jsstring env_value * world :=
  let '(key, value) := entry in
  if has_truthy st.1 key then st
  else
    match processEnvValue value with
    | V_array items =>
        (<[key := V_array items]> st.1,
         with_env (<[key := JSON_stringify_array items]> (process_env st.2)) st.2)
    | processedValue => (<[key := processedValue]> st.1, st.2)
    end.

Section loader.
Context `{Crypto}.

(** [Object.entries(o)]: the own properties of [o], in the order in which
    the run time lists them. *)
Variable Object_entries : gmap jsstring jsstring -> list (jsstring * jsstring).

(** [initEnv] *)
Definition initEnv (sourcePath keyEnvVar : jsstring) (l : loader) (w : world)
  : load_result * loader * world :=
  if isInitialized l then (Loaded (env l), l, w)
  else
    match decryptEnvFile sourcePath keyEnvVar w with
    | (Return envVars, w1) =>
        let '(o, w2) := foldl initEnv_entry (env l, w1) (Object_entries envVars) in
        let w3 := (console_log (js "Decrypted environment variables loaded") w2).2 in
        (Loaded o, mkLoader o true, w3)
    | (Throw error, w1) =>
        (Load_failed (js "Failed to load encrypted environment variables") error,
         l, w1)
    end.

End loader.

(** [resetEnv] *)
Definition resetEnv (l : loader) : loader := mkLoader ∅ false.

(** ** The command line of [cli/env-crypto.ts] *)

Definition DEFAULT_KEY : jsstring := js "ENV_CRYPTO_KEY".

(** [[\s,;]] *)
Definition is_space_comma_semicolon (c : N) : bool :=
  is_space c || (c =? 44) || (c =? 59).

(** [/[\s,;]/.test(value)] *)
Definition needsQuotes (value : jsstring) : bool :=
  re_test (Re_class is_space_comma_semicolon) value.

(** One line of the file the [decrypt] command writes. *)
Definition env_entry_line (entry : jsstring * jsstring) : jsstring :=
  let '(key, value) := entry in
  if needsQuotes value
  then key ++ [61; dquote] ++ value ++ [dquote]
  else key ++ [61] ++ value.

(** [envContent], from the entries of [vars]. *)
Definition envContent (entries : list (jsstring * jsstring)) : jsstring :=
  join_with [10] (map env_entry_line entries) ++ [10].

(** [args[i] || fallback] *)
Definition arg_or (arg : option jsstring) (fallback : jsstring) : jsstring :=
  match arg with
  | Some (c :: r) => c :: r
  | _ => fallback
  end.

(** The mode of a file [writeFileSync] creates when none is given. *)
Definition mode_default : N := 6 * 64 + 6 * 8 + 6.

Definition usage : jsstring :=
  [10] ++ js "Usage:" ++ [10]
  ++ js "  env-crypto encrypt [sourcePath] [outputPath] [keyEnvVar]" ++ [10]
  ++ js "  env-crypto decrypt [sourcePath] [outputPath] [keyEnvVar]" ++ [10]
  ++ js "    ".

(** What the script itself sends to the console: [console.log] of a
    string, [console.log] of a label and the keys, and [console.error] of
    the cross mark followed by the message of an [EnvCryptoError] or by
    [Error: ] and any other error. *)
Inductive console_line : Type :=
  | Log (text : jsstring)
  | Log_keys (label : jsstring) (keys : list jsstring)
  | Error_message (text : jsstring)
  | Error_other (error : js_error).

Definition cross_mark : N := 0x274C.

(** The [catch] block: the line printed before [process.exit(1)]. *)
Definition report (error : js_error) : console_line :=
  match error with
  | EnvCryptoError message _ => Error_message ([cross_mark; 32] ++ message)
  | _ => Error_other error
  end.

(** A run of the script: the world it leaves, what it printed, and the
    code given to [process.exit], if it was called. *)
Record cli_run : Type := mkRun {
  run_world : world;
  run_console : list console_line;
  run_exit : option N
}.

Section command_line.
Context `{Crypto}.

(** [Object.entries(o)]: the own properties of [o], in the order in which
    the run time lists them; [Object.keys(o)] lists the keys in the same
    order. *)
Variable Object_entries : gmap jsstring jsstring -> list (jsstring * jsstring).

(** The script, [argv] being [process.argv]. *)
Definition cli_main (argv : list jsstring) (w : world) : cli_run :=
  let args := drop 2 argv in
  let command := args !! 0%nat in
  if bool_decide (command = Some (js "encrypt")) then
    let sourcePath := arg_or (args !! 1%nat) (js ".env") in
    let outputPath := arg_or (args !! 2%nat) (js ".env.encrypted") in
    let keyEnvVar := arg_or (args !! 3%nat) DEFAULT_KEY in
    match encryptEnvFile sourcePath outputPath keyEnvVar w with
    | (Return _, w1) => mkRun w1 [] None
    | (Throw error, w1) => mkRun w1 [report error] (Some 1)
    end
  else if bool_decide (command = Some (js "decrypt")) then
    let sourcePath := arg_or (args !! 1%nat) (js ".env.encrypted") in
    let outputPath := arg_or (args !! 2%nat) (js ".env") in
    let keyEnvVar := arg_or (args !! 3%nat) DEFAULT_KEY in
    match decryptEnvFile sourcePath keyEnvVar w with
    | (Return vars, w1) =>
        let shown := [Log_keys (js "Decrypted variables:")
                               (Object_entries vars).*1] in
        if negb (jsstring_eqb outputPath []) then
          match writeFileSync
                  (path.resolve (process_cwd w1) [process_cwd w1; outputPath])
                  (envContent (Object_entries vars)) mode_default w1 with
          | (Return _, w2) =>
              mkRun w2
                (shown ++ [Log (js "Decrypted environment saved to " ++ outputPath)])
                None
          | (Throw error, w2) => mkRun w2 (shown ++ [report error]) (Some 1)
          end
        else mkRun w1 shown None
    | (Throw error, w1) => mkRun w1 [report error] (Some 1)
    end
  else mkRun w [Log usage] None.

End command_line.

(** ** Further notions used in the statements *)

(** What holds of every record the parser stores: the key is made of key
    characters and is not [__proto__], the value has no line terminator. *)
Definition parsed_record (key value : jsstring) : Prop :=
  key <> [] /\ forallb is_key_char key = true /\ key <> js "__proto__"
  /\ forallb is_any value = true.

(** A decimal literal as [processEnvValue] takes it for a number: a minus
    sign if [negative], the digits [ids], and the point followed by the
    digits [fds] unless [fds] is empty. *)
Definition decimal_literal (negative : bool) (ids fds : jsstring) (value : jsstring)
  : Prop :=
  value = (if negative then [45] else []) ++ ids
          ++ (match fds with [] => [] | _ => 46 :: fds end)
  /\ ids <> [] /\ forallb is_digit ids = true /\ forallb is_digit fds = true.

(** ** Worlds and inputs for the further examples *)

(** The loader before any call. *)
Definition fresh_loader : loader := mkLoader ∅ false.

(** [env-crypto decrypt .env.encrypted ../leak.env] *)
Definition leak_argv : list jsstring :=
  [js "node"; js "env-crypto"; js "decrypt"; js ".env.encrypted";
   js "../leak.env"].

(** A container whose [salt] is the empty string. *)
Definition empty_salt_world : world :=
  project_holding
    (JSON_stringify [(js "salt", []); (js "iv", js "00"); (js "content", js "00");
                     (js "authTag", js "00")]).

(** The container of [sealed_world] without [version], its fields in
    another order, with a member more. *)
Definition bare_container : jsstring :=
  JSON_stringify
    [(js "authTag",
      toString_hex (auth_tag (H := toy.crypto) demo_key demo_text demo_salt demo_iv));
     (js "note", js "no version here");
     (js "content",
      toString_hex (ciphertext (H := toy.crypto) demo_key demo_text demo_salt
                               demo_iv));
     (js "iv", toString_hex demo_iv);
     (js "salt", toString_hex demo_salt)].

(** * Properties *)

(** ** Paths *)

Module path_facts.
Import path.

Lemma split_on_app c a b :
  c ∉ a → split_on c (a ++ c :: b) = a :: split_on c b.
Proof.
  induction a as [|x a IH]; intros Hc; simpl.
  - by rewrite N.eqb_refl.
  - destruct (N.eqb_spec x c) as [->|Hne].
    + exfalso. apply Hc. left.
    + rewrite IH; [done|]. intros ?. apply Hc. by right.
Qed.

Lemma split_on_clean c a : c ∉ a → split_on c a = [a].
Proof.
  induction a as [|x a IH]; intros Hc; simpl; [done|].
  destruct (N.eqb_spec x c) as [->|Hne].
  - exfalso. apply Hc. left.
  - rewrite IH; [done|]. intros ?. apply Hc. by right.
Qed.

Lemma split_on_no_sep c s : Forall (fun p => c ∉ p) (split_on c s).
Proof.
  induction s as [|x s IH]; simpl.
  - repeat constructor. inversion 1.
  - destruct (N.eqb_spec x c) as [->|Hne].
    + constructor; [inversion 1|done].
    + destruct (split_on c s) as [|h t].
      * repeat constructor. intros Hin.
        apply list_elem_of_singleton in Hin. congruence.
      * inversion IH as [|? ? Hh Ht]; subst. constructor; [|done].
        intros Hin. apply elem_of_cons in Hin as [?|?]; [congruence|done].
Qed.

Lemma split_on_nonempty c s : split_on c s ≠ [].
Proof.
  destruct s as [|x s]; simpl; [done|].
  destruct (x =? c); [done|]. by destruct (split_on c s).
Qed.

Lemma split_on_app_gen c a b :
  split_on c (a ++ c :: b) = split_on c a ++ split_on c b.
Proof.
  induction a as [|x a IH]; simpl.
  - by rewrite N.eqb_refl.
  - destruct (N.eqb_spec x c) as [->|Hne].
    + by rewrite IH.
    + rewrite IH. pose proof (split_on_nonempty c a) as H.
      by destruct (split_on c a).
Qed.

Lemma split_join segs :
  segs ≠ [] → Forall (fun p => slash ∉ p) segs →
  split_on slash (join_with sep segs) = segs.
Proof.
  induction segs as [|s segs IH]; intros Hne Hall; [done|].
  inversion Hall as [|? ? Hs Hrest]; subst.
  destruct segs as [|s' segs].
  - simpl. by apply split_on_clean.
  - change (join_with sep (s :: s' :: segs))
      with (s ++ slash :: join_with sep (s' :: segs)).
    rewrite split_on_app by done. f_equal. by apply IH.
Qed.

Lemma clean_seg_keep s : clean_seg s →
  jsstring_eqb s [] = false ∧ jsstring_eqb s dot = false
  ∧ jsstring_eqb s dotdot = false.
Proof.
  intros (H1 & H2 & H3 & _). unfold jsstring_eqb.
  by rewrite !bool_decide_eq_false.
Qed.

Lemma normalize_clean above acc segs :
  Forall clean_seg segs → normalize_segs above acc segs = rev acc ++ segs.
Proof.
  revert acc. induction segs as [|s segs IH]; intros acc Hall; simpl.
  - by rewrite app_nil_r.
  - inversion Hall as [|? ? Hs Hrest]; subst.
    destruct (clean_seg_keep s Hs) as (-> & -> & ->). simpl.
    rewrite IH by done. simpl. by rewrite <- app_assoc.
Qed.

Lemma normalize_app above acc l1 l2 :
  normalize_segs above acc (l1 ++ l2)
  = normalize_segs above (rev (normalize_segs above acc l1)) l2.
Proof.
  revert acc. induction l1 as [|s l1 IH]; intros acc; simpl.
  - by rewrite rev_involutive.
  - repeat (case_match; try done).
Qed.

(** What [normalize_segs] returns is clean when its stack is. *)
Lemma normalize_is_clean acc segs :
  Forall clean_seg acc → Forall (fun p => slash ∉ p) segs →
  Forall clean_seg (normalize_segs false acc segs).
Proof.
  revert acc. induction segs as [|s segs IH]; intros acc Hacc Hall; simpl.
  - by apply Forall_rev.
  - inversion Hall as [|? ? Hs Hrest]; subst.
    unfold jsstring_eqb.
    repeat case_bool_decide; simpl; try (by apply IH).
    + destruct acc as [|top acc']; [by apply IH|].
      inversion Hacc as [|? ? Htop Hacc']; subst.
      case_bool_decide; [|by apply IH].
      subst top. by destruct Htop as (_ & _ & ? & _).
    + apply IH; [|done]. constructor; [|done]. done.
Qed.

Lemma segments_abs_path segs :
  Forall clean_seg segs → segments (abs_path segs) = segs.
Proof.
  intros Hall. unfold segments, abs_path.
  change (sep ++ join_with sep segs) with ([] ++ slash :: join_with sep segs).
  rewrite split_on_app by apply not_elem_of_nil.
  destruct segs as [|s segs]; [done|].
  rewrite split_join; [|done|].
  - change (normalize_segs false [] ([] :: s :: segs))
      with (normalize_segs false [] (s :: segs)).
    by rewrite normalize_clean.
  - eapply Forall_impl; [exact Hall|]. by intros ? (_ & _ & _ & ?).
Qed.

Lemma normalize_trailing acc p :
  normalize_segs false acc (split_on slash (p ++ sep ++ []))
  = normalize_segs false acc (split_on slash p).
Proof.
  change (p ++ sep ++ []) with (p ++ slash :: []).
  rewrite split_on_app_gen, normalize_app. simpl.
  change (jsstring_eqb [] [] || jsstring_eqb [] dot) with true. simpl.
  by rewrite rev_involutive.
Qed.

Lemma abs_path_isAbsolute segs : isAbsolute (abs_path segs) = true.
Proof. done. Qed.

Lemma resolve_loop_abs x r acc :
  isAbsolute x = true → resolve_loop (x :: r) acc = (x ++ sep ++ acc, true).
Proof. destruct x; [done|]. intros H. cbn [resolve_loop]. by rewrite H. Qed.

Lemma resolve_loop_rel x r acc :
  x ≠ [] → isAbsolute x = false →
  resolve_loop (x :: r) acc = resolve_loop r (x ++ sep ++ acc).
Proof. destruct x; [done|]. intros _ H. cbn [resolve_loop]. by rewrite H. Qed.

Lemma resolve_two cs filePath :
  Forall clean_seg cs →
  resolve (abs_path cs) [abs_path cs; filePath]
  = abs_path (resolved_segs cs filePath).
Proof.
  intros Hcs. unfold resolve, resolved_segs.
  pose proof (abs_path_isAbsolute cs) as Ha.
  change (rev [abs_path cs; filePath] ++ [abs_path cs])
    with [filePath; abs_path cs; abs_path cs].
  destruct filePath as [|c q].
  - change (resolve_loop [[]; abs_path cs; abs_path cs] [])
      with (resolve_loop [abs_path cs; abs_path cs] []).
    rewrite resolve_loop_abs by done.
    unfold normalizeString. rewrite normalize_trailing.
    fold (segments (abs_path cs)). rewrite segments_abs_path by done.
    cbn [isAbsolute split_on].
    change (normalize_segs false (rev cs) [[]]) with (rev (rev cs)).
    by rewrite rev_involutive.
  - destruct (isAbsolute (c :: q)) eqn:Habs.
    + rewrite resolve_loop_abs by done.
      unfold normalizeString. by rewrite normalize_trailing.
    + rewrite resolve_loop_rel, resolve_loop_abs by done.
      unfold normalizeString. simpl negb.
      change ((abs_path cs) ++ sep ++ (c :: q) ++ sep ++ [])
        with ((abs_path cs) ++ slash :: ((c :: q) ++ sep ++ [])).
      rewrite split_on_app_gen, normalize_app.
      fold (segments (abs_path cs)). rewrite segments_abs_path by done.
      by rewrite normalize_trailing.
Qed.

Lemma resolve_one here s :
  Forall clean_seg s → resolve here [abs_path s] = abs_path s.
Proof.
  intros Hs. unfold resolve.
  change (rev [abs_path s] ++ [here]) with [abs_path s; here].
  rewrite resolve_loop_abs by done.
  unfold normalizeString. rewrite normalize_trailing.
  fold (segments (abs_path s)). by rewrite segments_abs_path.
Qed.

Lemma resolved_segs_clean cs filePath :
  Forall clean_seg cs → Forall clean_seg (resolved_segs cs filePath).
Proof.
  intros Hcs. apply normalize_is_clean.
  - destruct (isAbsolute filePath); [constructor|by apply Forall_rev].
  - apply split_on_no_sep.
Qed.

Lemma strip_common_app a d : strip_common a (a ++ d) = ([], d).
Proof.
  induction a as [|x a IH]; simpl; [by destruct d|].
  unfold jsstring_eqb. by rewrite bool_decide_eq_true_2.
Qed.

Lemma strip_common_prefix a b :
  (strip_common a b).1 = [] → a `prefix_of` b.
Proof.
  revert b. induction a as [|x a IH]; intros b; simpl.
  - intros _. by exists b.
  - destruct b as [|y b]; [done|]. unfold jsstring_eqb.
    case_bool_decide; [|done]. subst y. intros H.
    destruct (IH b H) as [k ->]. by exists k.
Qed.

Lemma startsWith_app s t : startsWith (s ++ t) s = true.
Proof. induction s as [|c s IH]; simpl; [done|]. rewrite N.eqb_refl. exact IH. Qed.

Lemma join_dotdot_first rest :
  startsWith (join_with sep (dotdot :: rest)) (js "..") = true.
Proof. by destruct rest. Qed.

(** [validatePath], the working directory being a normalized absolute
    path. *)
Lemma validatePath_unfold w cs filePath :
  process_cwd w = abs_path cs → Forall clean_seg cs →
  validatePath filePath w =
    let rs := resolved_segs cs filePath in
    let '(up, down) := strip_common cs rs in
    let relative := join_with sep (replicate (length up) dotdot ++ down) in
    if startsWith relative (js "..")
       || (isAbsolute filePath
           && negb (startsWith (abs_path rs) (abs_path cs ++ sep)))
    then (Throw (EnvCryptoError
                   (js "Invalid file path: outside working directory")
                   (js "INVALID_PATH")), w)
    else (Return (abs_path rs), w).
Proof.
  intros Hw Hcs. unfold validatePath, mbind, M_bind, bind, get_cwd.
  rewrite Hw, resolve_two, (resolve_one _ cs) by done.
  unfold relative.
  rewrite (resolve_one _ cs), resolve_one by (done || by apply resolved_segs_clean).
  rewrite !segments_abs_path by (done || by apply resolved_segs_clean).
  cbv zeta. destruct (strip_common cs (resolved_segs cs filePath)) as [up down].
  by case_match.
Qed.

End path_facts.

(** ** The path validator *)

Section validatePath_properties.
Import path path_facts.

Lemma project_dir_clean : Forall clean_seg project_dir.
Proof. repeat constructor; compute_done. Qed.

Variable w : world.
Variable cs : list jsstring.
Hypothesis Hcwd : process_cwd w = abs_path cs.
Hypothesis Hcs : Forall clean_seg cs.

Lemma validatePath_outside filePath :
  ¬ cs `prefix_of` resolved_segs cs filePath →
  validatePath filePath w = (Throw invalid_path, w).
Proof.
  intros Hout. rewrite (validatePath_unfold w cs) by done. cbv zeta.
  destruct (strip_common cs (resolved_segs cs filePath)) as [up down] eqn:Hs.
  destruct up as [|u up].
  - exfalso. apply Hout, strip_common_prefix. by rewrite Hs.
  - change (replicate (length (u :: up)) dotdot ++ down)
      with (dotdot :: (replicate (length up) dotdot ++ down)).
    by rewrite join_dotdot_first.
Qed.

Lemma validatePath_inside filePath d :
  isAbsolute filePath = false →
  resolved_segs cs filePath = cs ++ d →
  startsWith (join_with sep d) (js "..") = false →
  validatePath filePath w = (Return (abs_path (cs ++ d)), w).
Proof.
  intros Hrel Hres Hd. rewrite (validatePath_unfold w cs) by done. cbv zeta.
  rewrite Hres, strip_common_app. cbn [length replicate app].
  by rewrite Hd, Hrel.
Qed.

Lemma resolved_segs_relative_clean filePath :
  isAbsolute filePath = false →
  Forall clean_seg (split_on slash filePath) →
  resolved_segs cs filePath = cs ++ split_on slash filePath.
Proof.
  intros Hrel Hclean. unfold resolved_segs. rewrite Hrel.
  by rewrite normalize_clean, rev_involutive.
Qed.

(** A name that begins with two dots and is not [..] itself is rejected,
    though it resolves to an entry of the working directory. *)
Lemma validatePath_dotdot_name rest :
  rest ≠ [] → slash ∉ rest →
  resolved_segs cs (dotdot ++ rest) = cs ++ [dotdot ++ rest]
  ∧ validatePath (dotdot ++ rest) w = (Throw invalid_path, w).
Proof.
  intros Hne Hns.
  assert (Hsplit : split_on slash (dotdot ++ rest) = [dotdot ++ rest]).
  { apply split_on_clean. intros Hin.
    apply elem_of_app in Hin as [Hin|Hin]; [|done].
    revert Hin. compute_done. }
  assert (Hres : resolved_segs cs (dotdot ++ rest) = cs ++ [dotdot ++ rest]).
  { rewrite resolved_segs_relative_clean; rewrite ?Hsplit; [done|done|].
    repeat constructor; try done.
    - intros Heq. by destruct rest.
    - intros Hin. apply elem_of_app in Hin as [Hin|Hin]; [|done].
      revert Hin. compute_done. }
  split; [done|].
  rewrite (validatePath_unfold w cs) by done. cbv zeta.
  rewrite Hres, strip_common_app. cbn [length replicate app join_with].
  change (js "..") with dotdot. by rewrite startsWith_app.
Qed.

End validatePath_properties.

Lemma validatePath_by_relative (w : world) (filePath : jsstring) :
  let here := process_cwd w in
  startsWith (path.relative here (path.resolve here [here])
                (path.resolve here [here; filePath])) (js "..") = true →
  validatePath filePath w = (Throw invalid_path, w).
Proof.
  cbv zeta. intros H. unfold validatePath, mbind, M_bind, bind, get_cwd.
  by rewrite H.
Qed.

(** C4, as the code has it. Every input that resolves outside the working
    directory is rejected with [INVALID_PATH]: parent traversal, the
    backslash form, an absolute path out of the tree. A relative path that
    resolves inside the working directory is accepted, and the resolved
    absolute path returned, unless what it has below the working directory
    begins with the two characters [..]; so [.env] and [./subdir/.env] are
    accepted. The working directory is any normalized absolute path
    [abs_path cs]. *)
Theorem validatePath_path_safety (w : world) (cs : list jsstring) :
  process_cwd w = path.abs_path cs → Forall path.clean_seg cs →
  let here := process_cwd w in
  (∀ filePath,
      ¬ path.segments (path.resolve here [here])
          `prefix_of` path.segments (path.resolve here [here; filePath]) →
      validatePath filePath w = (Throw invalid_path, w))
  ∧ (∀ filePath below,
      path.isAbsolute filePath = false →
      path.segments (path.resolve here [here; filePath]) = cs ++ below →
      startsWith (join_with path.sep below) (js "..") = false →
      validatePath filePath w = (Return (path.resolve here [here; filePath]), w))
  ∧ (¬ cs `prefix_of` path.segments
                        (path.resolve here [here; js "../../etc/passwd"]) →
     validatePath (js "../../etc/passwd") w = (Throw invalid_path, w))
  ∧ validatePath (js "..\..\windows\system32") w = (Throw invalid_path, w)
  ∧ (cs ≠ [js "etc"] →
     validatePath (js "/etc/passwd") w = (Throw invalid_path, w))
  ∧ (validatePath (js ".env") w
     = (Return (path.resolve here [here; js ".env"]), w)
     ∧ path.resolve here [here; js ".env"] = path.abs_path (cs ++ [js ".env"]))
  ∧ (validatePath (js "./subdir/.env") w
     = (Return (path.resolve here [here; js "./subdir/.env"]), w)
     ∧ path.resolve here [here; js "./subdir/.env"]
       = path.abs_path (cs ++ [js "subdir"; js ".env"])).
Proof.
  intros Hw Hcs here. subst here. rewrite Hw.
  assert (Hout : ∀ filePath,
    ¬ path.segments (path.resolve (path.abs_path cs) [path.abs_path cs])
        `prefix_of` path.segments
          (path.resolve (path.abs_path cs) [path.abs_path cs; filePath]) →
    validatePath filePath w = (Throw invalid_path, w)).
  { intros filePath. rewrite path_facts.resolve_one, path_facts.resolve_two by done.
    rewrite !path_facts.segments_abs_path
      by (done || by apply path_facts.resolved_segs_clean).
    by apply (validatePath_outside w cs Hw Hcs). }
  split; [exact Hout|]. split.
  { intros filePath below Hrel. rewrite path_facts.resolve_two by done.
    rewrite path_facts.segments_abs_path by (by apply path_facts.resolved_segs_clean).
    intros Hres Hb. rewrite Hres.
    by apply (validatePath_inside w cs Hw Hcs filePath below). }
  split.
  { intros H. apply Hout. by rewrite path_facts.resolve_one,
      path_facts.segments_abs_path. }
  split.
  { apply (validatePath_dotdot_name w cs Hw Hcs (js "\..\windows\system32"));
      compute_done. }
  split.
  { intros Hne. destruct (decide (cs `prefix_of` [js "etc"; js "passwd"]))
      as [[k Hk]|Hno].
    - rewrite (path_facts.validatePath_unfold w cs) by done.
      destruct cs as [|x [|y [|z cs']]]; simplify_eq/=; done.
    - by apply (validatePath_outside w cs Hw Hcs). }
  split.
  - rewrite path_facts.resolve_two by done.
    rewrite (resolved_segs_relative_clean cs (js ".env"));
      [|done|repeat constructor; compute_done].
    split; [|done].
    apply (validatePath_inside w cs Hw Hcs (js ".env") [js ".env"]); [done| |done].
    apply (resolved_segs_relative_clean cs (js ".env"));
      [done|repeat constructor; compute_done].
  - rewrite path_facts.resolve_two by done.
    assert (Hres : path.resolved_segs cs (js "./subdir/.env")
                   = cs ++ [js "subdir"; js ".env"]).
    { unfold path.resolved_segs.
      change (path.normalize_segs false (rev cs) [js "subdir"; js ".env"]
              = cs ++ [js "subdir"; js ".env"]).
      rewrite path_facts.normalize_clean, rev_involutive;
        [done|repeat constructor; compute_done]. }
    rewrite Hres. split; [|done].
    by apply (validatePath_inside w cs Hw Hcs (js "./subdir/.env")).
Qed.

Lemma validatePath_path_safety_witness :
  process_cwd empty_world = path.abs_path project_dir
  ∧ Forall path.clean_seg project_dir
  ∧ validatePath (js "../../etc/passwd") empty_world
    = (Throw invalid_path, empty_world)
  ∧ validatePath (js "/etc/passwd") empty_world
    = (Throw invalid_path, empty_world)
  ∧ validatePath (js ".env") empty_world
    = (Return (js "/home/user/project/.env"), empty_world)
  ∧ validatePath (js "config/../.env.local") empty_world
    = (Return (js "/home/user/project/.env.local"), empty_world).
Proof.
  pose proof (validatePath_path_safety empty_world project_dir eq_refl
                project_dir_clean) as (_ & H0 & H1 & _ & H2 & (H3 & _) & _).
  split; [reflexivity|]. split; [exact project_dir_clean|].
  split; [apply H1; compute_done|]. split; [apply H2; compute_done|].
  split; [exact H3|].
  apply (H0 (js "config/../.env.local") [js ".env.local"]); reflexivity.
Defined.

(** C4, as stated, fails: [..hidden] is a relative path, it resolves to an
    entry of the working directory, and it is rejected. *)
Lemma relative_path_inside_rejected :
  let here := process_cwd empty_world in
  here = js "/home/user/project"
  ∧ path.isAbsolute (js "..hidden") = false
  ∧ path.resolve here [here; js "..hidden"] = js "/home/user/project/..hidden"
  ∧ path.segments (path.resolve here [here; js "..hidden"])
    = path.segments here ++ [js "..hidden"]
  ∧ validatePath (js "..hidden") empty_world = (Throw invalid_path, empty_world).
Proof. cbv zeta. repeat split; vm_compute; reflexivity. Qed.


(** C10. Membership in the tree is decided on the string form of the
    relative path: whatever begins with [..] is rejected, and so is a name
    such as [..hidden], which resolves to an entry of the working
    directory. *)
Theorem validatePath_rejects_dotdot_names (w : world) (cs : list jsstring) :
  process_cwd w = path.abs_path cs → Forall path.clean_seg cs →
  let here := process_cwd w in
  (∀ filePath,
      startsWith (path.relative here (path.resolve here [here])
                    (path.resolve here [here; filePath])) (js "..") = true →
      validatePath filePath w = (Throw invalid_path, w))
  ∧ (∀ rest, rest ≠ [] → path.slash ∉ rest →
       path.resolve here [here; js ".." ++ rest]
       = path.abs_path (cs ++ [js ".." ++ rest])
       ∧ validatePath (js ".." ++ rest) w = (Throw invalid_path, w))
  ∧ path.resolve here [here; js "..hidden"]
    = path.abs_path (cs ++ [js "..hidden"])
  ∧ validatePath (js "..hidden") w = (Throw invalid_path, w).
Proof.
  intros Hw Hcs here.
  assert (Hname : ∀ rest, rest ≠ [] → path.slash ∉ rest →
       path.resolve here [here; js ".." ++ rest]
       = path.abs_path (cs ++ [js ".." ++ rest])
       ∧ validatePath (js ".." ++ rest) w = (Throw invalid_path, w)).
  { intros rest Hne Hns. subst here. rewrite Hw.
    rewrite path_facts.resolve_two by done.
    change (js "..") with path.dotdot.
    destruct (validatePath_dotdot_name w cs Hw Hcs rest Hne Hns) as [-> ?].
    done. }
  split; [intros filePath; apply validatePath_by_relative|].
  split; [exact Hname|].
  apply (Hname (js "hidden")); compute_done.
Qed.

Lemma validatePath_rejects_dotdot_names_witness :
  process_cwd empty_world = path.abs_path project_dir
  ∧ Forall path.clean_seg project_dir
  ∧ path.resolve (process_cwd empty_world)
      [process_cwd empty_world; js "..hidden"]
    = js "/home/user/project/..hidden"
  ∧ validatePath (js "..hidden") empty_world
    = (Throw invalid_path, empty_world).
Proof.
  pose proof (validatePath_rejects_dotdot_names empty_world project_dir eq_refl
                project_dir_clean) as (_ & _ & H1 & H2).
  split; [reflexivity|]. split; [exact project_dir_clean|].
  split; [exact H1|exact H2].
Defined.

Example utf8_example :
  utf8_encode [0x41; 0xE9; 0x20AC; 0xD83D; 0xDE00]
  = [x41; xc3; xa9; xe2; x82; xac; xf0; x9f; x98; x80]
  /\ utf8_decode [x41; xc3; xa9; xe2; x82; xac; xf0; x9f; x98; x80; xff; xe2; x82]
    = [0x41; 0xE9; 0x20AC; 0xD83D; 0xDE00; 0xFFFD; 0xFFFD].
Proof. split; reflexivity. Qed.

Example hex_example :
  toString_hex [x00; xab; xff] = js "00abff"
  /\ from_hex (js "00ABffzz12") = [x00; xab; xff]
  /\ from_hex (js "test") = [].
Proof. repeat split; reflexivity. Qed.

Example JSON_parse_examples :
  JSON_parse (js "This is not valid JSON") = Throw json_syntax_error
  /\ JSON_parse (js " { } ") = Return (JObject [])
  /\ JSON_parse (js "[1, -2.5e3, true, null, [], {}]")
     = Return (JArray [JNumber false 1 0; JNumber true 25 2; JBool true; JNull;
                       JArray []; JObject []])
  /\ JSON_parse (js "null") = Return JNull
  /\ JSON_parse (js "{,}") = Throw json_syntax_error
  /\ JSON_parse (js "01") = Throw json_syntax_error
  /\ JSON_parse (JSON_stringify [(js "iv", js "test"); (js "content", js "a\b")])
     = Return (JObject [(js "iv", JString (js "test"));
                        (js "content", JString (js "a\b"))]).
Proof. repeat split; vm_compute; reflexivity. Qed.



(** ** Encodings and JSON *)

Lemma hex_byte_roundtrip b r :
  from_hex (hex_digit (Byte.to_N b / 16) :: hex_digit (Byte.to_N b mod 16) :: r)
  = b :: from_hex r.
Proof. destruct b; reflexivity. Qed.

Lemma from_hex_toString_hex l : from_hex (toString_hex l) = l.
Proof.
  induction l as [|b l IH]; [done|].
  cbn [toString_hex]. rewrite hex_byte_roundtrip. by rewrite IH.
Qed.


Lemma toString_hex_plain l : forallb plain_char (toString_hex l) = true.
Proof.
  induction l as [|b l IH]; [done|].
  cbn [toString_hex forallb]. rewrite IH.
  by destruct b.
Qed.

Lemma plain_char_inv c :
  plain_char c = true ->
  (c =? dquote) = false /\ (c =? backslash) = false /\ (c <? 0x20) = false
  /\ is_high_surrogate c = false /\ is_low_surrogate c = false.
Proof.
  unfold plain_char. rewrite !andb_true_iff, !negb_true_iff.
  intros ((((H1 & H2) & H3) & H4) & H5). repeat split; try done.
  apply N.ltb_ge. by apply N.leb_le.
Qed.

Lemma quote_chars_plain s : forallb plain_char s = true -> quote_chars s = s.
Proof.
  induction s as [|c s IH]; [done|]. cbn [forallb]. rewrite andb_true_iff.
  intros [Hc Hs]. destruct (plain_char_inv c Hc) as (H1 & H2 & H3 & H4 & H5).
  cbn [quote_chars]. rewrite H1, H2, H3, H4, H5.
  assert (Hlt : forall n, n < 0x20 -> (c =? n) = false).
  { intros n Hn. apply N.eqb_neq. apply N.ltb_ge in H3. lia. }
  rewrite !Hlt by done. by rewrite IH.
Qed.

Lemma parse_string_body_plain s rest :
  forallb plain_char s = true ->
  parse_string_body (s ++ dquote :: rest) = Some (s, rest).
Proof.
  induction s as [|c s IH]; [done|]. cbn [forallb]. rewrite andb_true_iff.
  intros [Hc Hs]. destruct (plain_char_inv c Hc) as (H1 & H2 & H3 & _).
  cbn [app parse_string_body]. rewrite H1, H2, H3. by rewrite IH.
Qed.

Lemma skip_ws_dquote r : skip_ws (dquote :: r) = dquote :: r.
Proof. reflexivity. Qed.

Lemma member_text_plain k v rest :
  forallb plain_char k = true -> forallb plain_char v = true ->
  (JSON_quote k ++ js ":" ++ JSON_quote v) ++ rest
  = dquote :: k ++ dquote :: 58 :: dquote :: v ++ dquote :: rest.
Proof.
  intros Hk Hv. unfold JSON_quote. rewrite !quote_chars_plain by done.
  cbn [js app]. f_equal. rewrite <- !app_assoc. cbn [app]. f_equal.
  cbn. f_equal. f_equal. by rewrite <- app_assoc.
Qed.

Lemma parse_value_string f s rest :
  forallb plain_char s = true ->
  parse_value (S f) (dquote :: s ++ dquote :: rest) = Some (JString s, rest).
Proof.
  intros Hs. cbn [parse_value]. rewrite skip_ws_dquote.
  change (dquote =? 123) with false. change (dquote =? 91) with false.
  rewrite N.eqb_refl. cbv iota.
  by rewrite parse_string_body_plain.
Qed.

Lemma parse_members_step f acc k v r :
  forallb plain_char k = true -> forallb plain_char v = true ->
  parse_members (S (S f)) acc (dquote :: k ++ dquote :: 58 :: dquote :: v ++ dquote :: r)
  = match skip_ws r with
    | 44 :: r4 => parse_members (S f) (acc ++ [(k, JString v)]) r4
    | 125 :: r4 => Some (JObject (acc ++ [(k, JString v)]), r4)
    | _ => None
    end.
Proof.
  intros Hk Hv.
  change (parse_members (S (S f)) acc ?s)
    with (match skip_ws s with
          | c :: r =>
              if c =? dquote then
                match parse_string_body r with
                | Some (k, r1) =>
                    match skip_ws r1 with
                    | 58 :: r2 =>
                        match parse_value (S f) r2 with
                        | Some (v, r3) =>
                            match skip_ws r3 with
                            | 44 :: r4 => parse_members (S f) (acc ++ [(k, v)]) r4
                            | 125 :: r4 => Some (JObject (acc ++ [(k, v)]), r4)
                            | _ => None
                            end
                        | None => None
                        end
                    | _ => None
                    end
                | None => None
                end
              else None
          | [] => None
          end).
  rewrite skip_ws_dquote, N.eqb_refl. rewrite parse_string_body_plain by done.
  change (skip_ws (58 :: ?r)) with (58 :: r). cbv iota.
  by rewrite parse_value_string.
Qed.

Lemma parse_members_plain ms : forall f acc rest,
  ms <> [] -> forallb plain_member ms = true -> (length ms < f)%nat ->
  parse_members f acc
    (join_with (js ",") (map (fun '(k, v) => JSON_quote k ++ js ":" ++ JSON_quote v) ms)
     ++ 125 :: rest)
  = Some (JObject (acc ++ map (fun '(k, v) => (k, JString v)) ms), rest).
Proof.
  induction ms as [|[k v] ms IH]; intros f acc rest Hne Hplain Hf; [done|].
  cbn [forallb] in Hplain. apply andb_true_iff in Hplain as [Hkv Hms].
  apply andb_true_iff in Hkv as [Hk Hv]. cbn [fst snd] in Hk, Hv.
  destruct f as [|[|f]]; [cbn in Hf; lia|cbn in Hf; lia|].
  destruct ms as [|m2 ms].
  - cbn [map join_with]. rewrite member_text_plain by done.
    by rewrite parse_members_step.
  - change (join_with (js ",") (map ?g ((k, v) :: m2 :: ms)))
      with (g (k, v) ++ js "," ++ join_with (js ",") (map g (m2 :: ms))).
    cbv beta iota. rewrite <- app_assoc. rewrite member_text_plain by done.
    rewrite parse_members_step by done.
    rewrite <- app_assoc.
    change (js "," ++ ?r) with (44 :: r).
    change (skip_ws (44 :: ?r)) with (44 :: r). cbv iota.
    rewrite IH; [|done|done|cbn in Hf |- *; lia].
    by rewrite <- app_assoc.
Qed.

Lemma join_with_length sep (l : list jsstring) :
  Forall (fun x => (1 <= length x)%nat) l ->
  (length l <= length (join_with sep l))%nat.
Proof.
  induction 1 as [|x l Hx Hl IH]; [done|].
  destruct l as [|y l]; [cbn; lia|].
  change (join_with sep (x :: y :: l)) with (x ++ sep ++ join_with sep (y :: l)).
  rewrite !length_app. cbn [length] in *. lia.
Qed.

Lemma stringify_length ms :
  (length ms < length (JSON_stringify ms))%nat.
Proof.
  unfold JSON_stringify. rewrite !length_app.
  change (length (js "{")) with 1%nat. change (length (js "}")) with 1%nat.
  pose proof (join_with_length (js ",")
    (map (fun '(k, v) => JSON_quote k ++ js ":" ++ JSON_quote v) ms)) as Hj.
  rewrite length_map in Hj.
  assert (length ms <= length (join_with (js ",")
    (map (fun '(k, v) => JSON_quote k ++ js ":" ++ JSON_quote v) ms)))%nat; [|lia].
  apply Hj. apply Forall_map, Forall_forall. intros [k v] _.
  unfold JSON_quote. cbn. lia.
Qed.

Lemma JSON_parse_stringify ms :
  ms <> [] -> forallb plain_member ms = true ->
  JSON_parse (JSON_stringify ms)
  = Return (JObject (map (fun '(k, v) => (k, JString v)) ms)).
Proof.
  intros Hne Hplain. unfold JSON_parse.
  pose proof (stringify_length ms) as Hlen.
  destruct (length (JSON_stringify ms)) as [|n] eqn:Hn; [lia|].
  unfold JSON_stringify in *.
  set (body := join_with _ _) in *.
  change (js "{" ++ body ++ js "}") with (123 :: (body ++ 125 :: [])) in *.
  change (parse_value (S (S n)) (123 :: ?r))
    with (match skip_ws r with
          | 125 :: r' => Some (JObject [], r')
          | _ => parse_members (S n) [] r
          end).
  assert (Hb : exists r, body ++ [125] = dquote :: r).
  { subst body. destruct ms as [|[k v] ms]; [done|].
    destruct ms; cbn; eauto. }
  destruct Hb as [r Hr]. rewrite Hr, skip_ws_dquote.
  change (match dquote :: r with 125 :: r' => ?a | _ => ?b end) with b.
  rewrite <- Hr. subst body.
  rewrite parse_members_plain; [done|done|done|lia].
Qed.

Ltac Zify.zify_post_hook ::= Z.to_euclidean_division_equations.

Lemma byte_of_N_to_N n : n < 256 -> Byte.to_N (byte_of_N n) = n.
Proof.
  intros Hn. unfold byte_of_N. destruct (Byte.of_N n) as [b|] eqn:E.
  - by apply Byte.to_of_N.
  - apply Byte.of_N_None_iff in E. lia.
Qed.

Ltac bool_cases :=
  repeat match goal with
    | |- context [?a <? ?b] => destruct (N.ltb_spec a b); try lia
    | |- context [?a <=? ?b] => destruct (N.leb_spec a b); try lia
    | |- context [?a =? ?b] => destruct (N.eqb_spec a b); try lia
    end.

Lemma decode_1 b r :
  Byte.to_N b < 0x80 -> utf8_decode (b :: r) = Byte.to_N b :: utf8_decode r.
Proof. intros H. cbn [utf8_decode]. by bool_cases. Qed.

Lemma decode_2 b0 b1 r :
  0xC2 <= Byte.to_N b0 <= 0xDF -> 0x80 <= Byte.to_N b1 <= 0xBF ->
  utf8_decode (b0 :: b1 :: r)
  = ((Byte.to_N b0 - 0xC0) * 64 + tail6 b1) :: utf8_decode r.
Proof.
  intros H0 H1.
  assert (E0 : (Byte.to_N b0 <? 0x80) = false) by (apply N.ltb_ge; lia).
  assert (E1 : (0xC2 <=? Byte.to_N b0) && (Byte.to_N b0 <=? 0xDF) = true).
  { apply andb_true_iff; split; apply N.leb_le; lia. }
  assert (E2 : in_range 0x80 0xBF b1 = true).
  { apply andb_true_iff; split; apply N.leb_le; lia. }
  cbn [utf8_decode]. by rewrite E0, E1, E2.
Qed.

Lemma decode_3 b0 b1 b2 r :
  0xE0 <= Byte.to_N b0 <= 0xEF ->
  0x80 <= Byte.to_N b1 <= 0xBF ->
  (Byte.to_N b0 = 0xE0 -> 0xA0 <= Byte.to_N b1) ->
  (Byte.to_N b0 = 0xED -> Byte.to_N b1 <= 0x9F) ->
  0x80 <= Byte.to_N b2 <= 0xBF ->
  utf8_decode (b0 :: b1 :: b2 :: r)
  = ((Byte.to_N b0 - 0xE0) * 4096 + tail6 b1 * 64 + tail6 b2) :: utf8_decode r.
Proof.
  intros H0 H1 Hlo Hhi H2.
  assert (E0 : (Byte.to_N b0 <? 0x80) = false) by (apply N.ltb_ge; lia).
  assert (E1 : (0xC2 <=? Byte.to_N b0) && (Byte.to_N b0 <=? 0xDF) = false).
  { apply andb_false_iff. right. apply N.leb_gt. lia. }
  assert (E2 : (0xE0 <=? Byte.to_N b0) && (Byte.to_N b0 <=? 0xEF) = true).
  { apply andb_true_iff; split; apply N.leb_le; lia. }
  assert (E3 : in_range (if Byte.to_N b0 =? 0xE0 then 0xA0 else 0x80)
                        (if Byte.to_N b0 =? 0xED then 0x9F else 0xBF) b1 = true).
  { apply andb_true_iff; split; apply N.leb_le; bool_cases. }
  assert (E4 : in_range 0x80 0xBF b2 = true).
  { apply andb_true_iff; split; apply N.leb_le; lia. }
  cbn [utf8_decode]. by rewrite E0, E1, E2, E3, E4.
Qed.

Lemma decode_4 b0 b1 b2 b3 r :
  0xF0 <= Byte.to_N b0 <= 0xF4 ->
  0x80 <= Byte.to_N b1 <= 0xBF ->
  (Byte.to_N b0 = 0xF0 -> 0x90 <= Byte.to_N b1) ->
  (Byte.to_N b0 = 0xF4 -> Byte.to_N b1 <= 0x8F) ->
  0x80 <= Byte.to_N b2 <= 0xBF ->
  0x80 <= Byte.to_N b3 <= 0xBF ->
  utf8_decode (b0 :: b1 :: b2 :: b3 :: r)
  = codeunits_of_codepoint
      ((Byte.to_N b0 - 0xF0) * 262144 + tail6 b1 * 4096 + tail6 b2 * 64 + tail6 b3)
    ++ utf8_decode r.
Proof.
  intros H0 H1 Hlo Hhi H2 H3.
  assert (E0 : (Byte.to_N b0 <? 0x80) = false) by (apply N.ltb_ge; lia).
  assert (E1 : (0xC2 <=? Byte.to_N b0) && (Byte.to_N b0 <=? 0xDF) = false).
  { apply andb_false_iff. right. apply N.leb_gt. lia. }
  assert (E2 : (0xE0 <=? Byte.to_N b0) && (Byte.to_N b0 <=? 0xEF) = false).
  { apply andb_false_iff. right. apply N.leb_gt. lia. }
  assert (E2' : (0xF0 <=? Byte.to_N b0) && (Byte.to_N b0 <=? 0xF4) = true).
  { apply andb_true_iff; split; apply N.leb_le; lia. }
  assert (E3 : in_range (if Byte.to_N b0 =? 0xF0 then 0x90 else 0x80)
                        (if Byte.to_N b0 =? 0xF4 then 0x8F else 0xBF) b1 = true).
  { apply andb_true_iff; split; apply N.leb_le; bool_cases. }
  assert (E4 : in_range 0x80 0xBF b2 = true).
  { apply andb_true_iff; split; apply N.leb_le; lia. }
  assert (E5 : in_range 0x80 0xBF b3 = true).
  { apply andb_true_iff; split; apply N.leb_le; lia. }
  cbn [utf8_decode]. by rewrite E0, E1, E2, E2', E3, E4, E5.
Qed.

Lemma utf8_decode_codepoint cp rest :
  (cp < 0xD800 \/ 0xE000 <= cp) -> cp < 0x110000 ->
  utf8_decode (utf8_of_codepoint cp ++ rest)
  = codeunits_of_codepoint cp ++ utf8_decode rest.
Proof.
  intros Hs Hmax. unfold utf8_of_codepoint.
  destruct (N.ltb_spec cp 0x80) as [H1|H1].
  { cbn [app]. rewrite decode_1; rewrite byte_of_N_to_N by lia; [|lia].
    unfold codeunits_of_codepoint. by bool_cases. }
  destruct (N.ltb_spec cp 0x800) as [H2|H2].
  { cbn [app]. rewrite decode_2; unfold tail6; rewrite ?byte_of_N_to_N by lia; [|lia..].
    unfold codeunits_of_codepoint. bool_cases. cbn [app]. f_equal. lia. }
  destruct (N.ltb_spec cp 0x10000) as [H3|H3].
  { cbn [app]. rewrite decode_3; unfold tail6; rewrite ?byte_of_N_to_N by lia; [|lia..].
    unfold codeunits_of_codepoint. bool_cases. cbn [app]. f_equal. lia. }
  cbn [app]. rewrite decode_4; unfold tail6; rewrite ?byte_of_N_to_N by lia; [|lia..].
  f_equal. f_equal. lia.
Qed.

Lemma utf8_roundtrip_aux n : forall s,
  (length s <= n)%nat -> well_formed s = true ->
  utf8_decode (utf8_encode s) = s.
Proof.
  induction n as [|n IH]; intros s Hlen Hwf.
  { destruct s; [done|cbn in Hlen; lia]. }
  destruct s as [|c s]; [done|].
  cbn [well_formed utf8_encode] in *.
  destruct (is_high_surrogate c) eqn:Hh.
  - destruct s as [|d s]; [done|].
    apply andb_true_iff in Hwf as [Hd Hwf]. rewrite Hd.
    unfold is_high_surrogate, is_low_surrogate in *.
    apply andb_true_iff in Hh as [Hh1 Hh2]. apply andb_true_iff in Hd as [Hd1 Hd2].
    apply N.leb_le in Hh1, Hh2, Hd1, Hd2.
    rewrite utf8_decode_codepoint by lia.
    rewrite IH; [|cbn in Hlen; lia|done].
    unfold codeunits_of_codepoint. bool_cases. cbn [app]. f_equal; [lia|]. f_equal. lia.
  - apply andb_true_iff in Hwf as [Hc Hwf]. apply andb_true_iff in Hc as [Hl Hc].
    apply negb_true_iff in Hl. rewrite Hl.
    unfold is_high_surrogate, is_low_surrogate in *.
    apply N.ltb_lt in Hc.
    assert (c < 0xD800 \/ 0xE000 <= c).
    { apply andb_false_iff in Hh, Hl. rewrite !N.leb_gt in Hh, Hl. lia. }
    rewrite utf8_decode_codepoint by lia.
    rewrite IH; [|cbn in Hlen; lia|done].
    unfold codeunits_of_codepoint. by bool_cases.
Qed.

Lemma utf8_roundtrip s : well_formed s = true -> utf8_decode (utf8_encode s) = s.
Proof. by apply (utf8_roundtrip_aux (length s)). Qed.

Lemma utf8_of_codepoint_nonempty cp : utf8_of_codepoint cp <> [].
Proof. unfold utf8_of_codepoint. by repeat case_match. Qed.

Lemma utf8_encode_nonempty s : s <> [] -> utf8_encode s <> [].
Proof.
  destruct s as [|c s]; [done|]. intros _. cbn [utf8_encode].
  repeat case_match; try done;
    intros Happ; apply app_eq_nil in Happ as [? _];
    by eapply utf8_of_codepoint_nonempty.
Qed.

(** ** Running the engine on a world *)

Lemma validatePath_eq filePath w :
  validatePath filePath w = (validate (process_cwd w) filePath, w).
Proof.
  unfold validate, validatePath, mbind, M_bind, bind, get_cwd.
  cbn [process_cwd]. by case_match.
Qed.

Lemma buffer_data_app hp L k :
  buffer_data (hp ++ L) (length hp + k) = data_at L k.
Proof.
  unfold buffer_data. rewrite lookup_app_r by lia.
  replace (length hp + k - length hp)%nat with k by lia.
  revert k. induction L as [|c L IH]; intros [|k]; simpl; done.
Qed.

Lemma alter_app_zero hp L k :
  alter zero_fill (length hp + k)%nat (hp ++ L) = hp ++ zero_at k L.
Proof.
  rewrite alter_app_r. f_equal.
  revert k. induction L as [|c L IH]; intros [|k]; simpl; try done.
  by rewrite <- IH.
Qed.

Lemma C_bind_io {A B} (m : M A) (k : A -> C B) l w :
  (io m ≫= k) (l, w)
  = match m w with
    | (Return a, w') => k a (l, w')
    | (Throw e, w') => (Throw e, (l, w'))
    end.
Proof. unfold mbind, C_bind, io. simpl. by destruct (m w) as [[]]. Qed.

Lemma C_io {A} (m : M A) l w :
  io m (l, w) = match m w with (r, w') => (r, (l, w')) end.
Proof. reflexivity. Qed.

Lemma C_bind_set_salt {B} b (k : unit -> C B) l w :
  (set_salt b ≫= k) (l, w) = k tt (mkLocals (keyBuffer l) (Some b), w).
Proof. reflexivity. Qed.

Lemma C_bind_set_keyBuffer {B} b (k : unit -> C B) l w :
  (set_keyBuffer b ≫= k) (l, w) = k tt (mkLocals (Some b) (salt l), w).
Proof. reflexivity. Qed.

Lemma C_bind_get_locals {B} (k : locals -> C B) l w :
  (get_locals ≫= k) (l, w) = k l (l, w).
Proof. reflexivity. Qed.

Lemma C_bind_lift {A B} (o : outcome A) (k : A -> C B) l w :
  (io (lift o) ≫= k) (l, w)
  = match o with
    | Return a => k a (l, w)
    | Throw e => (Throw e, (l, w))
    end.
Proof. rewrite C_bind_io. unfold lift. by destruct o. Qed.

Section operations.
Variables (e : gmap jsstring jsstring) (c : jsstring) (dn : gset jsstring)
          (en : nat -> byte).
Local Abbreviation W f p h t := (mkWorld e c f dn en p h t).

Lemma get_env_run name f p h t :
  get_env name (W f p h t)
  = (Return (match e !! name with
             | Some s => Env_string s
             | None => if bool_decide (name ∈ Object_prototype_properties)
                       then Env_inherited
                       else Env_undefined
             end), W f p h t).
Proof. reflexivity. Qed.

Lemma validatePath_run filePath f p h t :
  validatePath filePath (W f p h t) = (validate c filePath, W f p h t).
Proof. apply validatePath_eq. Qed.

Lemma readFileSync_run file f p h t :
  readFileSync file (W f p h t)
  = (match f !! file with
     | Some text => Return text
     | None => Throw (SystemError (js "ENOENT"))
     end, W f p h (t ++ [E_readFileSync file])).
Proof.
  unfold readFileSync, mbind, M_bind, bind, log_event, lookup_file.
  cbn. by destruct (f !! file).
Qed.

Lemma writeFileSync_run file data mode f p h t :
  writeFileSync file data mode (W f p h t)
  = if bool_decide (file ∈ dn)
    then (Throw (SystemError (js "EACCES")), W f p h t)
    else (Return tt, W (<[file := data]> f) p h
                       (t ++ [E_writeFileSync file data mode])).
Proof. reflexivity. Qed.

Lemma console_log_run msg f p h t :
  console_log msg (W f p h t) = (Return tt, W f p h (t ++ [E_console_log msg])).
Proof. reflexivity. Qed.

Lemma alloc_run role d f p hp L t :
  alloc role d (W f p (hp ++ L) t)
  = (Return (length hp + length L)%nat, W f p (hp ++ (L ++ [(role, d)])) t).
Proof. unfold alloc. cbn. by rewrite length_app, <- app_assoc. Qed.

Lemma randomBytes_run role n f p hp L t :
  randomBytes role n (W f p (hp ++ L) t)
  = (Return (length hp + length L)%nat,
     W f (p + n)%nat (hp ++ (L ++ [(role, map en (seq p n))]))
       (t ++ [E_randomBytes n])).
Proof.
  unfold randomBytes, mbind, M_bind, bind, log_event, draw, alloc. cbn.
  by rewrite length_app, <- app_assoc.
Qed.

Lemma read_buffer_run k f p hp L t :
  read_buffer (length hp + k)%nat (W f p (hp ++ L) t)
  = (Return (data_at L k), W f p (hp ++ L) t).
Proof. unfold read_buffer. cbn. by rewrite buffer_data_app. Qed.

Lemma clearBuffer_run k f p hp L t :
  clearBuffer (Some (length hp + k)%nat) (W f p (hp ++ L) t)
  = (Return tt, W f p (hp ++ zero_at k L) t).
Proof. unfold clearBuffer, buffer_fill0. cbn. by rewrite alter_app_zero. Qed.

Lemma clearBuffer_null w : clearBuffer None w = (Return tt, w).
Proof. reflexivity. Qed.

Context `{Crypto}.

Lemma scryptSync_run pw k n f p hp L t :
  scryptSync (Env_string pw) (length hp + k)%nat n (W f p (hp ++ L) t)
  = (Return (length hp + length L)%nat,
     W f p (hp ++ (L ++ [(KeyBuffer, scrypt (utf8_encode pw) (data_at L k) n)]))
       (t ++ [E_scryptSync])).
Proof.
  unfold scryptSync, mbind, M_bind, bind, log_event, read_buffer, alloc. cbn.
  by rewrite buffer_data_app, length_app, <- app_assoc.
Qed.

Lemma scryptSync_inherited b n w :
  scryptSync Env_inherited b n w
  = (Throw (TypeError (js "The password argument must be of type string")), w).
Proof. reflexivity. Qed.

Lemma createCipheriv_run k v f p hp L t :
  createCipheriv (length hp + k)%nat (length hp + v)%nat (W f p (hp ++ L) t)
  = (if bool_decide (length (data_at L k) = 32%nat) && gcm_iv_ok (data_at L v)
     then Return (mkCipher (data_at L k) (data_at L v) [] [])
     else Throw (CryptoError (js "Invalid key length or initialization vector")),
     W f p (hp ++ L) (t ++ [E_createCipheriv])).
Proof.
  unfold createCipheriv, mbind, M_bind, bind, log_event, read_buffer. cbn.
  rewrite !buffer_data_app. by destruct (_ && _).
Qed.

Lemma createDecipheriv_run k v f p hp L t :
  createDecipheriv (length hp + k)%nat (length hp + v)%nat (W f p (hp ++ L) t)
  = (if bool_decide (length (data_at L k) = 32%nat) && gcm_iv_ok (data_at L v)
     then Return (mkCipher (data_at L k) (data_at L v) [] [])
     else Throw (CryptoError (js "Invalid key length or initialization vector")),
     W f p (hp ++ L) (t ++ [E_createDecipheriv])).
Proof.
  unfold createDecipheriv, mbind, M_bind, bind, log_event, read_buffer. cbn.
  rewrite !buffer_data_app. by destruct (_ && _).
Qed.

Lemma setAuthTag_run ci k f p hp L t :
  setAuthTag ci (length hp + k)%nat (W f p (hp ++ L) t)
  = (if gcm_tag_ok (data_at L k)
     then Return (mkCipher (c_key ci) (c_iv ci) (data_at L k) (c_text ci))
     else Throw (CryptoError (js "Invalid authentication tag length")),
     W f p (hp ++ L) t).
Proof.
  unfold setAuthTag, mbind, M_bind, bind, read_buffer. cbn.
  rewrite buffer_data_app. by destruct (gcm_tag_ok _).
Qed.

Lemma getAuthTag_run ci f p hp L t :
  getAuthTag ci (W f p (hp ++ L) t)
  = (Return (length hp + length L)%nat,
     W f p (hp ++ (L ++ [(AuthTagBuffer,
                          gcm_tag (c_key ci) (c_iv ci) (c_text ci))])) t).
Proof. unfold getAuthTag. apply alloc_run. Qed.

Lemma Buffer_from_run role v f p hp L t :
  Buffer_from role v (W f p (hp ++ L) t)
  = match Buffer_from_hex v with
    | Return d => (Return (length hp + length L)%nat,
                   W f p (hp ++ (L ++ [(role, d)])) t)
    | Throw err => (Throw err, W f p (hp ++ L) t)
    end.
Proof.
  unfold Buffer_from, mbind, M_bind, bind, lift.
  destruct (Buffer_from_hex v); [apply alloc_run|done].
Qed.

End operations.

Ltac wsimpl :=
  cbn [process_env process_cwd fs_files fs_denied entropy entropy_pos heap trace
       fst snd keyBuffer salt length app data_at zero_at
       c_key c_iv c_tag c_text].

Ltac step_with eqn := rewrite C_bind_io, eqn; cbv beta iota; wsimpl.

(** The [finally] block, no buffer yet in [keyBuffer] and [salt]. *)
Ltac fin_null :=
  cbv beta iota; unfold raise; rewrite C_bind_get_locals; wsimpl;
  rewrite C_io, clearBuffer_null; wsimpl; rewrite ?app_nil_r; try done.

(** The [finally] block of [decryptEnvFile], a buffer in [keyBuffer]. *)
Ltac fin_key :=
  cbv beta iota; unfold raise; rewrite C_bind_get_locals; wsimpl;
  rewrite C_io, clearBuffer_run; wsimpl; rewrite <- ?app_assoc; try done.

Section engine_runs.
Context `{Crypto}.

Lemma encryptEnvFile_eq sp op kv e c f dn en p hp t :
  encryptEnvFile sp op kv (mkWorld e c f dn en p hp t) =
  match e !! kv with
  | Some (k0 :: K') =>
      let K := k0 :: K' in
      match validate c sp with
      | Throw err => (Throw err, mkWorld e c f dn en p hp t)
      | Return sp' =>
          match f !! sp' with
          | None => (Throw (SystemError (js "ENOENT")),
                     mkWorld e c f dn en p hp (t ++ [E_readFileSync sp']))
          | Some P =>
              let salt := map en (seq p 16) in
              let iv := map en (seq (p + 16) 16) in
              let key := derived_key K salt in
              let t5 := t ++ [E_readFileSync sp'; E_randomBytes 16; E_scryptSync;
                              E_randomBytes 16; E_createCipheriv] in
              if bool_decide (length key = 32%nat) && gcm_iv_ok iv then
                let hp4 := hp ++ [zero_fill (SaltBuffer, salt);
                                  zero_fill (KeyBuffer, key);
                                  (IvBuffer, iv);
                                  (AuthTagBuffer, auth_tag K P salt iv)] in
                match validate c op with
                | Throw err => (Throw err, mkWorld e c f dn en (p + 16 + 16) hp4 t5)
                | Return op' =>
                    if bool_decide (op' ∈ dn)
                    then (Throw (SystemError (js "EACCES")),
                          mkWorld e c f dn en (p + 16 + 16) hp4 t5)
                    else (Return tt,
                          mkWorld e c (<[op' := container K P salt iv]> f) dn en
                                  (p + 16 + 16) hp4
                                  (t5 ++ [E_writeFileSync op' (container K P salt iv)
                                            mode_owner_rw;
                                          E_console_log
                                            (js "Encrypted environment file saved to "
                                             ++ op)]))
                end
              else (Throw (CryptoError (js "Invalid key length or initialization vector")),
                    mkWorld e c f dn en (p + 16 + 16)
                            (hp ++ [zero_fill (SaltBuffer, salt);
                                    zero_fill (KeyBuffer, key); (IvBuffer, iv)]) t5)
          end
      end
  | Some [] =>
      (Throw (key_not_found (js "Environment variable " ++ kv ++ js " not found")),
       mkWorld e c f dn en p hp t)
  | None =>
      if bool_decide (kv ∈ Object_prototype_properties) then
        match validate c sp with
        | Throw err => (Throw err, mkWorld e c f dn en p hp t)
        | Return sp' =>
            match f !! sp' with
            | None => (Throw (SystemError (js "ENOENT")),
                       mkWorld e c f dn en p hp (t ++ [E_readFileSync sp']))
            | Some P =>
                (Throw (TypeError (js "The password argument must be of type string")),
                 mkWorld e c f dn en (p + 16)
                         (hp ++ [zero_fill (SaltBuffer, map en (seq p 16))])
                         (t ++ [E_readFileSync sp'; E_randomBytes 16]))
            end
        end
      else
        (Throw (key_not_found (js "Environment variable " ++ kv ++ js " not found")),
         mkWorld e c f dn en p hp t)
  end.
Proof.
  rewrite <- (app_nil_r hp) at 1.
  unfold encryptEnvFile, call, try_finally_c.
  step_with get_env_run.
  destruct (e !! kv) as [[|k0 K']|]; [| |case_bool_decide]; cbn [missing];
    try (unfold raise; rewrite C_bind_get_locals; wsimpl; rewrite C_bind_io, clearBuffer_null;
         cbv beta iota; rewrite C_io, clearBuffer_null; wsimpl;
         by rewrite app_nil_r).
  2:{ step_with validatePath_run.
      destruct (validate c sp) as [sp'|err].
      2:{ rewrite C_bind_get_locals; wsimpl; rewrite C_bind_io, clearBuffer_null;
          cbv beta iota; rewrite C_io, clearBuffer_null; wsimpl.
          by rewrite app_nil_r. }
      step_with readFileSync_run.
      destruct (f !! sp') as [P|].
      2:{ rewrite C_bind_get_locals; wsimpl; rewrite C_bind_io, clearBuffer_null;
          cbv beta iota; rewrite C_io, clearBuffer_null; wsimpl.
          by rewrite app_nil_r. }
      step_with randomBytes_run.
      rewrite C_bind_set_salt. wsimpl.
      rewrite C_bind_io, scryptSync_inherited. cbv beta iota. wsimpl.
      rewrite C_bind_get_locals. wsimpl.
      rewrite C_bind_io, clearBuffer_null. cbv beta iota.
      rewrite C_io, clearBuffer_run. wsimpl.
      by rewrite <- !app_assoc. }
  step_with validatePath_run.
  destruct (validate c sp) as [sp'|err].
  2:{ rewrite C_bind_get_locals; wsimpl; rewrite C_bind_io, clearBuffer_null;
      cbv beta iota; rewrite C_io, clearBuffer_null; wsimpl.
      by rewrite app_nil_r. }
  step_with readFileSync_run.
  destruct (f !! sp') as [P|].
  2:{ rewrite C_bind_get_locals; wsimpl; rewrite C_bind_io, clearBuffer_null;
      cbv beta iota; rewrite C_io, clearBuffer_null; wsimpl.
      by rewrite app_nil_r. }
  step_with randomBytes_run.
  rewrite C_bind_set_salt. wsimpl.
  step_with @scryptSync_run.
  rewrite C_bind_set_keyBuffer. wsimpl.
  step_with randomBytes_run.
  step_with @createCipheriv_run.
  cbv zeta. unfold derived_key.
  destruct (_ && _).
  2:{ rewrite C_bind_get_locals. wsimpl.
      step_with clearBuffer_run. rewrite C_io, clearBuffer_run. wsimpl.
      by rewrite <- !app_assoc. }
  unfold cipher_update. wsimpl.
  step_with @getAuthTag_run.
  step_with read_buffer_run.
  step_with read_buffer_run.
  step_with read_buffer_run.
  step_with validatePath_run.
  destruct (validate c op) as [op'|err].
  2:{ rewrite C_bind_get_locals. wsimpl.
      step_with clearBuffer_run. rewrite C_io, clearBuffer_run. wsimpl.
      by rewrite <- !app_assoc. }
  step_with writeFileSync_run.
  case_bool_decide.
  { rewrite C_bind_get_locals. wsimpl.
    step_with clearBuffer_run. rewrite C_io, clearBuffer_run. wsimpl.
    by rewrite <- !app_assoc. }
  rewrite C_io, console_log_run.
  rewrite C_bind_get_locals. wsimpl.
  step_with clearBuffer_run. rewrite C_io, clearBuffer_run. wsimpl.
  by rewrite <- !app_assoc.
Qed.

Lemma decryptEnvFile_eq sp kv e c f dn en p hp t :
  decryptEnvFile sp kv (mkWorld e c f dn en p hp t) =
  match e !! kv with
  | Some (k0 :: K') =>
      let K := k0 :: K' in
      match validate c sp with
      | Throw err => (Throw err, mkWorld e c f dn en p hp t)
      | Return sp' =>
          let t1 := t ++ [E_readFileSync sp'] in
          match f !! sp' with
          | None => (Throw (SystemError (js "ENOENT")), mkWorld e c f dn en p hp t1)
          | Some text =>
              match JSON_parse text with
              | Throw err => (Throw err, mkWorld e c f dn en p hp t1)
              | Return data =>
                  match get_property data (js "salt") with
                  | Throw err => (Throw err, mkWorld e c f dn en p hp t1)
                  | Return _ =>
                  let e_salt := property data (js "salt") in
                  let e_iv := property data (js "iv") in
                  let e_content := property data (js "content") in
                  let e_authTag := property data (js "authTag") in
                  if negb (truthy e_salt) || negb (truthy e_iv)
                     || negb (truthy e_content) || negb (truthy e_authTag)
                  then (Throw invalid_format, mkWorld e c f dn en p hp t1)
                  else
                  match Buffer_from_hex e_salt with
                  | Throw err => (Throw err, mkWorld e c f dn en p hp t1)
                  | Return salt =>
                      let key := derived_key K salt in
                      let t2 := t ++ [E_readFileSync sp'; E_scryptSync] in
                      match Buffer_from_hex e_iv with
                      | Throw err =>
                          (Throw err,
                           mkWorld e c f dn en p
                             (hp ++ [(SaltBuffer, salt); zero_fill (KeyBuffer, key)]) t2)
                      | Return iv =>
                          match Buffer_from_hex e_authTag with
                          | Throw err =>
                              (Throw err,
                               mkWorld e c f dn en p
                                 (hp ++ [(SaltBuffer, salt); zero_fill (KeyBuffer, key);
                                         (IvBuffer, iv)]) t2)
                          | Return tag =>
                              let w' :=
                                mkWorld e c f dn en p
                                  (hp ++ [(SaltBuffer, salt); zero_fill (KeyBuffer, key);
                                          (IvBuffer, iv); (AuthTagBuffer, tag)])
                                  (t ++ [E_readFileSync sp'; E_scryptSync;
                                         E_createDecipheriv]) in
                              if bool_decide (length key = 32%nat) && gcm_iv_ok iv then
                                if gcm_tag_ok tag then
                                  match e_content with
                                  | Some (JString hex) =>
                                      if Nat.odd (length hex)
                                      then (Throw (TypeError (js "The argument 'encoding' is invalid for data of odd length")), w')
                                      else
                                      if gcm_verify key iv (from_hex hex) tag
                                      then (Return (parse_env (utf8_decode
                                              (gcm_crypt key iv (from_hex hex)))), w')
                                      else (Throw (CryptoError (js "Unsupported state or unable to authenticate data")), w')
                                  | _ => (Throw (TypeError (js "The data argument must be of type string")), w')
                                  end
                                else (Throw (CryptoError (js "Invalid authentication tag length")), w')
                              else (Throw (CryptoError (js "Invalid key length or initialization vector")), w')
                          end
                      end
                  end
                  end
              end
          end
      end
  | Some [] =>
      (Throw (key_not_found
                (js "Decryption key not found in environment variable " ++ kv)),
       mkWorld e c f dn en p hp t)
  | None =>
      if bool_decide (kv ∈ Object_prototype_properties) then
        match validate c sp with
        | Throw err => (Throw err, mkWorld e c f dn en p hp t)
        | Return sp' =>
            let t1 := t ++ [E_readFileSync sp'] in
            match f !! sp' with
            | None => (Throw (SystemError (js "ENOENT")), mkWorld e c f dn en p hp t1)
            | Some text =>
                match JSON_parse text with
                | Throw err => (Throw err, mkWorld e c f dn en p hp t1)
                | Return data =>
                    match get_property data (js "salt") with
                    | Throw err => (Throw err, mkWorld e c f dn en p hp t1)
                    | Return _ =>
                    let e_salt := property data (js "salt") in
                    let e_iv := property data (js "iv") in
                    let e_content := property data (js "content") in
                    let e_authTag := property data (js "authTag") in
                    if negb (truthy e_salt) || negb (truthy e_iv)
                       || negb (truthy e_content) || negb (truthy e_authTag)
                    then (Throw invalid_format, mkWorld e c f dn en p hp t1)
                    else
                    match Buffer_from_hex e_salt with
                    | Throw err => (Throw err, mkWorld e c f dn en p hp t1)
                    | Return salt =>
                        (Throw (TypeError (js "The password argument must be of type string")),
                         mkWorld e c f dn en p (hp ++ [(SaltBuffer, salt)]) t1)
                    end
                    end
                end
            end
        end
      else
        (Throw (key_not_found
                  (js "Decryption key not found in environment variable " ++ kv)),
         mkWorld e c f dn en p hp t)
  end.
Proof.
  rewrite <- (app_nil_r hp) at 1.
  unfold decryptEnvFile, call, try_finally_c.
  step_with get_env_run.
  destruct (e !! kv) as [[|k0 K']|]; [| |case_bool_decide]; cbn [missing];
    try (fin_null).
  2:{ step_with validatePath_run.
      destruct (validate c sp) as [sp'|err].
      2:{ fin_null. }
      step_with readFileSync_run.
      destruct (f !! sp') as [text|].
      2:{ fin_null. }
      rewrite C_bind_lift.
      destruct (JSON_parse text) as [data|err].
      2:{ fin_null. }
      assert (Hnull : data = JNull \/ forall name, get_property data name = Return (property data name)).
      { destruct data; auto. }
      destruct Hnull as [->|Hprop].
      { rewrite C_bind_lift. cbn [get_property]. fin_null. }
      do 4 (rewrite C_bind_lift, Hprop; cbv beta iota). cbv zeta.
      destruct (negb (truthy (property data (js "salt"))) || _ || _ || _).
      { fin_null. }
      step_with @Buffer_from_run.
      destruct (Buffer_from_hex (property data (js "salt"))) as [salt|err].
      2:{ fin_null. }
      rewrite C_bind_io, scryptSync_inherited. cbv beta iota. wsimpl.
      fin_null. }
  step_with validatePath_run.
  destruct (validate c sp) as [sp'|err].
  2:{ fin_null. }
  step_with readFileSync_run.
  destruct (f !! sp') as [text|].
  2:{ fin_null. }
  rewrite C_bind_lift.
  destruct (JSON_parse text) as [data|err].
  2:{ fin_null. }
  assert (Hnull : data = JNull \/ forall name, get_property data name = Return (property data name)).
  { destruct data; auto. }
  destruct Hnull as [->|Hprop].
  { rewrite C_bind_lift. cbn [get_property]. fin_null. }
  do 4 (rewrite C_bind_lift, Hprop; cbv beta iota). cbv zeta.
  destruct (negb (truthy (property data (js "salt"))) || _ || _ || _).
  { fin_null. }
  step_with @Buffer_from_run.
  destruct (Buffer_from_hex (property data (js "salt"))) as [salt|err].
  2:{ fin_null. }
  step_with @scryptSync_run.
  rewrite C_bind_set_keyBuffer. wsimpl.
  step_with @Buffer_from_run.
  destruct (Buffer_from_hex (property data (js "iv"))) as [iv|err].
  2:{ fin_key. }
  step_with @Buffer_from_run.
  destruct (Buffer_from_hex (property data (js "authTag"))) as [tag|err].
  2:{ fin_key. }
  step_with @createDecipheriv_run.
  unfold derived_key.
  destruct (_ && _).
  2:{ fin_key. }
  step_with @setAuthTag_run.
  destruct (gcm_tag_ok tag).
  2:{ fin_key. }
  rewrite C_bind_lift.
  assert (Hc : (exists hex, property data (js "content") = Some (JString hex))
               \/ decipher_update
                    {| c_key := scrypt (utf8_encode (k0 :: K')) salt 32;
                       c_iv := iv; c_tag := tag; c_text := [] |}
                    (property data (js "content"))
                  = Throw (TypeError (js "The data argument must be of type string"))).
  { destruct (property data (js "content")) as [[]|]; eauto. }
  destruct Hc as [[hex Hc]|Hc].
  - rewrite Hc. cbn [decipher_update]. destruct (Nat.odd (length hex)).
    { fin_key. }
    wsimpl.
    rewrite C_bind_lift. unfold decipher_final. wsimpl.
    destruct (gcm_verify _ _ _ _).
    + unfold mret, C_ret. fin_key.
    + fin_key.
  - rewrite Hc. fin_key.
    destruct (property data (js "content")) as [[]|]; try done.
    cbn [decipher_update] in Hc. destruct (Nat.odd _); discriminate Hc.
Qed.

End engine_runs.

(** ** The small instance satisfies the laws *)

Module toy_facts.
Import toy.

Lemma xor_byte_involutive d k : xor_byte (xor_byte d k) k = d.
Proof.
  unfold xor_byte.
  rewrite <- (Byte.of_bits_to_bits d) at 2.
  destruct (Byte.to_bits d) as (a0 & a1 & a2 & a3 & a4 & a5 & a6 & a7).
  destruct (Byte.to_bits k) as (b0 & b1 & b2 & b3 & b4 & b5 & b6 & b7).
  rewrite Byte.to_bits_of_bits.
  by rewrite !xorb_assoc, !xorb_nilpotent, !xorb_false_r.
Qed.

Lemma stream_involutive key iv d : forall i,
  stream key iv i (stream key iv i d) = d.
Proof.
  induction d as [|b d IH]; intros i; [done|].
  cbn [stream]. by rewrite xor_byte_involutive, IH.
Qed.

Lemma stream_length key iv d : forall i, length (stream key iv i d) = length d.
Proof. induction d as [|b d IH]; intros i; [done|]. cbn [stream length]. by rewrite IH. Qed.

#[global] Instance laws : CryptoLaws crypto.
Proof.
  split.
  - intros. cbn [scrypt crypto]. unfold stretch. by rewrite length_map, length_seq.
  - intros. apply stream_involutive.
  - intros. apply stream_length.
  - intros. cbn [gcm_tag crypto]. unfold tag. by rewrite length_map, length_seq.
  - intros iv Hiv. cbn [gcm_iv_ok crypto]. by destruct iv.
  - intros t Ht. cbn [gcm_tag_ok crypto]. by rewrite Ht.
  - intros key iv c t Ht. cbn [gcm_verify gcm_tag crypto].
    rewrite take_ge; [done|]. unfold tag. rewrite length_map, length_seq. lia.
Qed.
End toy_facts.

(** ** Containers *)

Lemma toString_hex_nil l : toString_hex l = [] <-> l = [].
Proof. split; [by destruct l|by intros ->]. Qed.

Lemma toString_hex_even l : Nat.odd (length (toString_hex l)) = false.
Proof.
  induction l as [|b l IH]; [done|].
  cbn [toString_hex length]. by rewrite Nat.odd_succ, Nat.even_succ.
Qed.

Lemma truthy_hex l : truthy (Some (JString (toString_hex l))) = negb (bool_decide (l = [])).
Proof. by destruct l. Qed.

Lemma container_of_parse sa iv ct tg :
  JSON_parse (container_of sa iv ct tg)
  = Return (JObject [(js "version", JString (js "1.0.0"));
                     (js "salt", JString (toString_hex sa));
                     (js "iv", JString (toString_hex iv));
                     (js "content", JString (toString_hex ct));
                     (js "authTag", JString (toString_hex tg))]).
Proof.
  unfold container_of. rewrite JSON_parse_stringify; [done|done|].
  cbn [forallb]. unfold plain_member. cbn [fst snd].
  rewrite !toString_hex_plain. reflexivity.
Qed.


Section container_runs.
Context `{Crypto} `{!CryptoLaws H}.

Lemma container_eq K P sa iv :
  container K P sa iv = container_of sa iv (ciphertext K P sa iv) (auth_tag K P sa iv).
Proof. unfold container, container_of. by rewrite app_nil_r. Qed.

Lemma encrypt_success w sp op kv K P sp' op' :
  process_env w !! kv = Some K -> K <> [] ->
  validate (process_cwd w) sp = Return sp' ->
  validate (process_cwd w) op = Return op' ->
  fs_files w !! sp' = Some P ->
  op' ∉ fs_denied w ->
  encryptEnvFile sp op kv w = (Return tt, after_encrypt w sp' op op' K P).
Proof.
  intros HK HK' Hsp Hop HP Hden. destruct w as [e c f dn en p hp t].
  cbn [process_env process_cwd fs_files fs_denied] in *.
  rewrite encryptEnvFile_eq, HK. destruct K as [|k0 K']; [done|].
  rewrite Hsp, HP. cbv zeta.
  rewrite bool_decide_eq_true_2 by apply scrypt_length.
  rewrite gcm_iv_ok_16 by (by rewrite length_map, length_seq).
  cbn [andb]. rewrite Hop, bool_decide_eq_false_2 by done.
  by rewrite <- app_assoc.
Qed.

Lemma decrypt_container w sp kv K sp' sa iv ct tg :
  process_env w !! kv = Some K -> K <> [] ->
  validate (process_cwd w) sp = Return sp' ->
  fs_files w !! sp' = Some (container_of sa iv ct tg) ->
  sa <> [] -> length iv = 16%nat -> ct <> [] -> length tg = 16%nat ->
  decryptEnvFile sp kv w
  = (if bool_decide (tg = gcm_tag (derived_key K sa) iv ct)
     then Return (parse_env (utf8_decode (gcm_crypt (derived_key K sa) iv ct)))
     else Throw auth_failed,
     after_decrypt w sp' K sa iv tg).
Proof.
  intros HK HK' Hsp Hf Hsa Hiv Hct Htg. destruct w as [e c f dn en p hp t].
  cbn [process_env process_cwd fs_files fs_denied] in *.
  rewrite decryptEnvFile_eq, HK. destruct K as [|k0 K']; [done|].
  rewrite Hsp, Hf. cbv zeta. rewrite container_of_parse.
  cbn [get_property].
  set (obj := JObject _).
  assert (E1 : property obj (js "salt") = Some (JString (toString_hex sa))) by reflexivity.
  assert (E2 : property obj (js "iv") = Some (JString (toString_hex iv))) by reflexivity.
  assert (E3 : property obj (js "content") = Some (JString (toString_hex ct))) by reflexivity.
  assert (E4 : property obj (js "authTag") = Some (JString (toString_hex tg))) by reflexivity.
  rewrite E1, E2, E3, E4, !truthy_hex.
  assert (Hiv' : iv <> []) by (intros ->; cbn in Hiv; lia).
  assert (Htg' : tg <> []) by (intros ->; cbn in Htg; lia).
  rewrite !bool_decide_eq_false_2 by assumption.
  cbn [negb orb Buffer_from_hex]. rewrite !from_hex_toString_hex.
  rewrite bool_decide_eq_true_2 by apply scrypt_length.
  rewrite gcm_iv_ok_16, gcm_tag_ok_16, gcm_verify_16, toString_hex_even by done.
  cbn [andb]. by case_bool_decide.
Qed.

End container_runs.

(** ** Exits of [decryptEnvFile] and the buffers left behind *)











Lemma all_zero_replicate n : all_zero (replicate n x00).
Proof. unfold all_zero. apply Forall_replicate. done. Qed.

Lemma JSON_parse_throws text err : JSON_parse text = Throw err -> err = json_syntax_error.
Proof. unfold JSON_parse. repeat case_match; congruence. Qed.


Section exits.
Context `{Crypto}.

Lemma decrypt_unparseable w sp kv K sp' text :
  process_env w !! kv = Some K -> K <> [] ->
  validate (process_cwd w) sp = Return sp' ->
  fs_files w !! sp' = Some text ->
  JSON_parse text = Throw json_syntax_error ->
  decryptEnvFile sp kv w
  = (Throw json_syntax_error, with_trace (trace w ++ [E_readFileSync sp']) w).
Proof.
  intros HK HK' Hsp Hf Hparse. destruct w as [e c f dn en p hp t].
  cbn [process_env process_cwd fs_files] in *.
  rewrite decryptEnvFile_eq, HK. destruct K as [|k0 K']; [done|].
  by rewrite Hsp, Hf, Hparse.
Qed.

Lemma decrypt_missing_field w sp kv K sp' text ms :
  process_env w !! kv = Some K -> K <> [] ->
  validate (process_cwd w) sp = Return sp' ->
  fs_files w !! sp' = Some text ->
  JSON_parse text = Return (JObject ms) ->
  lookup_member (js "salt") ms = None \/ lookup_member (js "iv") ms = None
  \/ lookup_member (js "content") ms = None
  \/ lookup_member (js "authTag") ms = None ->
  decryptEnvFile sp kv w
  = (Throw invalid_format, with_trace (trace w ++ [E_readFileSync sp']) w).
Proof.
  intros HK HK' Hsp Hf Hparse Hmiss. destruct w as [e c f dn en p hp t].
  cbn [process_env process_cwd fs_files] in *.
  rewrite decryptEnvFile_eq, HK. destruct K as [|k0 K']; [done|].
  rewrite Hsp, Hf, Hparse. cbn [get_property property]. cbv zeta.
  assert (Hfalsy : negb (truthy (lookup_member (js "salt") ms))
            || negb (truthy (lookup_member (js "iv") ms))
            || negb (truthy (lookup_member (js "content") ms))
            || negb (truthy (lookup_member (js "authTag") ms)) = true).
  { destruct Hmiss as [-> | [-> | [-> | ->]]]; cbn [truthy negb];
      by rewrite ?orb_true_r. }
  by rewrite Hfalsy.
Qed.

Lemma encrypt_heap sp op kv w :
  exists added,
    heap (encryptEnvFile sp op kv w).2 = heap w ++ added
    /\ Forall (fun cell => key_material cell.1 = true -> all_zero cell.2) added.
Proof.
  destruct w as [e c f dn en p hp t]. rewrite encryptEnvFile_eq.
  cbv zeta. cbn [heap].
  repeat case_match; cbn [snd heap];
    try (exists []; split; [by rewrite app_nil_r|constructor]);
    eexists; (split; [reflexivity|]);
    repeat constructor; cbn [fst snd zero_fill key_material]; intros; 
    try done; apply all_zero_replicate.
Qed.

Lemma decrypt_heap sp kv w :
  exists added,
    heap (decryptEnvFile sp kv w).2 = heap w ++ added
    /\ Forall (fun cell => cell.1 = KeyBuffer -> all_zero cell.2) added.
Proof.
  destruct w as [e c f dn en p hp t]. rewrite decryptEnvFile_eq.
  cbv zeta. cbn [heap].
  repeat case_match; cbn [snd heap];
    try (exists []; split; [by rewrite app_nil_r|constructor]);
    eexists; (split; [reflexivity|]);
    repeat constructor; cbn [fst snd zero_fill]; intros; 
    try done; apply all_zero_replicate.
Qed.
End exits.

(** ** Containers with a field changed *)

Section tampering.
Context `{Crypto} `{!CryptoLaws H}.








End tampering.

(** ** The claims about [encryptEnvFile] and [decryptEnvFile] *)

Section claims.
Context `{Crypto} `{!CryptoLaws H}.

(** Round trip, the plaintext not empty: what [decryptEnvFile] returns on
    the container [encryptEnvFile] wrote is the parse of the plaintext. *)
Theorem roundtrip_nonempty w sp op kv K P sp' op' :
  process_env w !! kv = Some K -> K <> [] ->
  validate (process_cwd w) sp = Return sp' ->
  validate (process_cwd w) op = Return op' ->
  fs_files w !! sp' = Some P ->
  op' ∉ fs_denied w ->
  well_formed P = true -> P <> [] ->
  let sealed := encryptEnvFile sp op kv w in
  sealed.1 = Return tt
  /\ (decryptEnvFile op kv sealed.2).1 = Return (parse_env P).
Proof.
  intros HK HK' Hsp Hop HP Hden Hwf Hne sealed. subst sealed.
  rewrite (encrypt_success w sp op kv K P sp' op') by done.
  split; [done|]. cbn [snd].
  erewrite decrypt_container; try eassumption.
  - rewrite bool_decide_eq_true_2 by reflexivity.
    unfold ciphertext. by rewrite gcm_crypt_involutive, utf8_roundtrip.
  - cbn [after_encrypt fs_files]. rewrite container_eq. apply lookup_insert_eq.
  - unfold enc_salt, drawn. intros Heq. apply (f_equal length) in Heq.
    by rewrite length_map, length_seq in Heq.
  - unfold enc_iv, drawn. by rewrite length_map, length_seq.
  - unfold ciphertext. intros Heq. apply (f_equal length) in Heq.
    rewrite gcm_crypt_length in Heq.
    apply length_zero_iff_nil in Heq. by apply utf8_encode_nonempty in Heq.
  - apply gcm_tag_length.
Qed.

(** C1, at the input where it fails. For the empty plaintext
    [encryptEnvFile] succeeds and writes a container whose [content] is the
    empty string; [decryptEnvFile] takes that field for a missing one and
    throws [INVALID_FORMAT], where the parse of the plaintext is the empty
    mapping. *)
Theorem roundtrip_fails_on_empty_plaintext w sp op kv K sp' op' :
  process_env w !! kv = Some K -> K <> [] ->
  validate (process_cwd w) sp = Return sp' ->
  validate (process_cwd w) op = Return op' ->
  fs_files w !! sp' = Some [] ->
  op' ∉ fs_denied w ->
  let sealed := encryptEnvFile sp op kv w in
  sealed.1 = Return tt
  /\ (exists text, fs_files sealed.2 !! op' = Some text
                   /\ field (js "content") text = Some [])
  /\ (decryptEnvFile op kv sealed.2).1 = Throw invalid_format
  /\ parse_env [] = ∅.
Proof.
  intros HK HK' Hsp Hop HP Hden sealed. subst sealed.
  assert (Hct : ciphertext K [] (enc_salt w) (enc_iv w) = []).
  { apply length_zero_iff_nil. unfold ciphertext. by rewrite gcm_crypt_length. }
  rewrite (encrypt_success w sp op kv K [] sp' op') by done.
  split; [done|]. split.
  { eexists. split; [apply lookup_insert_eq|].
    unfold field. by rewrite container_eq, container_of_parse, Hct. }
  split; [|done].
  destruct w as [e c f dn en p hp t].
  unfold after_encrypt. cbv zeta.
  cbn [process_env process_cwd fs_files fs_denied entropy entropy_pos heap
       trace snd] in *.
  rewrite decryptEnvFile_eq, HK. destruct K as [|k0 K']; [done|].
  rewrite Hop. cbv zeta. rewrite lookup_insert_eq.
  rewrite container_eq, container_of_parse, Hct.
  cbn [get_property].
  set (obj := JObject _).
  assert (E3 : property obj (js "content") = Some (JString [])) by reflexivity.
  rewrite E3. change (truthy (Some (JString []))) with false. cbn [negb].
  by rewrite !orb_true_r.
Qed.


(** C3, at the inputs where it fails. When the text of the file is not
    JSON, [decryptEnvFile] throws the [SyntaxError] of [JSON.parse] as it
    is: not an [EnvCryptoError], no [code]. *)
Theorem unparseable_container_fails_without_code w sp kv K sp' text err :
  process_env w !! kv = Some K -> K <> [] ->
  validate (process_cwd w) sp = Return sp' ->
  fs_files w !! sp' = Some text ->
  JSON_parse text = Throw err ->
  decryptEnvFile sp kv w
  = (Throw json_syntax_error, with_trace (trace w ++ [E_readFileSync sp']) w)
  /\ is_EnvCryptoError json_syntax_error = false
  /\ error_code json_syntax_error = None.
Proof.
  intros HK HK' Hsp Hf Hparse.
  pose proof (JSON_parse_throws _ _ Hparse) as ->.
  split; [by eapply decrypt_unparseable|done].
Qed.

(** C5. A file that parses to an object without one of [salt], [iv],
    [content], [authTag] makes [decryptEnvFile] throw [INVALID_FORMAT]. *)
Theorem missing_field_invalid_format w sp kv K sp' text ms :
  process_env w !! kv = Some K -> K <> [] ->
  validate (process_cwd w) sp = Return sp' ->
  fs_files w !! sp' = Some text ->
  JSON_parse text = Return (JObject ms) ->
  lookup_member (js "salt") ms = None \/ lookup_member (js "iv") ms = None
  \/ lookup_member (js "content") ms = None
  \/ lookup_member (js "authTag") ms = None ->
  decryptEnvFile sp kv w
  = (Throw invalid_format, with_trace (trace w ++ [E_readFileSync sp']) w)
  /\ error_code invalid_format = Some (js "INVALID_FORMAT").
Proof. intros. split; [by eapply decrypt_missing_field|done]. Qed.

(** X7. [encryptEnvFile] leaves every key and salt buffer it made filled
    with zeros, on every exit. *)
Theorem encryptEnvFile_clears_key_material sp op kv w :
  exists added,
    heap (encryptEnvFile sp op kv w).2 = heap w ++ added
    /\ Forall (fun cell => key_material cell.1 = true -> all_zero cell.2) added.
Proof. apply encrypt_heap. Qed.

(** X8. [decryptEnvFile] leaves every key buffer it made filled with zeros,
    on every exit. *)
Theorem decryptEnvFile_clears_keyBuffer sp kv w :
  exists added,
    heap (decryptEnvFile sp kv w).2 = heap w ++ added
    /\ Forall (fun cell => cell.1 = KeyBuffer -> all_zero cell.2) added.
Proof. apply decrypt_heap. Qed.

(** C7, at the inputs where it fails. [decryptEnvFile] returns with the
    salt buffer it made still holding the salt: on a container with a
    16-byte salt that is not all zeros, the buffers added to the heap are
    the salt as read, the key filled with zeros, the nonce and the tag. *)
Theorem decryptEnvFile_keeps_salt w sp kv K sp' sa iv ct tg :
  process_env w !! kv = Some K -> K <> [] ->
  validate (process_cwd w) sp = Return sp' ->
  fs_files w !! sp' = Some (container_of sa iv ct tg) ->
  sa <> [] -> length iv = 16%nat -> ct <> [] -> length tg = 16%nat ->
  ~ all_zero sa ->
  heap (decryptEnvFile sp kv w).2
  = heap w ++ [(SaltBuffer, sa); (KeyBuffer, replicate 32 x00);
               (IvBuffer, iv); (AuthTagBuffer, tg)]
  /\ exists cell, cell ∈ heap (decryptEnvFile sp kv w).2
                  /\ key_material cell.1 = true /\ ~ all_zero cell.2.
Proof.
  intros HK HK' Hsp Hf Hsa Hiv Hct Htg Hnz.
  erewrite decrypt_container by eassumption.
  cbn [snd after_decrypt heap]. unfold zero_fill. cbn [fst snd].
  unfold derived_key. rewrite scrypt_length. split; [done|].
  exists (SaltBuffer, sa). split; [|done].
  apply elem_of_app. right. left.
Qed.

(** C8, as the code has it. The source path is validated before the source
    is read; the output path is validated after the source was read, the
    key derived and the cipher run, just before the write. With an invalid
    output path the call fails with [INVALID_PATH] and writes nothing. *)
Theorem output_path_validated_before_write w sp op kv K :
  process_env w !! kv = Some K -> K <> [] ->
  (forall e, validate (process_cwd w) sp = Throw e ->
             encryptEnvFile sp op kv w = (Throw e, w))
  /\ (forall sp' P e,
        validate (process_cwd w) sp = Return sp' ->
        fs_files w !! sp' = Some P ->
        validate (process_cwd w) op = Throw e ->
        let r := encryptEnvFile sp op kv w in
        r.1 = Throw e
        /\ trace r.2 = trace w ++ [E_readFileSync sp'; E_randomBytes 16;
                                   E_scryptSync; E_randomBytes 16;
                                   E_createCipheriv]
        /\ fs_files r.2 = fs_files w).
Proof.
  intros HK HK'. destruct w as [e c f dn en p hp t].
  cbn [process_env process_cwd fs_files] in *.
  destruct K as [|k0 K']; [done|]. split.
  - intros err Hsp. by rewrite encryptEnvFile_eq, HK, Hsp.
  - intros sp' P err Hsp HP Hop. cbv zeta.
    rewrite encryptEnvFile_eq, HK, Hsp, HP. cbv zeta.
    rewrite bool_decide_eq_true_2 by apply scrypt_length.
    rewrite gcm_iv_ok_16 by (by rewrite length_map, length_seq).
    cbn [andb]. by rewrite Hop.
Qed.




(** For the empty plaintext the [content] of every container is the empty
    string, whatever the draws. *)
Lemma empty_plaintext_content K sa iv :
  field (js "content") (container K [] sa iv) = Some [].
Proof.
  unfold field. rewrite container_eq, container_of_parse.
  assert (Hct : ciphertext K [] sa iv = []).
  { apply length_zero_iff_nil. unfold ciphertext. by rewrite gcm_crypt_length. }
  by rewrite Hct.
Qed.

End claims.

(** ** Equal ciphertexts from different draws *)








(** ** The key-value parser *)

Lemma star_loop_sound (m : matcher) (p : N -> bool) (k : continuation) (fuel : nat) :
  (forall (pos : nat) (s : jsstring) (caps : captures) (k' : continuation),
     m pos s caps k' = match s with
                       | c :: s' => if p c then k' (S pos) s' caps else None
                       | [] => None
                       end) ->
  forall pos s caps c,
  star_loop m k fuel pos s caps = Some c ->
  exists pre post, s = pre ++ post /\ forallb p pre = true
                   /\ k (pos + length pre)%nat post caps = Some c.
Proof.
  intros Hspec.
  induction fuel as [|fuel IH]; intros pos s caps c Hm.
  - exists [], s. cbn in *. by rewrite Nat.add_0_r.
  - assert (Hk : k pos s caps = Some c ->
                 exists pre post, s = pre ++ post /\ forallb p pre = true
                   /\ k (pos + length pre)%nat post caps = Some c).
    { intros Hk. exists [], s. cbn. by rewrite Nat.add_0_r. }
    cbn [star_loop] in Hm. rewrite Hspec in Hm.
    destruct s as [|x s]; [exact (Hk Hm)|].
    destruct (p x) eqn:Hp; [|exact (Hk Hm)].
    destruct (length s <? length (x :: s))%nat; [|exact (Hk Hm)].
    destruct (star_loop m k fuel (S pos) s caps) as [c'|] eqn:Hl;
      [|exact (Hk Hm)].
    assert (c' = c) as -> by congruence.
    destruct (IH _ _ _ _ Hl) as (pre & post & -> & Hpre & Hpost).
    exists (x :: pre), post. cbn [forallb length app]. rewrite Hp, Hpre.
    repeat split; try done. by rewrite <- Nat.add_succ_comm.
Qed.

Lemma star_loop_class_sound p k fuel pos s caps c :
  star_loop (re_match (Re_class p)) k fuel pos s caps = Some c ->
  exists pre post, s = pre ++ post /\ forallb p pre = true
                   /\ k (pos + length pre)%nat post caps = Some c.
Proof. by apply star_loop_sound. Qed.

(** What a line matched by the pattern looks like. *)
Lemma env_line_match_shape pos line caps k c :
  re_match env_line_regex pos line caps k = Some c ->
  pos = 0%nat
  /\ exists ws1 x key ws2 rest,
       line = ws1 ++ x :: key ++ ws2 ++ 61 :: rest
       /\ forallb is_space ws1 = true /\ is_key_char x = true.
Proof.
  unfold env_line_regex, Re_plus.
  change (re_match (Re_seq Re_bol ?r) pos line caps k)
    with (if (pos =? 0)%nat then re_match r pos line caps k else None).
  destruct (pos =? 0)%nat eqn:Hpos; [|done].
  apply Nat.eqb_eq in Hpos. intros Hm. split; [done|].
  change (re_match (Re_seq (Re_star ?a) ?r) pos line caps k)
    with (star_loop (re_match a) (fun pos' s' caps' => re_match r pos' s' caps' k)
            (length line) pos line caps) in Hm.
  apply star_loop_class_sound in Hm as (ws1 & s1 & -> & Hws1 & Hm).
  set (p1 := (pos + length ws1)%nat) in *. clearbody p1.
  change (re_match (Re_seq (Re_group 1 (Re_seq (Re_class ?p) (Re_star ?a))) ?r) p1 s1 caps k)
    with (match s1 with
          | c :: s' =>
              if p c
              then star_loop (re_match a)
                     (fun pos' s'' caps' =>
                        re_match r pos' s'' (<[1%nat := take (pos' - p1) s1]> caps') k)
                     (length s') (S p1) s' caps
              else None
          | [] => None
          end) in Hm.
  destruct s1 as [|x s1]; [done|].
  destruct (is_key_char x) eqn:Hx; [|done].
  apply star_loop_class_sound in Hm as (key & s2 & -> & Hkey & Hm).
  set (p2 := (S p1 + length key)%nat) in *. clearbody p2.
  set (caps2 := <[1%nat := _]> caps) in *. clearbody caps2.
  change (re_match (Re_seq (Re_star ?a) ?r) p2 s2 caps2 k)
    with (star_loop (re_match a) (fun pos' s' caps' => re_match r pos' s' caps' k)
            (length s2) p2 s2 caps2) in Hm.
  apply star_loop_class_sound in Hm as (ws2 & s3 & -> & Hws2 & Hm).
  set (p3 := (p2 + length ws2)%nat) in *. clearbody p3.
  change (re_match (Re_seq (Re_class ?p) ?r) p3 s3 caps2 k)
    with (match s3 with
          | c :: s' => if p c then re_match r (S p3) s' caps2 k else None
          | [] => None
          end) in Hm.
  destruct s3 as [|y s3]; [done|].
  destruct (is_equals y) eqn:Hy; [|done].
  apply N.eqb_eq in Hy as ->.
  by exists ws1, x, key, ws2, s3.
Qed.

Lemma is_space_not_key c : is_space c = true -> is_key_char c = false.
Proof.
  unfold is_space, is_key_char, is_word.
  rewrite !orb_true_iff, !andb_true_iff, !N.leb_le, !N.eqb_eq. intros Hs.
  rewrite !orb_false_iff, !andb_false_iff, !N.leb_gt, !N.eqb_neq. lia.
Qed.

Lemma re_exec_from_none r : forall s pos,
  (forall pos' s', (pos <= pos')%nat -> re_match r pos' s' ∅ (fun _ _ c => Some c) = None) ->
  re_exec_from r pos s = None.
Proof.
  induction s as [|x s IH]; intros pos Hnone; cbn [re_exec_from].
  - by rewrite Hnone.
  - rewrite Hnone by done. apply IH. intros. apply Hnone. lia.
Qed.

Lemma re_exec_from_no_equals : forall s pos,
  61 ∉ s -> re_exec_from env_line_regex pos s = None.
Proof.
  induction s as [|x s IH]; intros pos Hno; cbn [re_exec_from].
  - destruct (re_match _ _ _ _ _) eqn:Hm; [|done].
    apply env_line_match_shape in Hm as (_ & ws1 & y & key & ws2 & rest & Heq & _).
    by destruct ws1.
  - destruct (re_match _ _ _ _ _) eqn:Hm.
    + apply env_line_match_shape in Hm as (_ & ws1 & y & key & ws2 & rest & Heq & _).
      exfalso. apply Hno. rewrite Heq.
      rewrite elem_of_app, elem_of_cons, !elem_of_app, elem_of_cons. tauto.
    + apply IH. intros Hin. apply Hno. by right.
Qed.

Lemma re_exec_leading_equals ws rest :
  forallb is_space ws = true ->
  re_exec env_line_regex (ws ++ 61 :: rest) = None.
Proof.
  intros Hws. unfold re_exec.
  assert (Hfirst : re_match env_line_regex 0%nat (ws ++ 61 :: rest) ∅
                     (fun _ _ c => Some c) = None).
  { destruct (re_match _ _ _ _ _) eqn:Hm; [|done]. exfalso.
    apply env_line_match_shape in Hm
      as (_ & ws1 & y & key & ws2 & rest' & Heq & Hws1 & Hy).
    apply app_eq_inv in Heq as [(k & -> & Hk)|(k & -> & Hk)].
    - destruct k as [|z k]; cbn [app] in Hk.
      + assert (y = 61) as -> by congruence. discriminate Hy.
      + assert (y = z) as -> by congruence.
        rewrite forallb_app in Hws. cbn [forallb] in Hws.
        apply andb_true_iff in Hws as [_ Hws]. apply andb_true_iff in Hws as [Hsp _].
        apply is_space_not_key in Hsp. congruence.
    - destruct k as [|z k]; cbn [app] in Hk.
      + assert (y = 61) as -> by congruence. discriminate Hy.
      + assert (z = 61) as -> by congruence.
        rewrite forallb_app in Hws1. cbn [forallb] in Hws1.
        apply andb_true_iff in Hws1 as [_ Hws1].
        apply andb_true_iff in Hws1 as [Hsp _]. discriminate Hsp. }
  destruct (ws ++ 61 :: rest) as [|x s] eqn:Hs; cbn [re_exec_from]; rewrite Hfirst; [done|].
  apply re_exec_from_none. intros pos' s' Hpos.
  destruct (re_match env_line_regex pos' s' _ _) eqn:Hm; [|done].
  apply env_line_match_shape in Hm as [-> _]. lia.
Qed.

Lemma parse_env_line_no_equals envVars line :
  61 ∉ line -> parse_env_line envVars line = envVars.
Proof.
  intros Hno. unfold parse_env_line. case_match; [done|].
  unfold re_exec. by rewrite re_exec_from_no_equals.
Qed.

Lemma parse_env_line_empty_key envVars ws rest :
  forallb is_space ws = true ->
  parse_env_line envVars (ws ++ 61 :: rest) = envVars.
Proof.
  intros Hws. unfold parse_env_line. case_match; [done|].
  by rewrite re_exec_leading_equals.
Qed.

Lemma endsWith_snoc s c : endsWith (s ++ [c]) [c] = true.
Proof. unfold endsWith. rewrite rev_app_distr. cbn. by rewrite N.eqb_refl. Qed.

Lemma unquote_wrapped q v :
  q = dquote \/ q = squote -> unquote (q :: v ++ [q]) = v.
Proof.
  intros Hq. unfold unquote.
  assert (Hlen : (1 <? length (q :: v ++ [q]))%nat = true).
  { apply Nat.ltb_lt. cbn [length]. rewrite length_app. cbn. lia. }
  assert (Hend : endsWith (q :: v ++ [q]) [q] = true).
  { change (q :: v ++ [q]) with ((q :: v) ++ [q]). apply endsWith_snoc. }
  assert (Hstart : startsWith (q :: v ++ [q]) [q] = true).
  { cbn. by rewrite N.eqb_refl. }
  rewrite Hlen.
  assert (Hsub : substring 1 (length (q :: v ++ [q]) - 1) (q :: v ++ [q]) = v).
  { unfold substring. change (drop 1 (q :: v ++ [q])) with (v ++ [q]).
    cbn [length]. rewrite length_app. cbn [length].
    replace (S (length v + 1) - 1 - 1)%nat with (length v) by lia.
    by rewrite take_app_length. }
  rewrite Hsub.
  destruct Hq as [-> | ->]; rewrite Hstart, Hend; cbn [andb orb]; [done|].
  by rewrite orb_true_r.
Qed.

(** C6. The edge-case input parses to exactly the four records, the quoted
    values without their outer quotes; in general a value wrapped in one
    pair of double or single quotes loses that pair and nothing else, a line
    without [=] adds no record, and neither does a line whose key is
    empty. *)
Theorem parse_env_edge_cases :
  parse_env edge_case_text
  = <[js "DB_HOST" := js "localhost"]>
      (<[js "API_KEY" := js "k"]>
         (<[js "EMPTY" := []]> (<[js "OK" := []]> ∅)))
  /\ size (parse_env edge_case_text) = 4%nat
  /\ (forall v, unquote (dquote :: v ++ [dquote]) = v
                /\ unquote (squote :: v ++ [squote]) = v)
  /\ (forall envVars line, 61 ∉ line -> parse_env_line envVars line = envVars)
  /\ (forall envVars ws rest,
        forallb is_space ws = true ->
        parse_env_line envVars (ws ++ 61 :: rest) = envVars).
Proof.
  split; [vm_compute; reflexivity|]. split; [vm_compute; reflexivity|]. split; [|split].
  - intros v. split; apply unquote_wrapped; auto.
  - apply parse_env_line_no_equals.
  - apply parse_env_line_empty_key.
Qed.

(** ** The claims on the example worlds *)

Section examples.
Import toy toy_facts.

Abbreviation KEY := (js "ENV_CRYPTO_KEY").

(** The scenario of the test suite. *)
Example demo_roundtrip :
  (decryptEnvFile (js ".env.encrypted") KEY
     (encryptEnvFile (js ".env") (js ".env.encrypted") KEY demo_world).2).1
  = Return (<[js "TEST_VAR" := js "123"]>
              (<[js "ANOTHER_VAR" := js "hello,world"]> ∅)).
Proof. vm_compute; reflexivity. Qed.

Lemma roundtrip_fails_on_empty_plaintext_witness :
  (encryptEnvFile (js ".env") (js ".env.encrypted") KEY empty_env_world).1
  = Return tt
  /\ (decryptEnvFile (js ".env.encrypted") KEY
        (encryptEnvFile (js ".env") (js ".env.encrypted") KEY
           empty_env_world).2).1
     = Throw invalid_format.
Proof.
  destruct (roundtrip_fails_on_empty_plaintext empty_env_world
              (js ".env") (js ".env.encrypted") KEY demo_key
              (js "/home/user/project/.env")
              (js "/home/user/project/.env.encrypted"))
    as (H1 & _ & H2 & _);
    [vm_compute; reflexivity|discriminate|vm_compute; reflexivity
    |vm_compute; reflexivity|vm_compute; reflexivity
    |apply not_elem_of_empty|].
  split; [exact H1|exact H2].
Defined.



Lemma unparseable_container_fails_without_code_witness :
  (decryptEnvFile (js ".env.encrypted") KEY malformed_world).1
  = Throw json_syntax_error
  /\ error_code json_syntax_error = None.
Proof.
  destruct (unparseable_container_fails_without_code malformed_world
              (js ".env.encrypted") KEY demo_key
              (js "/home/user/project/.env.encrypted")
              (js "This is not valid JSON") json_syntax_error)
    as (H1 & _ & H2);
    [vm_compute; reflexivity|discriminate|vm_compute; reflexivity
    |vm_compute; reflexivity|vm_compute; reflexivity|].
  split; [by rewrite H1|exact H2].
Defined.

Lemma missing_field_invalid_format_witness :
  (decryptEnvFile (js ".env.encrypted") KEY no_salt_world).1
  = Throw invalid_format
  /\ error_code invalid_format = Some (js "INVALID_FORMAT").
Proof.
  destruct (missing_field_invalid_format no_salt_world
              (js ".env.encrypted") KEY demo_key
              (js "/home/user/project/.env.encrypted")
              (JSON_stringify no_salt_members)
              [(js "iv", JString (js "test")); (js "content", JString (js "test"));
               (js "authTag", JString (js "test"))])
    as (H1 & H2);
    [vm_compute; reflexivity|discriminate|vm_compute; reflexivity
    |vm_compute; reflexivity|vm_compute; reflexivity
    |left; vm_compute; reflexivity|].
  split; [by rewrite H1|exact H2].
Defined.

Lemma decryptEnvFile_keeps_salt_witness :
  heap (decryptEnvFile (js ".env.encrypted") KEY sealed_world).2
  = [(SaltBuffer, demo_salt); (KeyBuffer, replicate 32 x00);
     (IvBuffer, demo_iv);
     (AuthTagBuffer, auth_tag demo_key demo_text demo_salt demo_iv)]
  /\ ~ all_zero demo_salt.
Proof.
  assert (Hnz : ~ all_zero demo_salt).
  { intros Hz. inversion Hz as [|? ? Hb _]. discriminate Hb. }
  destruct (decryptEnvFile_keeps_salt sealed_world
              (js ".env.encrypted") KEY demo_key
              (js "/home/user/project/.env.encrypted")
              demo_salt demo_iv
              (ciphertext demo_key demo_text demo_salt demo_iv)
              (auth_tag demo_key demo_text demo_salt demo_iv))
    as (H1 & _);
    [vm_compute; reflexivity|discriminate|vm_compute; reflexivity
    |vm_compute; reflexivity|discriminate
    |reflexivity|vm_compute; discriminate|reflexivity|exact Hnz|].
  split; [exact H1|exact Hnz].
Defined.

Lemma output_path_validated_before_write_witness :
  let r := encryptEnvFile (js ".env") (js "../stolen.enc") KEY demo_world in
  r.1 = Throw invalid_path
  /\ trace r.2 = [E_readFileSync (js "/home/user/project/.env");
                  E_randomBytes 16; E_scryptSync; E_randomBytes 16;
                  E_createCipheriv]
  /\ fs_files r.2 = fs_files demo_world.
Proof.
  destruct (output_path_validated_before_write demo_world
              (js ".env") (js "../stolen.enc") KEY demo_key)
    as (_ & H2); [vm_compute; reflexivity|discriminate|].
  apply (H2 (js "/home/user/project/.env") demo_text invalid_path);
    vm_compute; reflexivity.
Defined.


(** C8, as stated, fails: with an invalid output path the call does fail
    with [INVALID_PATH], but after the source was read, the key derived and
    the cipher created. *)
Lemma output_path_checked_after_encryption :
  let r := encryptEnvFile (js ".env") (js "../stolen.enc") KEY demo_world in
  validate (process_cwd demo_world) (js "../stolen.enc") = Throw invalid_path
  /\ ~ fails_before_reading demo_world r
  /\ E_readFileSync (js "/home/user/project/.env") ∈ trace r.2
  /\ E_scryptSync ∈ trace r.2
  /\ E_createCipheriv ∈ trace r.2.
Proof.
  cbv zeta. split; [vm_compute; reflexivity|]. split.
  - intros [_ Htrace]. vm_compute in Htrace. discriminate Htrace.
  - repeat split; apply list_elem_of_In; vm_compute; tauto.
Qed.

(** Two runs on the empty plaintext, their salts and nonces different,
    write the same [content], the empty string. *)
Lemma same_content_for_empty_plaintext :
  let wa := empty_env_world in
  let wb := with_entropy_pos 32 empty_env_world in
  let ta := container demo_key [] (enc_salt wa) (enc_iv wa) in
  let tb := container demo_key [] (enc_salt wb) (enc_iv wb) in
  enc_salt wa <> enc_salt wb /\ enc_iv wa <> enc_iv wb
  /\ fs_files (encryptEnvFile (js ".env") (js ".env.encrypted") KEY wa).2
       !! js "/home/user/project/.env.encrypted" = Some ta
  /\ fs_files (encryptEnvFile (js ".env") (js ".env.encrypted") KEY wb).2
       !! js "/home/user/project/.env.encrypted" = Some tb
  /\ field (js "salt") ta <> field (js "salt") tb
  /\ field (js "iv") ta <> field (js "iv") tb
  /\ ~ (field (js "content") ta <> field (js "content") tb).
Proof.
  cbv zeta.
  split; [vm_compute; discriminate|].
  split; [vm_compute; discriminate|].
  split; [vm_compute; reflexivity|].
  split; [vm_compute; reflexivity|].
  split; [vm_compute; discriminate|].
  split; [vm_compute; discriminate|].
  intros Hne. apply Hne. vm_compute; reflexivity.
Qed.

End examples.

(** * Further properties *)

(** ** What the path validator accepts *)

Lemma startsWith_length s p : startsWith s p = true -> (length p <= length s)%nat.
Proof.
  revert s. induction p as [|c p IH]; intros s; [cbn; lia|].
  destruct s as [|d s]; [done|]. cbn. intros Hs.
  apply andb_true_iff in Hs as [_ Hs]. apply IH in Hs. lia.
Qed.

Section validatePath_accepts.
Import path path_facts.

Lemma join_clean_head s r :
  clean_seg s -> exists c t, join_with sep (s :: r) = c :: t /\ c <> slash.
Proof.
  intros (Hne & _ & _ & Hns). destruct s as [|c s]; [done|].
  exists c. destruct r; cbn; eexists; (split; [reflexivity|]);
    intros ->; apply Hns; left.
Qed.

Lemma inside_prefix cs down :
  Forall clean_seg down ->
  startsWith (abs_path (cs ++ down)) (abs_path cs ++ sep) = true ->
  cs <> [] /\ down <> [].
Proof.
  intros Hd Hs. split.
  - intros ->. cbn [app] in Hs. destruct down as [|s r]; [done|].
    inversion Hd as [|? ? Hc _]; subst.
    destruct (join_clean_head s r Hc) as (c & t & Hj & Hne).
    change (abs_path [] ++ sep) with [slash; slash] in Hs.
    unfold abs_path in Hs. rewrite Hj in Hs.
    change (sep ++ c :: t) with (slash :: c :: t) in Hs.
    cbn [startsWith] in Hs.
    apply andb_true_iff in Hs as [_ Hs].
    apply andb_true_iff in Hs as [Hs _]. apply N.eqb_eq in Hs. congruence.
  - intros ->. rewrite app_nil_r in Hs. apply startsWith_length in Hs.
    rewrite length_app in Hs. cbn in Hs. lia.
Qed.

Lemma validate_inside cs filePath p :
  Forall clean_seg cs ->
  validate (abs_path cs) filePath = Return p ->
  p = resolve (abs_path cs) [abs_path cs; filePath]
  /\ exists down,
       Forall clean_seg down /\ p = abs_path (cs ++ down)
       /\ startsWith (join_with sep down) (js "..") = false
       /\ (isAbsolute filePath = true -> cs <> [] /\ down <> []).
Proof.
  intros Hcs. unfold validate.
  set (w := mkWorld _ _ _ _ _ _ _ _).
  rewrite (validatePath_unfold w cs) by done. cbv zeta.
  rewrite resolve_two by assumption.
  pose proof (resolved_segs_clean cs filePath Hcs) as Hclean.
  destruct (strip_common cs (resolved_segs cs filePath)) as [up down] eqn:Hs.
  destruct up as [|u up].
  2:{ change (replicate (length (u :: up)) dotdot ++ down)
        with (dotdot :: (replicate (length up) dotdot ++ down)).
      rewrite join_dotdot_first. cbn [orb fst]. intros Hx. discriminate Hx. }
  assert (Hpre : cs `prefix_of` resolved_segs cs filePath).
  { apply strip_common_prefix. by rewrite Hs. }
  destruct Hpre as [k Hk]. rewrite Hk in *.
  rewrite strip_common_app in Hs. assert (k = down) as -> by congruence.
  cbn [length replicate app].
  apply Forall_app in Hclean as [_ Hd].
  destruct (startsWith (join_with sep down) (js "..")) eqn:Hdd;
    [intros Hx; discriminate Hx|].
  cbn [orb].
  destruct (isAbsolute filePath) eqn:Habs; cbn [andb].
  - destruct (startsWith (abs_path (cs ++ down)) (abs_path cs ++ sep)) eqn:Hin;
      cbn [negb fst]; intros Hx; [|discriminate Hx].
    injection Hx as <-. split; [done|].
    exists down. split; [done|]. split; [done|]. split; [done|].
    intros _. by apply inside_prefix.
  - cbn [fst]. intros [= <-]. split; [done|]. by exists down.
Qed.

(** X1. What [validatePath] accepts lies in the working directory: the
    path returned is the resolved one, its segments those of the working
    directory followed by clean ones, the first of which does not begin
    with [..]; an absolute input is accepted only strictly below a working
    directory other than the root. The world is left as it was. *)
Theorem validatePath_accepts_inside_only w cs filePath p w' :
  process_cwd w = abs_path cs -> Forall clean_seg cs ->
  validatePath filePath w = (Return p, w') ->
  w' = w
  /\ p = resolve (process_cwd w) [process_cwd w; filePath]
  /\ exists down,
       Forall clean_seg down /\ p = abs_path (cs ++ down)
       /\ startsWith (join_with sep down) (js "..") = false
       /\ (isAbsolute filePath = true -> cs <> [] /\ down <> []).
Proof.
  intros Hw Hcs. rewrite validatePath_eq, Hw. intros [= Hv <-].
  split; [done|]. by apply validate_inside.
Qed.

Lemma validatePath_accepts_inside_only_witness :
  exists down,
    Forall clean_seg down
    /\ js "/home/user/project/subdir/.env" = abs_path (project_dir ++ down).
Proof.
  destruct (validatePath_accepts_inside_only empty_world project_dir
              (js "./subdir/.env") (js "/home/user/project/subdir/.env")
              empty_world eq_refl project_dir_clean)
    as (_ & _ & down & Hd & Hp & _); [vm_compute; reflexivity|].
  by exists down.
Defined.

End validatePath_accepts.

Section validatePath_absolute.
Import path path_facts.

Lemma join_with_app a b :
  a <> [] -> b <> [] ->
  join_with sep (a ++ b) = join_with sep a ++ sep ++ join_with sep b.
Proof.
  intros Ha Hb. induction a as [|x a IH]; [done|].
  destruct a as [|y a].
  - destruct b; [done|]. reflexivity.
  - change (join_with sep ((x :: y :: a) ++ b))
      with (x ++ sep ++ join_with sep ((y :: a) ++ b)).
    rewrite IH by done.
    change (join_with sep (x :: y :: a)) with (x ++ sep ++ join_with sep (y :: a)).
    by rewrite <- !app_assoc.
Qed.

Lemma resolved_segs_absolute cs segs :
  Forall clean_seg segs -> resolved_segs cs (abs_path segs) = segs.
Proof.
  intros Hs. unfold resolved_segs. rewrite abs_path_isAbsolute.
  fold (segments (abs_path segs)). by apply segments_abs_path.
Qed.

(** X26. Absolute paths. The path is resolved first: what is compared and
    returned is its normalized form, with the segments [rs], which for a
    path given without empty, [.] and [..] segments is the path itself. It
    is accepted when [rs] continues the segments of the working directory
    by at least one segment, the working directory is not the root, and
    what follows the working directory does not begin with the two
    characters [..]; in every other case it is rejected: outside the
    working directory, the working directory itself, any path when the
    working directory is the root, and a first segment below the working
    directory that begins with [..]. The working directory is accepted as
    [.]. *)
Theorem validatePath_absolute_paths w cs filePath :
  process_cwd w = abs_path cs -> Forall clean_seg cs ->
  isAbsolute filePath = true ->
  let rs := resolved_segs cs filePath in
  resolve (process_cwd w) [process_cwd w; filePath] = abs_path rs
  /\ (forall segs, Forall clean_seg segs -> filePath = abs_path segs -> rs = segs)
  /\ (forall below,
        rs = cs ++ below -> cs <> [] -> below <> [] ->
        startsWith (join_with sep below) (js "..") = false ->
        validatePath filePath w = (Return (abs_path rs), w))
  /\ (¬ cs `prefix_of` rs \/ rs = cs \/ cs = []
      \/ (exists below, rs = cs ++ below
                        /\ startsWith (join_with sep below) (js "..") = true) ->
      validatePath filePath w = (Throw invalid_path, w))
  /\ validatePath (js ".") w = (Return (abs_path cs), w).
Proof.
  intros Hw Hcs Habs rs.
  pose proof (resolved_segs_clean cs filePath Hcs) as Hclean. fold rs in Hclean.
  split; [by rewrite Hw, resolve_two|].
  split; [intros segs Hsegs ->; by apply resolved_segs_absolute|].
  split; [|split].
  - intros below Hrs Hne Hbne Hdd.
    rewrite (validatePath_unfold w cs) by done. cbv zeta. fold rs.
    rewrite Hrs, strip_common_app.
    cbn [length replicate app]. rewrite Hdd, Habs. cbn [orb andb].
    assert (Hin : startsWith (abs_path (cs ++ below)) (abs_path cs ++ sep) = true).
    { unfold abs_path. rewrite join_with_app by done.
      replace (sep ++ join_with sep cs ++ sep ++ join_with sep below)
        with (((sep ++ join_with sep cs) ++ sep) ++ join_with sep below)
        by (by rewrite <- !app_assoc).
      apply startsWith_app. }
    by rewrite Hin.
  - intros [Hout|[Hrs|[Hroot|(below & Hrs & Hdd)]]].
    + by apply (validatePath_outside w cs Hw Hcs).
    + rewrite (validatePath_unfold w cs) by done. cbv zeta. fold rs. rewrite Hrs.
      rewrite <- (app_nil_r cs) at 2. rewrite strip_common_app.
      cbn [length replicate app join_with startsWith]. rewrite Habs.
      destruct (startsWith (abs_path cs) (abs_path cs ++ sep)) eqn:Hs; [|done].
      apply startsWith_length in Hs. rewrite length_app in Hs. cbn in Hs. lia.
    + subst cs. rewrite (validatePath_unfold w []) by done. cbv zeta. fold rs.
      cbn [strip_common].
      destruct rs as [|s r] eqn:Ers; cbn [length replicate app].
      * rewrite Habs. done.
      * rewrite Habs.
        destruct (startsWith (join_with sep (s :: r)) (js "..")); [done|].
        cbn [orb andb].
        destruct (startsWith (abs_path (s :: r)) (abs_path [] ++ sep)) eqn:Hs; [|done].
        apply (inside_prefix [] (s :: r) Hclean) in Hs as [Hx _]. done.
    + rewrite (validatePath_unfold w cs) by done. cbv zeta. fold rs.
      rewrite Hrs, strip_common_app. cbn [length replicate app]. by rewrite Hdd.
  - pose proof (validatePath_inside w cs Hw Hcs (js ".") []) as Hin.
    rewrite app_nil_r in Hin. apply Hin; [done| |done].
    unfold resolved_segs.
    change (isAbsolute (js ".")) with false. cbv iota.
    change (split_on slash (js ".")) with [dot].
    change (normalize_segs false (rev cs) [dot]) with (rev (rev cs)).
    by rewrite rev_involutive.
Qed.

End validatePath_absolute.

(** ** Exits and effects of the engine *)

Lemma validate_throws cwd filePath e :
  validate cwd filePath = Throw e -> e = invalid_path.
Proof.
  unfold validate, validatePath, mbind, M_bind, bind, get_cwd, throw, mret, M_ret, ret.
  cbn [process_cwd].
  destruct (startsWith _ _ || _); cbn [fst]; [|done]. by intros [= <-].
Qed.

Lemma toString_hex_length l : length (toString_hex l) = (2 * length l)%nat.
Proof. induction l as [|b l IH]; [done|]. cbn [toString_hex length]. lia. Qed.

Section engine_effects.
Context `{Crypto}.

Lemma encrypt_keeps_world w sp op kv :
  let r := encryptEnvFile sp op kv w in
  process_env r.2 = process_env w /\ process_cwd r.2 = process_cwd w
  /\ fs_denied r.2 = fs_denied w
  /\ (forall e, r.1 = Throw e -> fs_files r.2 = fs_files w).
Proof.
  destruct w as [e c f dn en p hp t]. cbv zeta.
  rewrite encryptEnvFile_eq. cbv zeta.
  cbn [process_env process_cwd fs_files fs_denied].
  repeat case_match; cbn [fst snd process_env process_cwd fs_files fs_denied];
    repeat (split; [done|]); try done; intros ? Hx; discriminate Hx.
Qed.

Lemma decrypt_keeps_world w sp kv :
  let w' := (decryptEnvFile sp kv w).2 in
  fs_files w' = fs_files w /\ process_env w' = process_env w
  /\ entropy_pos w' = entropy_pos w
  /\ process_cwd w' = process_cwd w /\ fs_denied w' = fs_denied w
  /\ exists added,
       trace w' = trace w ++ added
       /\ (added = []
           \/ exists sp', validate (process_cwd w) sp = Return sp'
                /\ (added = [E_readFileSync sp']
                    \/ added = [E_readFileSync sp'; E_scryptSync]
                    \/ added = [E_readFileSync sp'; E_scryptSync;
                                E_createDecipheriv])).
Proof.
  destruct w as [e c f dn en p hp t]. cbv zeta.
  rewrite decryptEnvFile_eq. cbv zeta.
  cbn [process_env process_cwd fs_files fs_denied entropy_pos trace].
  destruct (e !! kv) as [[|k0 K']|]; [| |case_bool_decide];
    try (cbn [snd fs_files fs_denied process_env process_cwd entropy_pos trace];
         repeat (split; [done|]); exists []; split; [by rewrite app_nil_r|by left]).
  all: destruct (validate c sp) as [sp'|err];
    try (cbn [snd fs_files fs_denied process_env process_cwd entropy_pos trace];
         repeat (split; [done|]); exists []; split; [by rewrite app_nil_r|by left]).
  all: repeat case_match;
    cbn [snd fs_files fs_denied process_env process_cwd entropy_pos trace];
    repeat (split; [done|]); eexists; (split; [reflexivity|]);
    right; exists sp'; (split; [done|]); auto.
Qed.

(** X2. Without a passphrase, the variable being set to the empty string,
    or unset under a name that [Object.prototype] does not define, both
    functions throw [KEY_NOT_FOUND] before anything else: no path is
    validated, no file read, the world is as it was. Under a name that
    [Object.prototype] defines, such as [toString], an unset variable reads
    as the inherited property, which is truthy: no [KEY_NOT_FOUND]; the
    source is read, and [encryptEnvFile] draws the salt before [scryptSync]
    refuses the key with a [TypeError]. *)
Theorem missing_key_fails_first w sp op kv :
  (process_env w !! kv = Some []
   \/ (process_env w !! kv = None /\ kv ∉ Object_prototype_properties) ->
   encryptEnvFile sp op kv w
   = (Throw (EnvCryptoError (js "Environment variable " ++ kv ++ js " not found")
                            (js "KEY_NOT_FOUND")), w)
   /\ decryptEnvFile sp kv w
      = (Throw (EnvCryptoError
                  (js "Decryption key not found in environment variable " ++ kv)
                  (js "KEY_NOT_FOUND")), w))
  /\ (forall sp' P,
        process_env w !! kv = None -> kv ∈ Object_prototype_properties ->
        validate (process_cwd w) sp = Return sp' ->
        fs_files w !! sp' = Some P ->
        let r := encryptEnvFile sp op kv w in
        r.1 = Throw (TypeError (js "The password argument must be of type string"))
        /\ trace r.2 = trace w ++ [E_readFileSync sp'; E_randomBytes 16]
        /\ entropy_pos r.2 = (entropy_pos w + 16)%nat
        /\ trace (decryptEnvFile sp kv w).2 = trace w ++ [E_readFileSync sp']).
Proof.
  destruct w as [e c f dn en p hp t].
  cbn [process_env process_cwd fs_files trace entropy_pos].
  rewrite encryptEnvFile_eq, decryptEnvFile_eq. split.
  - intros [-> | [-> Hno]]; [done|]. by rewrite bool_decide_eq_false_2.
  - intros sp' P -> Hin Hsp HP. cbv zeta.
    rewrite bool_decide_eq_true_2, Hsp, HP by done.
    split; [done|]. split; [done|]. split; [done|].
    repeat case_match; done.
Qed.

(** X3. A source path the validator refuses makes both functions throw its
    [INVALID_PATH] error before any file is read: the world is as it was. *)
Theorem rejected_source_path_fails_first w sp op kv K e :
  process_env w !! kv = Some K -> K <> [] ->
  validate (process_cwd w) sp = Throw e ->
  encryptEnvFile sp op kv w = (Throw e, w)
  /\ decryptEnvFile sp kv w = (Throw e, w)
  /\ error_code e = Some (js "INVALID_PATH").
Proof.
  intros HK HK' Hsp. destruct w as [en c f dn et p hp t].
  cbn [process_env process_cwd] in *.
  rewrite encryptEnvFile_eq, decryptEnvFile_eq, HK.
  destruct K as [|k0 K']; [done|]. rewrite Hsp.
  by rewrite (validate_throws _ _ _ Hsp).
Qed.

(** X4. When the source file does not exist, both functions let the error
    of [readFileSync] through, which is no [EnvCryptoError]; nothing but
    the attempt to read has happened. *)
Theorem missing_source_file_fails w sp op kv K sp' :
  process_env w !! kv = Some K -> K <> [] ->
  validate (process_cwd w) sp = Return sp' ->
  fs_files w !! sp' = None ->
  let w' := with_trace (trace w ++ [E_readFileSync sp']) w in
  encryptEnvFile sp op kv w = (Throw (SystemError (js "ENOENT")), w')
  /\ decryptEnvFile sp kv w = (Throw (SystemError (js "ENOENT")), w')
  /\ is_EnvCryptoError (SystemError (js "ENOENT")) = false.
Proof.
  intros HK HK' Hsp Hf. destruct w as [en c f dn et p hp t].
  cbn [process_env process_cwd fs_files] in *.
  rewrite encryptEnvFile_eq, decryptEnvFile_eq, HK.
  destruct K as [|k0 K']; [done|]. by rewrite Hsp, Hf.
Qed.

(** X5. [encryptEnvFile] changes at most one file, and that file lies in
    the working directory: a call that throws leaves every file as it was, a
    call that returns has written at the validated output path and nowhere
    else. [process.env] is not changed. *)
Theorem encryptEnvFile_writes_inside_only w cs sp op kv :
  process_cwd w = path.abs_path cs -> Forall path.clean_seg cs ->
  let r := encryptEnvFile sp op kv w in
  process_env r.2 = process_env w
  /\ (forall e, r.1 = Throw e -> fs_files r.2 = fs_files w)
  /\ (r.1 = Return tt ->
      exists down text,
        Forall path.clean_seg down
        /\ validate (process_cwd w) op = Return (path.abs_path (cs ++ down))
        /\ fs_files r.2 = <[path.abs_path (cs ++ down) := text]> (fs_files w)).
Proof.
  intros Hw Hcs. destruct w as [e c f dn en p hp t].
  cbn [process_cwd] in Hw. subst c. cbv zeta.
  rewrite encryptEnvFile_eq. cbv zeta. cbn [process_env process_cwd fs_files].
  destruct (e !! kv) as [[|k0 K']|]; [| |repeat case_match];
    cbn [fst snd process_env fs_files];
    try (split; [done|]; split; [done|]; intros Hx; discriminate Hx).
  destruct (validate (path.abs_path cs) sp) as [sp'|err];
    cbn [fst snd process_env fs_files];
    try (split; [done|]; split; [done|]; intros Hx; discriminate Hx).
  destruct (f !! sp') as [P|]; cbn [fst snd process_env fs_files];
    try (split; [done|]; split; [done|]; intros Hx; discriminate Hx).
  destruct (_ && _); cbn [fst snd process_env fs_files];
    try (split; [done|]; split; [done|]; intros Hx; discriminate Hx).
  destruct (validate (path.abs_path cs) op) as [op'|err] eqn:Hop;
    cbn [fst snd process_env fs_files];
    try (split; [done|]; split; [done|]; intros Hx; discriminate Hx).
  case_bool_decide; cbn [fst snd process_env fs_files];
    try (split; [done|]; split; [done|]; intros Hx; discriminate Hx).
  split; [done|]. split; [intros ? Hx; discriminate Hx|]. intros _.
  destruct (validate_inside cs op op' Hcs Hop) as (_ & down & Hd & -> & _).
  by exists down,
            (container (k0 :: K') P (map en (seq p 16)) (map en (seq (p + 16) 16))).
Qed.

(** X6. [decryptEnvFile] only reads: whatever it returns or throws, the
    files, [process.env], the working directory and the random source are
    as before, and the calls it made are at most one read of the validated
    path, one key derivation and one decipher. *)
Theorem decryptEnvFile_read_only w sp kv :
  let w' := (decryptEnvFile sp kv w).2 in
  fs_files w' = fs_files w /\ process_env w' = process_env w
  /\ entropy_pos w' = entropy_pos w
  /\ process_cwd w' = process_cwd w /\ fs_denied w' = fs_denied w
  /\ exists added,
       trace w' = trace w ++ added
       /\ (added = []
           \/ exists sp', validate (process_cwd w) sp = Return sp'
                /\ (added = [E_readFileSync sp']
                    \/ added = [E_readFileSync sp'; E_scryptSync]
                    \/ added = [E_readFileSync sp'; E_scryptSync;
                                E_createDecipheriv])).
Proof. apply decrypt_keeps_world. Qed.

(** X11. A file that parses but is no complete container: on [null] the
    reading of [salt] throws a [TypeError]; on any other value with one of
    the four fields absent or falsy (the empty string, [0], [false],
    [null]) the call throws [INVALID_FORMAT]. Nothing but the read has
    happened. *)
Theorem incomplete_container_rejected w sp kv K sp' text data :
  process_env w !! kv = Some K -> K <> [] ->
  validate (process_cwd w) sp = Return sp' ->
  fs_files w !! sp' = Some text ->
  JSON_parse text = Return data ->
  let w' := with_trace (trace w ++ [E_readFileSync sp']) w in
  (data = JNull ->
   decryptEnvFile sp kv w
   = (Throw (TypeError (js "Cannot read properties of null")), w'))
  /\ (data <> JNull ->
      (exists name, name ∈ [js "salt"; js "iv"; js "content"; js "authTag"]
                    /\ truthy (property data name) = false) ->
      decryptEnvFile sp kv w = (Throw invalid_format, w')).
Proof.
  intros HK HK' Hsp Hf Hparse. destruct w as [e c f dn en p hp t].
  cbn [process_env process_cwd fs_files] in *. cbv zeta.
  rewrite decryptEnvFile_eq, HK. destruct K as [|k0 K']; [done|].
  rewrite Hsp, Hf, Hparse. split.
  - by intros ->.
  - intros Hnn (name & Hin & Hfalsy).
    assert (Hg : get_property data (js "salt") = Return (property data (js "salt")))
      by (by destruct data).
    rewrite Hg. cbv zeta.
    assert (Hor : negb (truthy (property data (js "salt")))
                  || negb (truthy (property data (js "iv")))
                  || negb (truthy (property data (js "content")))
                  || negb (truthy (property data (js "authTag"))) = true).
    { rewrite !elem_of_cons in Hin.
      destruct Hin as [-> | [-> | [-> | [-> | Hin]]]];
        [..|by apply elem_of_nil in Hin]; rewrite Hfalsy; cbn [negb];
        by rewrite ?orb_true_r. }
    by rewrite Hor.
Qed.

End engine_effects.

Section container_properties.
Context `{Crypto} `{!CryptoLaws H}.

(** X9. The file a successful [encryptEnvFile] writes, with mode [0o600]:
    a JSON object of five strings, [version] being [1.0.0], [salt] and [iv]
    the hexadecimal form of the two draws of 16 bytes, [authTag] of 16
    bytes, and [content] of as many bytes as the UTF-8 form of the
    plaintext has. *)
Theorem encrypted_file_format w sp op kv K P sp' op' :
  process_env w !! kv = Some K -> K <> [] ->
  validate (process_cwd w) sp = Return sp' ->
  validate (process_cwd w) op = Return op' ->
  fs_files w !! sp' = Some P ->
  op' ∉ fs_denied w ->
  let r := encryptEnvFile sp op kv w in
  exists text content authTag,
    r.1 = Return tt
    /\ fs_files r.2 !! op' = Some text
    /\ E_writeFileSync op' text 384 ∈ trace r.2
    /\ JSON_parse text
       = Return (JObject [(js "version", JString (js "1.0.0"));
                          (js "salt", JString (toString_hex (enc_salt w)));
                          (js "iv", JString (toString_hex (enc_iv w)));
                          (js "content", JString (toString_hex content));
                          (js "authTag", JString (toString_hex authTag))])
    /\ length (enc_salt w) = 16%nat /\ length (enc_iv w) = 16%nat
    /\ length authTag = 16%nat
    /\ length content = length (utf8_encode P)
    /\ length (toString_hex content) = (2 * length (utf8_encode P))%nat.
Proof.
  intros HK HK' Hsp Hop HP Hden r. subst r.
  rewrite (encrypt_success w sp op kv K P sp' op') by done.
  exists (container K P (enc_salt w) (enc_iv w)),
         (ciphertext K P (enc_salt w) (enc_iv w)),
         (auth_tag K P (enc_salt w) (enc_iv w)).
  cbn [fst snd after_encrypt fs_files trace].
  split; [done|]. split; [apply lookup_insert_eq|]. split.
  { rewrite !elem_of_app. right. rewrite !elem_of_cons. auto 10. }
  split; [by rewrite container_eq, container_of_parse|].
  unfold enc_salt, enc_iv, drawn. rewrite !length_map, !length_seq.
  split; [done|]. split; [done|]. split; [apply gcm_tag_length|].
  assert (Hlen : length (ciphertext K P (map (entropy w) (seq (entropy_pos w) 16))
                    (map (entropy w) (seq (entropy_pos w + 16) 16)))
                 = length (utf8_encode P)).
  { unfold ciphertext. apply gcm_crypt_length. }
  split; [exact Hlen|]. by rewrite toString_hex_length, Hlen.
Qed.

(** X10. Round trip on a plaintext that is not empty: [encryptEnvFile]
    returns, and [decryptEnvFile] on the file it wrote, under the same
    passphrase, returns the parse of the plaintext. *)
Theorem decrypt_recovers_nonempty_plaintext w sp op kv K P sp' op' :
  process_env w !! kv = Some K -> K <> [] ->
  validate (process_cwd w) sp = Return sp' ->
  validate (process_cwd w) op = Return op' ->
  fs_files w !! sp' = Some P ->
  op' ∉ fs_denied w ->
  well_formed P = true -> P <> [] ->
  let sealed := encryptEnvFile sp op kv w in
  sealed.1 = Return tt
  /\ (decryptEnvFile op kv sealed.2).1 = Return (parse_env P).
Proof. apply roundtrip_nonempty. Qed.

End container_properties.

(** X12. [clearBuffer] fills the buffer with zeros in place: its length
    and the other buffers stay as they were; on [null] it does nothing. *)
Theorem clearBuffer_zeroes_in_place w b :
  let w' := (clearBuffer (Some b) w).2 in
  (clearBuffer (Some b) w).1 = Return tt
  /\ length (heap w') = length (heap w)
  /\ all_zero (buffer_data (heap w') b)
  /\ length (buffer_data (heap w') b) = length (buffer_data (heap w) b)
  /\ (forall b', b' <> b -> heap w' !! b' = heap w !! b')
  /\ clearBuffer None w = (Return tt, w).
Proof.
  cbv zeta. unfold clearBuffer, buffer_fill0. cbn [fst snd with_heap heap].
  split; [done|]. split; [apply length_alter|].
  unfold buffer_data. rewrite list_lookup_alter.
  destruct (decide (b = b)); [|done].
  split; [|split; [|split; [|done]]].
  - destruct (heap w !! b) as [[role d]|]; cbn; [apply all_zero_replicate|constructor].
  - destruct (heap w !! b) as [[role d]|]; cbn; [apply length_replicate|done].
  - intros b' Hne. rewrite list_lookup_alter. by destruct (decide (b = b')); [subst|].
Qed.

(** ** The pattern of the parser, on any line *)

Lemma re_match_seq a b pos s caps k :
  re_match (Re_seq a b) pos s caps k
  = re_match a pos s caps (fun pos' s' caps' => re_match b pos' s' caps' k).
Proof. reflexivity. Qed.

Lemma re_match_star a pos s caps k :
  re_match (Re_star a) pos s caps k = star_loop (re_match a) k (length s) pos s caps.
Proof. reflexivity. Qed.

Lemma re_match_class p pos s caps k :
  re_match (Re_class p) pos s caps k
  = match s with
    | c :: s' => if p c then k (S pos) s' caps else None
    | [] => None
    end.
Proof. reflexivity. Qed.

Lemma re_match_group i a pos s caps k :
  re_match (Re_group i a) pos s caps k
  = re_match a pos s caps
      (fun pos' s' caps' => k pos' s' (<[i := take (pos' - pos) s]> caps')).
Proof. reflexivity. Qed.

Lemma re_match_opt a pos s caps k :
  re_match (Re_opt a) pos s caps k
  = match re_match a pos s caps
            (fun pos' s' caps' =>
               if (length s' <? length s)%nat then k pos' s' caps' else None) with
    | Some c => Some c
    | None => k pos s caps
    end.
Proof. reflexivity. Qed.

Lemma re_match_bol pos s caps k :
  re_match Re_bol pos s caps k = if (pos =? 0)%nat then k pos s caps else None.
Proof. reflexivity. Qed.

Lemma re_match_eol pos s caps k :
  re_match Re_eol pos s caps k = match s with [] => k pos s caps | _ => None end.
Proof. reflexivity. Qed.

(** The greedy iteration: the class holds on [pre] and fails right after
    it, so the first try of [p*] takes the whole of [pre]. *)
Lemma star_loop_class_greedy p k pre post c : forall fuel pos caps,
  forallb p pre = true ->
  (length pre <= fuel)%nat ->
  match post with [] => True | x :: _ => p x = false end ->
  k (pos + length pre)%nat post caps = Some c ->
  star_loop (re_match (Re_class p)) k fuel pos (pre ++ post) caps = Some c.
Proof.
  induction pre as [|x pre IH]; intros fuel pos caps Hp Hfuel Hpost Hk.
  - cbn [length app] in *. rewrite Nat.add_0_r in Hk.
    destruct fuel as [|fuel]; [exact Hk|].
    cbn [star_loop]. rewrite re_match_class.
    destruct post as [|y post]; [exact Hk|]. by rewrite Hpost.
  - cbn [forallb] in Hp. apply andb_true_iff in Hp as [Hx Hp].
    destruct fuel as [|fuel]; [cbn in Hfuel; lia|].
    cbn [star_loop app]. rewrite re_match_class, Hx.
    assert (Hlt : (length (pre ++ post) <? length (x :: pre ++ post))%nat = true).
    { apply Nat.ltb_lt. cbn [length]. lia. }
    rewrite Hlt. rewrite (IH fuel (S pos) caps); try done.
    + cbn [length] in Hfuel. lia.
    + cbn [length] in Hk. by rewrite <- Nat.add_succ_comm in Hk.
Qed.

Lemma star_greedy p k pre post c pos caps :
  forallb p pre = true ->
  match post with [] => True | x :: _ => p x = false end ->
  k (pos + length pre)%nat post caps = Some c ->
  re_match (Re_star (Re_class p)) pos (pre ++ post) caps k = Some c.
Proof.
  intros. rewrite re_match_star. apply star_loop_class_greedy; try done.
  rewrite length_app. lia.
Qed.

Lemma is_key_not_space c : is_key_char c = true -> is_space c = false.
Proof.
  intros Hk. destruct (is_space c) eqn:Hs; [|done].
  apply is_space_not_key in Hs. congruence.
Qed.

Lemma not_any_is_space c : is_any c = false -> is_space c = true.
Proof.
  unfold is_any, is_space. rewrite negb_false_iff.
  rewrite !orb_true_iff, !andb_true_iff, !N.leb_le, !N.eqb_eq. lia.
Qed.

Lemma env_line_regex_matches ws1 key ws2 ws3 value tail :
  forallb is_space ws1 = true ->
  key <> [] -> forallb is_key_char key = true ->
  forallb is_space ws2 = true -> forallb is_space ws3 = true ->
  forallb is_any value = true ->
  match value with [] => tail = [] | v0 :: _ => is_space v0 = false end ->
  match tail with
  | [] => True
  | lt :: ws => is_any lt = false /\ forallb is_space ws = true
  end ->
  exists c,
    re_match env_line_regex 0%nat
      (ws1 ++ key ++ ws2 ++ 61 :: ws3 ++ value ++ tail) ∅ (fun _ _ c => Some c)
    = Some c
    /\ c !! 1%nat = Some key /\ default [] (c !! 2%nat) = value.
Proof.
  intros Hws1 Hne Hkey Hws2 Hws3 Hval Hv0 Htail.
  exists (match value with
          | [] => <[1%nat := key]> ∅
          | _ => <[2%nat := value]> (<[1%nat := key]> ∅)
          end).
  split; [|by destruct value].
  destruct key as [|x key]; [done|]. clear Hne.
  cbn [forallb] in Hkey. apply andb_true_iff in Hkey as [Hx Hkey].
  assert (Hsp_tail : forallb is_space tail = true).
  { destruct tail as [|lt ws]; [done|]. destruct Htail as [Hlt Hws].
    cbn [forallb]. by rewrite (not_any_is_space _ Hlt), Hws. }
  unfold env_line_regex, Re_plus.
  rewrite re_match_seq, re_match_bol. cbn [Nat.eqb].
  rewrite re_match_seq.
  apply star_greedy; [done|by apply is_key_not_space|]. cbv beta.
  rewrite re_match_seq, re_match_group, re_match_seq.
  cbn [app]. rewrite re_match_class, Hx.
  apply star_greedy; [done| |].
  { destruct ws2 as [|y ws2]; cbn [app]; [done|].
    cbn [forallb] in Hws2. apply andb_true_iff in Hws2 as [Hy _].
    by apply is_space_not_key. }
  cbv beta.
  rewrite re_match_seq.
  apply star_greedy; [done|done|]. cbv beta.
  rewrite re_match_seq, re_match_class. cbn [is_equals N.eqb Pos.eqb].
  rewrite re_match_seq.
  apply star_greedy; [done| |].
  { destruct value as [|v0 value]; [by subst tail|done]. }
  cbv beta. rewrite re_match_seq, re_match_opt.
  set (caps1 := <[1%nat := _]> ∅).
  assert (Hcaps1 : caps1 = <[1%nat := x :: key]> ∅).
  { subst caps1. f_equal.
    replace (S (0 + length ws1) + length key - (0 + length ws1))%nat
      with (S (length key)) by lia.
    cbn [take]. by rewrite take_app_length. }
  rewrite Hcaps1. clear caps1 Hcaps1.
  set (pos := (S (S (0 + length ws1) + length key + length ws2) + length ws3)%nat).
  clearbody pos.
  destruct value as [|v0 value].
  - subst tail. cbn [app].
    rewrite re_match_group, re_match_star. cbn [length star_loop Nat.ltb Nat.leb].
    rewrite re_match_seq, re_match_star. cbn [length star_loop].
    by rewrite re_match_eol.
  - rewrite re_match_group.
    rewrite (star_greedy is_any _ (v0 :: value) tail
               (<[2%nat := v0 :: value]> (<[1%nat := x :: key]> ∅))); [done|done| |].
    { destruct tail as [|lt ws]; [done|]. by destruct Htail. }
    cbv beta.
    assert (Hlt : (length tail <? length ((v0 :: value) ++ tail))%nat = true).
    { apply Nat.ltb_lt. rewrite length_app. cbn [length]. lia. }
    rewrite Hlt. rewrite re_match_seq.
    rewrite <- (app_nil_r tail) at 1.
    apply star_greedy; [done|done|]. cbv beta.
    rewrite re_match_eol. do 2 f_equal.
    replace (pos + length (v0 :: value) - pos)%nat with (length (v0 :: value)) by lia.
    by rewrite take_app_length.
Qed.

Lemma re_exec_first r s c :
  re_match r 0%nat s ∅ (fun _ _ c => Some c) = Some c -> re_exec r s = Some c.
Proof. intros Hm. unfold re_exec. destruct s; cbn [re_exec_from]; by rewrite Hm. Qed.

Lemma parse_env_line_assignment_gen envVars ws1 key ws2 ws3 value tail :
  forallb is_space ws1 = true ->
  key <> [] -> forallb is_key_char key = true ->
  forallb is_space ws2 = true -> forallb is_space ws3 = true ->
  forallb is_any value = true ->
  match value with [] => tail = [] | v0 :: _ => is_space v0 = false end ->
  match tail with
  | [] => True
  | lt :: ws => is_any lt = false /\ forallb is_space ws = true
  end ->
  parse_env_line envVars (ws1 ++ key ++ ws2 ++ 61 :: ws3 ++ value ++ tail)
  = set_property envVars key (unquote value).
Proof.
  intros Hws1 Hne Hkey Hws2 Hws3 Hval Hv0 Htail.
  destruct (env_line_regex_matches ws1 key ws2 ws3 value tail)
    as (c & Hm & H1 & H2); try done.
  unfold parse_env_line.
  assert (Hskip : jsstring_eqb (ws1 ++ key ++ ws2 ++ 61 :: ws3 ++ value ++ tail) []
                  || startsWith (ws1 ++ key ++ ws2 ++ 61 :: ws3 ++ value ++ tail)
                                (js "#") = false).
  { destruct ws1 as [|y ws1].
    - destruct key as [|x key]; [done|]. cbn [app forallb] in *.
      apply andb_true_iff in Hkey as [Hx _].
      unfold jsstring_eqb. rewrite bool_decide_eq_false_2 by done.
      cbn [orb]. change (js "#") with [35]. cbn [startsWith].
      destruct (N.eqb_spec 35 x) as [<-|]; [discriminate Hx|done].
    - cbn [app forallb] in *. apply andb_true_iff in Hws1 as [Hy _].
      unfold jsstring_eqb. rewrite bool_decide_eq_false_2 by done.
      cbn [orb]. change (js "#") with [35]. cbn [startsWith].
      destruct (N.eqb_spec 35 y) as [<-|]; [discriminate Hy|done]. }
  rewrite Hskip, (re_exec_first _ _ _ Hm), H1. by rewrite H2.
Qed.

Lemma star_sound p pos s caps k c :
  re_match (Re_star (Re_class p)) pos s caps k = Some c ->
  exists pre post, s = pre ++ post /\ forallb p pre = true
                   /\ k (pos + length pre)%nat post caps = Some c.
Proof. rewrite re_match_star. apply star_loop_class_sound. Qed.

(** What the pattern captures: a key made of key characters, and a value
    without line terminators. *)
Lemma env_line_match_captures pos line c :
  re_match env_line_regex pos line ∅ (fun _ _ c => Some c) = Some c ->
  exists key,
    c !! 1%nat = Some key /\ key <> [] /\ forallb is_key_char key = true
    /\ forallb is_any (default [] (c !! 2%nat)) = true.
Proof.
  unfold env_line_regex, Re_plus.
  rewrite re_match_seq, re_match_bol.
  destruct (pos =? 0)%nat; [|done].
  rewrite re_match_seq. intros Hm.
  apply star_sound in Hm as (ws1 & s1 & -> & _ & Hm). cbv beta in Hm.
  set (p1 := (pos + length ws1)%nat) in *. clearbody p1.
  rewrite re_match_seq, re_match_group, re_match_seq, re_match_class in Hm.
  destruct s1 as [|x s1]; [done|].
  destruct (is_key_char x) eqn:Hx; [|done].
  apply star_sound in Hm as (key & s2 & -> & Hkey & Hm). cbv beta in Hm.
  replace (S p1 + length key - p1)%nat with (S (length key)) in Hm by lia.
  cbn [take] in Hm. rewrite take_app_length in Hm.
  set (p2 := (S p1 + length key)%nat) in *. clearbody p2.
  rewrite re_match_seq in Hm.
  apply star_sound in Hm as (ws2 & s3 & -> & _ & Hm). cbv beta in Hm.
  set (p3 := (p2 + length ws2)%nat) in *. clearbody p3.
  rewrite re_match_seq, re_match_class in Hm.
  destruct s3 as [|y s3]; [done|].
  destruct (is_equals y); [|done].
  rewrite re_match_seq in Hm.
  apply star_sound in Hm as (ws3 & s4 & -> & _ & Hm). cbv beta in Hm.
  set (p4 := (S p3 + length ws3)%nat) in *. clearbody p4.
  rewrite re_match_seq, re_match_opt in Hm.
  set (caps1 := <[1%nat := x :: key]> ∅) in *.
  assert (Hrest : forall p s caps,
             re_match (Re_seq (Re_star (Re_class is_space)) Re_eol) p s caps
               (fun _ _ c => Some c) = Some c -> c = caps).
  { intros p s caps Hr. rewrite re_match_seq in Hr.
    apply star_sound in Hr as (ws & post & -> & _ & Hr). cbv beta in Hr.
    rewrite re_match_eol in Hr. destruct post; congruence. }
  exists (x :: key).
  assert (Hk' : forallb is_key_char (x :: key) = true).
  { cbn [forallb]. by rewrite Hx, Hkey. }
  destruct (re_match (Re_group 2 _) p4 s4 caps1 _) as [c'|] eqn:Hg.
  - assert (c' = c) as -> by congruence. clear Hm.
    rewrite re_match_group in Hg.
    apply star_sound in Hg as (v & s5 & -> & Hv & Hg). cbv beta in Hg.
    destruct (length s5 <? length (v ++ s5))%nat; [|done].
    apply Hrest in Hg. subst c.
    replace (p4 + length v - p4)%nat with (length v) by lia.
    rewrite take_app_length, lookup_insert_eq. cbn [default].
    rewrite lookup_insert_ne by done. subst caps1. by rewrite lookup_insert_eq.
  - apply Hrest in Hm. subst c caps1.
    rewrite lookup_insert_eq, lookup_insert_ne by done. by rewrite lookup_empty.
Qed.

Lemma re_exec_env_line_captures line c :
  re_exec env_line_regex line = Some c ->
  exists key,
    c !! 1%nat = Some key /\ key <> [] /\ forallb is_key_char key = true
    /\ forallb is_any (default [] (c !! 2%nat)) = true.
Proof.
  unfold re_exec.
  enough (Hall : forall pos, re_exec_from env_line_regex pos line = Some c ->
            exists key,
              c !! 1%nat = Some key /\ key <> [] /\ forallb is_key_char key = true
              /\ forallb is_any (default [] (c !! 2%nat)) = true) by apply Hall.
  induction line as [|x line IH]; intros pos.
  - cbn [re_exec_from].
    destruct (re_match _ _ _ _ _) as [c'|] eqn:Hm; [|done].
    intros [= ->]. by eapply env_line_match_captures.
  - cbn [re_exec_from].
    destruct (re_match env_line_regex pos (x :: line) ∅ _) as [c'|] eqn:Hm.
    + intros [= ->]. by eapply env_line_match_captures.
    + apply IH.
Qed.

Lemma forallb_take {A} (p : A -> bool) n l :
  forallb p l = true -> forallb p (take n l) = true.
Proof.
  revert n. induction l as [|x l IH]; intros [|n]; cbn; try done.
  intros Hx. apply andb_true_iff in Hx as [-> Hl]. by apply IH.
Qed.

Lemma forallb_drop {A} (p : A -> bool) n l :
  forallb p l = true -> forallb p (drop n l) = true.
Proof.
  revert n. induction l as [|x l IH]; intros [|n]; cbn; try done.
  intros Hx. apply andb_true_iff in Hx as [_ Hl]. by apply IH.
Qed.

Lemma unquote_keeps p value :
  forallb p value = true -> forallb p (unquote value) = true.
Proof.
  intros Hv. unfold unquote. case_match; [|done].
  unfold substring. by apply forallb_take, forallb_drop.
Qed.

Lemma parse_env_line_keeps envVars line :
  map_Forall parsed_record envVars ->
  map_Forall parsed_record (parse_env_line envVars line).
Proof.
  intros Hall. unfold parse_env_line. case_match; [done|].
  destruct (re_exec env_line_regex line) as [c|] eqn:Hm; [|done].
  destruct (re_exec_env_line_captures line c Hm) as (key & H1 & Hne & Hkey & Hval).
  rewrite H1. unfold set_property, jsstring_eqb. case_bool_decide; [done|].
  apply map_Forall_insert_2; [|done].
  repeat split; try done. by apply unquote_keeps.
Qed.

Lemma foldl_parse_env_line_keeps lines : forall envVars,
  map_Forall parsed_record envVars ->
  map_Forall parsed_record (foldl parse_env_line envVars lines).
Proof.
  induction lines as [|l lines IH]; intros envVars Hall; [done|].
  cbn [foldl]. by apply IH, parse_env_line_keeps.
Qed.

Lemma parse_env_records text : map_Forall parsed_record (parse_env text).
Proof. apply foldl_parse_env_line_keeps, map_Forall_empty. Qed.

Lemma re_exec_only_at_start r line :
  (forall pos s c, re_match r pos s ∅ (fun _ _ c => Some c) = Some c -> pos = 0%nat) ->
  re_match r 0%nat line ∅ (fun _ _ c => Some c) = None ->
  re_exec r line = None.
Proof.
  intros Hstart Hfirst. unfold re_exec.
  destruct line as [|x s]; cbn [re_exec_from]; rewrite Hfirst; [done|].
  apply re_exec_from_none. intros pos' s' Hpos.
  destruct (re_match r pos' s' _ _) eqn:Hm; [|done].
  apply Hstart in Hm. lia.
Qed.

Lemma re_exec_no_key ws x rest :
  forallb is_space ws = true -> is_space x = false -> is_key_char x = false ->
  re_exec env_line_regex (ws ++ x :: rest) = None.
Proof.
  intros Hws Hx Hk. apply re_exec_only_at_start.
  { intros pos s c Hm. by apply env_line_match_shape in Hm as [-> _]. }
  destruct (re_match _ _ _ _ _) eqn:Hm; [|done]. exfalso.
  apply env_line_match_shape in Hm
    as (_ & ws1 & y & key & ws2 & rest' & Heq & Hws1 & Hy).
  apply app_eq_inv in Heq as [(k & -> & Hk')|(k & -> & Hk')].
  - destruct k as [|z k]; cbn [app] in Hk'.
    + assert (y = x) as -> by congruence. congruence.
    + assert (y = z) as -> by congruence.
      rewrite forallb_app in Hws. cbn [forallb] in Hws.
      apply andb_true_iff in Hws as [_ Hws]. apply andb_true_iff in Hws as [Hsp _].
      apply is_space_not_key in Hsp. congruence.
  - destruct k as [|z k]; cbn [app] in Hk'.
    + assert (y = x) as -> by congruence. congruence.
    + assert (z = x) as -> by congruence.
      rewrite forallb_app in Hws1. cbn [forallb] in Hws1.
      apply andb_true_iff in Hws1 as [_ Hws1].
      apply andb_true_iff in Hws1 as [Hsp _]. congruence.
Qed.

Lemma space_no_equals ws : forallb is_space ws = true -> 61 ∉ ws.
Proof.
  intros Hws Hin. rewrite forallb_forall in Hws.
  apply list_elem_of_In in Hin. apply Hws in Hin. discriminate Hin.
Qed.

Lemma parse_env_line_blank envVars ws :
  forallb is_space ws = true -> parse_env_line envVars ws = envVars.
Proof. intros Hws. by apply parse_env_line_no_equals, space_no_equals. Qed.

Lemma parse_env_line_no_key envVars ws x rest :
  forallb is_space ws = true -> is_space x = false -> is_key_char x = false ->
  parse_env_line envVars (ws ++ x :: rest) = envVars.
Proof.
  intros Hws Hx Hk. unfold parse_env_line. case_match; [done|].
  by rewrite re_exec_no_key.
Qed.

(** X14. Blank lines and comments add no record: a line of white space
    only, and a line whose first character after the white space is neither
    white space nor a key character, [#] for one, leave the records as they
    are; a text made of such lines parses to no record at all. *)
Theorem comments_and_blank_lines_ignored :
  (forall envVars ws,
      forallb is_space ws = true -> parse_env_line envVars ws = envVars)
  /\ (forall envVars ws x rest,
        forallb is_space ws = true -> is_space x = false -> is_key_char x = false ->
        parse_env_line envVars (ws ++ x :: rest) = envVars)
  /\ (forall text,
        Forall (fun line => exists ws,
                    forallb is_space ws = true
                    /\ (line = ws \/ exists rest, line = ws ++ 35 :: rest))
               (split_on 10 text) ->
        parse_env text = ∅).
Proof.
  split; [apply parse_env_line_blank|]. split; [apply parse_env_line_no_key|].
  intros text. unfold parse_env. generalize (split_on 10 text).
  intros lines Hall. induction Hall as [|line lines (ws & Hws & Hl) _ IH]; [done|].
  cbn [foldl]. destruct Hl as [->|[rest ->]].
  - by rewrite parse_env_line_blank.
  - by rewrite parse_env_line_no_key.
Qed.

Lemma key_chars_no_newline key : forallb is_key_char key = true -> 10 ∉ key.
Proof.
  intros Hk Hin. rewrite forallb_forall in Hk.
  apply list_elem_of_In in Hin. apply Hk in Hin. discriminate Hin.
Qed.

Lemma any_no_newline value : forallb is_any value = true -> 10 ∉ value.
Proof.
  intros Hk Hin. rewrite forallb_forall in Hk.
  apply list_elem_of_In in Hin. apply Hk in Hin. discriminate Hin.
Qed.

Lemma parse_env_app text line :
  10 ∉ line ->
  parse_env (text ++ 10 :: line) = parse_env_line (parse_env text) line.
Proof.
  intros Hno. unfold parse_env.
  rewrite path_facts.split_on_app_gen, foldl_app.
  by rewrite (path_facts.split_on_clean 10 line).
Qed.

(** X13. An assignment line. White space around the key and after [=] is
    dropped; the value runs from the first character that is not white
    space to the end of the line or to the first line terminator, which
    only white space may follow, so that white space at the end of a line
    stays in the value while a carriage return does not; the value is then
    unquoted and stored under the key, unless the key is [__proto__]. *)
Theorem parse_env_line_assignment envVars ws1 key ws2 ws3 value tail :
  forallb is_space ws1 = true ->
  key <> [] -> forallb is_key_char key = true ->
  forallb is_space ws2 = true -> forallb is_space ws3 = true ->
  forallb is_any value = true ->
  match value with [] => tail = [] | v0 :: _ => is_space v0 = false end ->
  match tail with
  | [] => True
  | lt :: ws => is_any lt = false /\ forallb is_space ws = true
  end ->
  parse_env_line envVars (ws1 ++ key ++ ws2 ++ 61 :: ws3 ++ value ++ tail)
  = (if jsstring_eqb key (js "__proto__") then envVars
     else <[key := unquote value]> envVars).
Proof. apply parse_env_line_assignment_gen. Qed.

(** X16. A later assignment of a key replaces the earlier ones: the
    parse of a text followed by a line [key=value] is the parse of the text
    with the key set to the unquoted value. *)
Theorem later_assignment_wins text key value :
  key <> [] -> forallb is_key_char key = true -> key <> js "__proto__" ->
  forallb is_any value = true ->
  match value with [] => True | v0 :: _ => is_space v0 = false end ->
  parse_env (text ++ 10 :: key ++ 61 :: value)
  = <[key := unquote value]> (parse_env text).
Proof.
  intros Hne Hkey Hproto Hval Hv0.
  rewrite parse_env_app.
  2:{ rewrite elem_of_app, elem_of_cons.
      intros [Hin|[Hin|Hin]]; [by eapply key_chars_no_newline|done|
                                by eapply any_no_newline]. }
  pose proof (parse_env_line_assignment_gen (parse_env text) [] key [] [] value [])
    as Hline.
  cbn [app] in Hline. rewrite app_nil_r in Hline. rewrite Hline; try done.
  - unfold set_property, jsstring_eqb. by rewrite bool_decide_eq_false_2.
  - by destruct value.
Qed.

Lemma span_unique (p : N -> bool) a : forall a' b b',
  forallb p a = true -> forallb p a' = true ->
  match b with [] => True | x :: _ => p x = false end ->
  match b' with [] => True | x :: _ => p x = false end ->
  a ++ b = a' ++ b' -> a = a' /\ b = b'.
Proof.
  induction a as [|x a IH]; intros a' b b' Ha Ha' Hb Hb' Heq.
  - destruct a' as [|y a']; [done|]. cbn [app] in Heq. subst b.
    cbn [forallb] in Ha'. apply andb_true_iff in Ha' as [Hy _]. congruence.
  - cbn [forallb] in Ha. apply andb_true_iff in Ha as [Hx Ha].
    destruct a' as [|y a'].
    + cbn [app] in Heq. subst b'. congruence.
    + cbn [forallb] in Ha'. apply andb_true_iff in Ha' as [_ Ha'].
      injection Heq as -> Heq.
      destruct (IH a' b b' Ha Ha' Hb Hb' Heq) as [-> ->]. done.
Qed.

(** The parts of a line the pattern matches, up to its [=]. *)
Lemma env_line_match_parts pos line caps k c :
  re_match env_line_regex pos line caps k = Some c ->
  exists ws1 key ws2 rest,
    line = ws1 ++ key ++ ws2 ++ 61 :: rest
    /\ forallb is_space ws1 = true /\ key <> []
    /\ forallb is_key_char key = true /\ forallb is_space ws2 = true.
Proof.
  unfold env_line_regex, Re_plus.
  rewrite re_match_seq, re_match_bol.
  destruct (pos =? 0)%nat; [|done].
  rewrite re_match_seq. intros Hm.
  apply star_sound in Hm as (ws1 & s1 & -> & Hws1 & Hm). cbv beta in Hm.
  rewrite re_match_seq, re_match_group, re_match_seq, re_match_class in Hm.
  destruct s1 as [|x s1]; [done|].
  destruct (is_key_char x) eqn:Hx; [|done].
  apply star_sound in Hm as (key & s2 & -> & Hkey & Hm). cbv beta in Hm.
  rewrite re_match_seq in Hm.
  apply star_sound in Hm as (ws2 & s3 & -> & Hws2 & Hm). cbv beta in Hm.
  rewrite re_match_seq, re_match_class in Hm.
  destruct s3 as [|y s3]; [done|].
  destruct (is_equals y) eqn:Hy; [|done]. apply N.eqb_eq in Hy as ->.
  exists ws1, (x :: key), ws2, s3. repeat split; try done.
  cbn [forallb]. by rewrite Hx, Hkey.
Qed.

Lemma re_exec_key_without_equals ws1 key ws2 x rest :
  forallb is_space ws1 = true -> key <> [] -> forallb is_key_char key = true ->
  forallb is_space ws2 = true -> x <> 61 -> is_space x = false ->
  (ws2 = [] -> is_key_char x = false) ->
  re_exec env_line_regex (ws1 ++ key ++ ws2 ++ x :: rest) = None.
Proof.
  intros Hws1 Hne Hkey Hws2 Hx Hsp Hkx. apply re_exec_only_at_start.
  { intros pos s c Hm. by apply env_line_match_shape in Hm as [-> _]. }
  destruct (re_match _ _ _ _ _) eqn:Hm; [|done]. exfalso.
  apply env_line_match_parts in Hm
    as (ws1' & key' & ws2' & rest' & Heq & Hws1' & Hne' & Hkey' & Hws2').
  apply (span_unique is_space) in Heq as [<- Heq]; try done.
  2:{ destruct key as [|k0 key]; [done|]. cbn [app forallb] in *.
      apply andb_true_iff in Hkey as [Hk0 _]. by apply is_key_not_space. }
  2:{ destruct key' as [|k0 key']; [done|]. cbn [app forallb] in *.
      apply andb_true_iff in Hkey' as [Hk0 _]. by apply is_key_not_space. }
  apply (span_unique is_key_char) in Heq as [<- Heq]; try done.
  2:{ destruct ws2 as [|y ws2]; cbn [app]; [by apply Hkx|].
      cbn [forallb] in Hws2. apply andb_true_iff in Hws2 as [Hy _].
      by apply is_space_not_key. }
  2:{ destruct ws2' as [|y ws2']; cbn [app]; [done|].
      cbn [forallb] in Hws2'. apply andb_true_iff in Hws2' as [Hy _].
      by apply is_space_not_key. }
  apply (span_unique is_space) in Heq as [_ Heq]; try done.
  congruence.
Qed.

(** X27. A key that is not followed by [=]: when the first run of key
    characters of a line is followed, after white space or at once, by a
    character other than [=], the line adds no record, whatever comes
    after; so it is with [export FOO=bar] and with [MY KEY=1]. *)
Theorem parse_env_line_key_without_equals envVars ws1 key ws2 x rest :
  forallb is_space ws1 = true -> key <> [] -> forallb is_key_char key = true ->
  forallb is_space ws2 = true -> x <> 61 -> is_space x = false ->
  (ws2 = [] -> is_key_char x = false) ->
  parse_env_line envVars (ws1 ++ key ++ ws2 ++ x :: rest) = envVars.
Proof.
  intros. unfold parse_env_line. case_match; [done|].
  by rewrite re_exec_key_without_equals.
Qed.

Section returned_records.
Context `{Crypto}.

Lemma decryptEnvFile_returns_parse w sp kv vars :
  (decryptEnvFile sp kv w).1 = Return vars -> exists text, vars = parse_env text.
Proof.
  destruct w as [e c f dn en p hp t]. rewrite decryptEnvFile_eq. cbv zeta.
  repeat case_match; cbn [fst]; intros Hx; try discriminate Hx.
  injection Hx as <-. by eexists.
Qed.

(** X15. Every record of a parse, and so of every mapping
    [decryptEnvFile] returns, has a key that is not empty, is made of
    letters, digits, [_], [.] and [-] and is not [__proto__], and a value
    without line terminators. *)
Theorem decryptEnvFile_returns_valid_records w sp kv vars key value :
  (decryptEnvFile sp kv w).1 = Return vars ->
  vars !! key = Some value ->
  parsed_record key value.
Proof.
  intros Hdec Hkv.
  apply decryptEnvFile_returns_parse in Hdec as [text ->].
  by apply (parse_env_records text).
Qed.

End returned_records.

Section four_fields.
Context `{Crypto}.

(** X28. Of a container [decryptEnvFile] reads the four fields [salt],
    [iv], [content] and [authTag] and nothing else: two files that parse to
    objects with the same four fields, whatever their [version] and their
    other members, give the same outcome, the same buffers and the same
    calls. *)
Theorem decryptEnvFile_reads_four_fields w sp kv sp' text1 text2 ms1 ms2 :
  validate (process_cwd w) sp = Return sp' ->
  fs_files w !! sp' = Some text1 ->
  JSON_parse text1 = Return (JObject ms1) ->
  JSON_parse text2 = Return (JObject ms2) ->
  (forall name, name ∈ [js "salt"; js "iv"; js "content"; js "authTag"] ->
                lookup_member name ms1 = lookup_member name ms2) ->
  let r1 := decryptEnvFile sp kv w in
  let r2 := decryptEnvFile sp kv (with_files (<[sp' := text2]> (fs_files w)) w) in
  r1.1 = r2.1 /\ heap r1.2 = heap r2.2 /\ trace r1.2 = trace r2.2.
Proof.
  intros Hsp Hf Hp1 Hp2 Hsame. destruct w as [e c f dn en p hp t].
  cbn [process_cwd fs_files with_files process_env fs_denied entropy entropy_pos
       heap trace] in *. cbv zeta.
  unfold with_files.
  cbn [process_cwd fs_files process_env fs_denied entropy entropy_pos heap trace].
  rewrite !decryptEnvFile_eq.
  destruct (e !! kv) as [[|k0 K']|]; [done| |case_bool_decide; [|done]].
  all: rewrite Hsp, Hf, lookup_insert_eq, Hp1, Hp2.
  all: cbn [get_property property]; cbv zeta.
  all: rewrite <- !Hsame by (rewrite !elem_of_cons; auto 10).
  all: repeat case_match; done.
Qed.

End four_fields.

(** ** The loader *)

Example processEnvValue_examples :
  processEnvValue (js "123") = V_number (Finite false 123 0)
  /\ processEnvValue (js "-12.50") = V_number (Finite true 25 (-1))
  /\ processEnvValue (js "0.1") = V_number (Finite false 3602879701896397 (-55))
  /\ processEnvValue (js "9007199254740993") = V_number (Finite false 1 53)
  /\ processEnvValue (js "-0") = V_number (Finite true 0 0)
  /\ processEnvValue (1 + 48 :: repeat 48 400) = V_number (Infinity false)
  /\ processEnvValue (js "0." ++ repeat 48 400 ++ js "1") = V_number (Finite false 0 0)
  /\ processEnvValue (js "hello,world") = V_array [js "hello"; js "world"]
  /\ processEnvValue (js " a , b,,") = V_array [js "a"; js "b"; []; []]
  /\ processEnvValue (js "1,2") = V_array [js "1"; js "2"]
  /\ processEnvValue (js "extra") = V_string (js "extra")
  /\ processEnvValue (js "1e3") = V_string (js "1e3")
  /\ processEnvValue (js ".5") = V_string (js ".5")
  /\ processEnvValue (js "5.") = V_string (js "5.")
  /\ processEnvValue [] = V_string [].
Proof. repeat split; vm_compute; reflexivity. Qed.

Lemma digit_not_minus c : is_digit c = true -> is_minus c = false.
Proof.
  unfold is_digit, is_minus. rewrite andb_true_iff, !N.leb_le, N.eqb_neq. lia.
Qed.

Lemma digit_not_dot c : is_digit c = true -> is_dot c = false.
Proof.
  unfold is_digit, is_dot. rewrite andb_true_iff, !N.leb_le, N.eqb_neq. lia.
Qed.

Lemma numeric_tail_matches pos caps ids fds :
  ids <> [] -> forallb is_digit ids = true -> forallb is_digit fds = true ->
  exists c,
    re_match (Re_seq (Re_plus (Re_class is_digit))
                (Re_seq (Re_opt (Re_group 1 (Re_seq (Re_class is_dot)
                                               (Re_plus (Re_class is_digit)))))
                        Re_eol))
      pos (ids ++ match fds with [] => [] | _ => 46 :: fds end) caps
      (fun _ _ c => Some c) = Some c.
Proof.
  intros Hne Hids Hfds. destruct ids as [|d0 ids]; [done|].
  cbn [forallb] in Hids. apply andb_true_iff in Hids as [Hd0 Hids].
  unfold Re_plus. rewrite re_match_seq, re_match_seq. cbn [app].
  rewrite re_match_class, Hd0.
  destruct fds as [|f0 fds].
  - eexists. apply star_greedy; [done|done|]. cbv beta.
    rewrite re_match_seq, re_match_opt, re_match_group, re_match_seq, re_match_class.
    by rewrite re_match_eol.
  - cbn [forallb] in Hfds. apply andb_true_iff in Hfds as [Hf0 Hfds].
    eexists. apply star_greedy; [done|done|]. cbv beta.
    rewrite re_match_seq, re_match_opt, re_match_group, re_match_seq, re_match_class.
    cbn [is_dot N.eqb Pos.eqb]. rewrite re_match_seq, re_match_class, Hf0.
    rewrite <- (app_nil_r fds) at 1.
    erewrite star_greedy; [reflexivity|done|done|]. cbv beta.
    cbn [length Nat.ltb Nat.leb]. by rewrite re_match_eol.
Qed.

Lemma numeric_regex_complete negative ids fds value :
  decimal_literal negative ids fds value -> re_test numeric_regex value = true.
Proof.
  intros (-> & Hne & Hids & Hfds). unfold re_test.
  destruct (numeric_tail_matches (if negative then 1 else 0)%nat ∅ ids fds)
    as (c & Hc); try done.
  enough (Hm : re_match numeric_regex 0%nat
                 ((if negative then [45] else []) ++ ids
                  ++ match fds with [] => [] | _ => 46 :: fds end) ∅
                 (fun _ _ c => Some c) = Some c)
    by (by rewrite (re_exec_first _ _ _ Hm)).
  unfold numeric_regex. rewrite re_match_seq, re_match_bol. cbn [Nat.eqb].
  rewrite re_match_seq, re_match_opt, re_match_class.
  destruct negative; cbn [app].
  - cbn [is_minus N.eqb Pos.eqb].
    cbn [length]. rewrite (proj2 (Nat.ltb_lt _ _)) by lia. by rewrite Hc.
  - destruct ids as [|d0 ids]; [done|]. cbn [app forallb] in *.
    apply andb_true_iff in Hids as [Hd0 _].
    by rewrite (digit_not_minus _ Hd0).
Qed.

Lemma numeric_tail_sound pos caps s c :
  re_match (Re_seq (Re_plus (Re_class is_digit))
              (Re_seq (Re_opt (Re_group 1 (Re_seq (Re_class is_dot)
                                             (Re_plus (Re_class is_digit)))))
                      Re_eol))
    pos s caps (fun _ _ c => Some c) = Some c ->
  exists ids fds,
    s = ids ++ match fds with [] => [] | _ => 46 :: fds end
    /\ ids <> [] /\ forallb is_digit ids = true /\ forallb is_digit fds = true.
Proof.
  unfold Re_plus. rewrite re_match_seq, re_match_seq, re_match_class.
  destruct s as [|d0 s]; [done|].
  destruct (is_digit d0) eqn:Hd0; [|done]. intros Hm.
  apply star_sound in Hm as (ids & s2 & -> & Hids & Hm). cbv beta in Hm.
  rewrite re_match_seq, re_match_opt in Hm.
  assert (Hd : forallb is_digit (d0 :: ids) = true).
  { cbn [forallb]. by rewrite Hd0, Hids. }
  destruct (re_match (Re_group 1 _) _ s2 caps _) as [c'|] eqn:Hg.
  - clear Hm. rewrite re_match_group, re_match_seq, re_match_class in Hg.
    destruct s2 as [|y s2]; [done|].
    destruct (is_dot y) eqn:Hy; [|done]. apply N.eqb_eq in Hy as ->.
    rewrite re_match_seq, re_match_class in Hg.
    destruct s2 as [|f0 s2]; [done|].
    destruct (is_digit f0) eqn:Hf0; [|done].
    apply star_sound in Hg as (fds & s3 & -> & Hfds & Hg). cbv beta in Hg.
    destruct (length s3 <? _)%nat; [|done].
    rewrite re_match_eol in Hg. destruct s3; [|done].
    exists (d0 :: ids), (f0 :: fds). rewrite app_nil_r.
    repeat split; try done. cbn [forallb]. by rewrite Hf0, Hfds.
  - rewrite re_match_eol in Hm. destruct s2; [|done].
    by exists (d0 :: ids), [].
Qed.

Lemma numeric_regex_sound value :
  re_test numeric_regex value = true ->
  exists negative ids fds, decimal_literal negative ids fds value.
Proof.
  unfold re_test. destruct (re_exec numeric_regex value) as [c|] eqn:Hex; [|done].
  intros _.
  assert (Hm : exists c, re_match numeric_regex 0%nat value ∅ (fun _ _ c => Some c)
                         = Some c).
  { destruct (re_match numeric_regex 0%nat value ∅ _) as [c'|] eqn:Hm; [by eexists|].
    rewrite re_exec_only_at_start in Hex; [done| |done].
    intros pos s c'. unfold numeric_regex. rewrite re_match_seq, re_match_bol.
    destruct (Nat.eqb_spec pos 0); done. }
  clear c Hex. destruct Hm as [c Hm].
  unfold numeric_regex in Hm.
  rewrite re_match_seq, re_match_bol in Hm. cbn [Nat.eqb] in Hm.
  rewrite re_match_seq, re_match_opt, re_match_class in Hm.
  destruct value as [|c0 value].
  { apply numeric_tail_sound in Hm as (ids & fds & Heq & Hne & _).
    destruct ids; [done|]. discriminate Heq. }
  destruct (is_minus c0) eqn:Hc0.
  - apply N.eqb_eq in Hc0 as ->.
    cbn [length] in Hm. destruct (length value <? S (length value))%nat.
    + destruct (re_match _ 1%nat value ∅ (fun _ _ c => Some c)) as [c'|] eqn:Ht.
      * apply numeric_tail_sound in Ht as (ids & fds & -> & Hne & Hids & Hfds).
        by exists true, ids, fds.
      * apply numeric_tail_sound in Hm as (ids & fds & Heq & Hne & Hids & Hfds).
        destruct ids as [|d0 ids]; [done|].
        cbn [app forallb] in *. apply andb_true_iff in Hids as [Hd0 _].
        assert (d0 = 45) as -> by congruence. discriminate Hd0.
    + apply numeric_tail_sound in Hm as (ids & fds & Heq & Hne & Hids & Hfds).
      destruct ids as [|d0 ids]; [done|].
      cbn [app forallb] in *. apply andb_true_iff in Hids as [Hd0 _].
      assert (d0 = 45) as -> by congruence. discriminate Hd0.
  - apply numeric_tail_sound in Hm as (ids & fds & -> & Hne & Hids & Hfds).
    by exists false, ids, fds.
Qed.

Lemma take_digits_app ids rest :
  forallb is_digit ids = true ->
  match rest with [] => True | x :: _ => is_digit x = false end ->
  take_digits (ids ++ rest) = (map (fun c => c - 48) ids, rest).
Proof.
  intros Hids Hrest. induction ids as [|d ids IH]; cbn [app map].
  - destruct rest as [|x rest]; [done|]. cbn [take_digits]. by rewrite Hrest.
  - cbn [forallb] in Hids. apply andb_true_iff in Hids as [Hd Hids].
    cbn [take_digits]. by rewrite Hd, IH.
Qed.

Lemma Number_decimal negative ids fds value :
  decimal_literal negative ids fds value ->
  Number value
  = nearest_double negative (digits_value (map (fun c => c - 48) (ids ++ fds)))
                   (10 ^ N.of_nat (length fds)).
Proof.
  intros (-> & Hne & Hids & Hfds). unfold Number.
  assert (Hsign : match (if negative then [45] else []) ++ ids
                        ++ match fds with [] => [] | _ => 46 :: fds end with
                  | 45 :: r => (true, r)
                  | _ => (false, (if negative then [45] else []) ++ ids
                                 ++ match fds with [] => [] | _ => 46 :: fds end)
                  end
                  = (negative, ids ++ match fds with [] => [] | _ => 46 :: fds end)).
  { destruct negative; [done|]. destruct ids as [|d0 ids]; [done|].
    cbn [app forallb] in *. apply andb_true_iff in Hids as [Hd0 _].
    destruct (N.eq_dec d0 45) as [->|Hne']; [discriminate Hd0|].
    destruct d0 as [|p]; [done|].
    do 6 (destruct p as [p|p|]; try done). }
  rewrite Hsign. rewrite take_digits_app; [|done|by destruct fds].
  destruct fds as [|f0 fds].
  - by rewrite !app_nil_r.
  - assert (Htd : take_digits (f0 :: fds)
                  = (map (fun c => c - 48) (f0 :: fds), [])).
    { rewrite <- (app_nil_r (f0 :: fds)) at 1. by apply take_digits_app. }
    rewrite Htd. cbn [fst]. by rewrite length_map, map_app.
Qed.

Lemma decimal_literal_no_comma negative ids fds value :
  decimal_literal negative ids fds value -> comma ∉ value.
Proof.
  intros (-> & _ & Hids & Hfds) Hin.
  assert (Hd : forall l, forallb is_digit l = true -> comma ∉ l).
  { intros l Hl Hc. rewrite forallb_forall in Hl.
    apply list_elem_of_In, Hl in Hc. discriminate Hc. }
  rewrite !elem_of_app in Hin. destruct Hin as [Hin|[Hin|Hin]].
  - destruct negative; [|by apply elem_of_nil in Hin].
    apply list_elem_of_singleton in Hin. discriminate Hin.
  - by apply (Hd ids).
  - destruct fds as [|f0 fds]; [by apply elem_of_nil in Hin|].
    apply elem_of_cons in Hin as [Hin|Hin]; [discriminate Hin|].
    by apply (Hd (f0 :: fds)).
Qed.

Lemma scaled_eq n d e :
  scaled n d e = (n * 2 ^ Z.to_N (- e), d * 2 ^ Z.to_N e).
Proof.
  unfold scaled. destruct (Z.leb_spec 0 e).
  - replace (Z.to_N (- e)) with 0 by lia. by rewrite N.pow_0_r, N.mul_1_r.
  - replace (Z.to_N e) with 0 by lia. by rewrite N.pow_0_r, N.mul_1_r.
Qed.

Lemma pow2_pos x : 0 < 2 ^ x.
Proof. apply N.neq_0_lt_0, N.pow_nonzero. lia. Qed.

Lemma pow_ratio_lt n d x1 y1 x2 y2 :
  n * 2 ^ x1 < d * 2 ^ y1 -> y1 + x2 <= y2 + x1 -> n * 2 ^ x2 < d * 2 ^ y2.
Proof.
  intros Hlt Hle.
  apply (N.mul_lt_mono_pos_r (2 ^ x1)); [apply pow2_pos|].
  apply N.lt_le_trans with (d * 2 ^ y1 * 2 ^ x2).
  - replace (n * 2 ^ x2 * 2 ^ x1) with (n * 2 ^ x1 * 2 ^ x2) by lia.
    apply N.mul_lt_mono_pos_r; [apply pow2_pos|done].
  - rewrite <- !N.mul_assoc, <- !N.pow_add_r.
    apply N.mul_le_mono_l, N.pow_le_mono_r; lia.
Qed.

Lemma pow_ratio_le n d x1 y1 x2 y2 :
  d * 2 ^ y1 <= n * 2 ^ x1 -> y2 + x1 <= y1 + x2 -> d * 2 ^ y2 <= n * 2 ^ x2.
Proof.
  intros Hle Hexp.
  apply (N.mul_le_mono_pos_r _ _ (2 ^ x1)); [apply pow2_pos|].
  apply N.le_trans with (d * 2 ^ y1 * 2 ^ x2).
  - rewrite <- !N.mul_assoc, <- !N.pow_add_r.
    apply N.mul_le_mono_l, N.pow_le_mono_r; lia.
  - replace (n * 2 ^ x2 * 2 ^ x1) with (n * 2 ^ x1 * 2 ^ x2) by lia.
    by apply N.mul_le_mono_r.
Qed.

(** [n / d] lies between [2 ^ (l - 1)] and [2 ^ (l + 1)], [l] being the
    difference of the binary logarithms. *)
Lemma ratio_upper n d x y :
  n <> 0 -> d <> 0 ->
  (Z.of_N y - Z.of_N x = Z.of_N (N.log2 n) - Z.of_N (N.log2 d) + 1)%Z ->
  n * 2 ^ x < d * 2 ^ y.
Proof.
  intros Hn Hd Hxy.
  destruct (N.log2_spec n) as [_ Hhi]; [lia|].
  destruct (N.log2_spec d) as [Hlo _]; [lia|].
  apply N.lt_le_trans with (2 ^ N.succ (N.log2 n) * 2 ^ x).
  - apply N.mul_lt_mono_pos_r; [apply pow2_pos|done].
  - apply N.le_trans with (2 ^ N.log2 d * 2 ^ y).
    + rewrite <- !N.pow_add_r. apply N.pow_le_mono_r; lia.
    + by apply N.mul_le_mono_r.
Qed.

Lemma ratio_lower n d x y :
  n <> 0 -> d <> 0 ->
  (Z.of_N y - Z.of_N x = Z.of_N (N.log2 n) - Z.of_N (N.log2 d) - 1)%Z ->
  d * 2 ^ y <= n * 2 ^ x.
Proof.
  intros Hn Hd Hxy.
  destruct (N.log2_spec n) as [Hlo _]; [lia|].
  destruct (N.log2_spec d) as [_ Hhi]; [lia|].
  apply N.le_trans with (2 ^ N.succ (N.log2 d) * 2 ^ y).
  - apply N.mul_le_mono_r. lia.
  - apply N.le_trans with (2 ^ N.log2 n * 2 ^ x).
    + rewrite <- !N.pow_add_r. apply N.pow_le_mono_r; lia.
    + by apply N.mul_le_mono_r.
Qed.

(** In units of [2 ^ last_bit n d] the quotient [n / d] is below [2 ^ 53],
    and it is [2 ^ 52] at least unless the unit is the smallest one. *)
Lemma last_bit_spec n d :
  n <> 0 -> d <> 0 ->
  let u := last_bit n d in
  let a := n * 2 ^ Z.to_N (- u) in
  let b := d * 2 ^ Z.to_N u in
  (-1074 <= u)%Z /\ a < 2 ^ 53 * b /\ (u = (-1074)%Z \/ 2 ^ 52 * b <= a).
Proof.
  intros Hn Hd. cbv zeta. unfold last_bit. rewrite scaled_eq.
  set (l := (Z.of_N (N.log2 n) - Z.of_N (N.log2 d))%Z).
  destruct (N.leb_spec (d * 2 ^ Z.to_N l) (n * 2 ^ Z.to_N (- l))) as [Hge|Hlt].
  - set (u := Z.max (l - 52) (-1074)%Z).
    split; [lia|]. split.
    + replace (2 ^ 53 * (d * 2 ^ Z.to_N u)) with (d * 2 ^ (Z.to_N u + 53))
        by (rewrite N.pow_add_r; lia).
      apply (pow_ratio_lt n d (Z.to_N (- (l + 1))) (Z.to_N (l + 1)));
        [apply ratio_upper; [done|done|fold l; lia]|lia].
    + destruct (Z.eq_dec u (-1074)%Z) as [|Hu]; [by left|right].
      replace (2 ^ 52 * (d * 2 ^ Z.to_N u)) with (d * 2 ^ (Z.to_N u + 52))
        by (rewrite N.pow_add_r; lia).
      apply (pow_ratio_le n d (Z.to_N (- l)) (Z.to_N l)); [done|lia].
  - set (u := Z.max (l - 1 - 52) (-1074)%Z).
    split; [lia|]. split.
    + replace (2 ^ 53 * (d * 2 ^ Z.to_N u)) with (d * 2 ^ (Z.to_N u + 53))
        by (rewrite N.pow_add_r; lia).
      apply (pow_ratio_lt n d (Z.to_N (- l)) (Z.to_N l)); [done|lia].
    + destruct (Z.eq_dec u (-1074)%Z) as [|Hu]; [by left|right].
      replace (2 ^ 52 * (d * 2 ^ Z.to_N u)) with (d * 2 ^ (Z.to_N u + 52))
        by (rewrite N.pow_add_r; lia).
      apply (pow_ratio_le n d (Z.to_N (- (l - 1))) (Z.to_N (l - 1)));
        [apply ratio_lower; [done|done|fold l; lia]|lia].
Qed.

(** [round_half_even a b] is an integer nearest to [a / b], and an even
    one when two are as near. *)
Lemma round_half_even_nearest a b :
  b <> 0 ->
  let M := round_half_even a b in
  2 * M * b <= 2 * a + b /\ 2 * a <= 2 * M * b + b
  /\ (2 * a = 2 * M * b + b \/ 2 * M * b = 2 * a + b -> N.even M = true).
Proof.
  intros Hb. cbv zeta. unfold round_half_even.
  pose proof (N.div_mod a b Hb) as Hdm.
  pose proof (N.mod_lt a b Hb) as Hr.
  set (q := a / b) in *. set (r := a mod b) in *.
  destruct (N.ltb_spec (2 * r) b) as [H1|H1].
  { split; [nia|]. split; [nia|]. intros [Ht|Ht]; nia. }
  destruct (N.ltb_spec b (2 * r)) as [H2|H2].
  { split; [nia|]. split; [nia|]. intros [Ht|Ht]; nia. }
  assert (Htie : 2 * r = b) by lia.
  destruct (N.even q) eqn:Hev.
  - split; [nia|]. split; [nia|]. done.
  - split; [nia|]. split; [nia|]. intros _.
    rewrite N.add_1_r, N.even_succ. by rewrite <- N.negb_even, Hev.
Qed.

Lemma odd_part_spec_le fuel : forall m e,
  m <> 0 -> m <= 2 ^ N.of_nat fuel ->
  exists m' e', odd_part fuel m e = (m', e') /\ N.odd m' = true
                /\ (e <= e')%Z /\ m = m' * 2 ^ Z.to_N (e' - e).
Proof.
  induction fuel as [|fuel IH]; intros m e Hm Hle.
  - cbn in Hle. assert (m = 1) as -> by lia.
    exists 1, e. cbn [odd_part]. split; [done|]. split; [done|]. split; [lia|].
    rewrite Z.sub_diag. done.
  - cbn [odd_part]. destruct (N.even m) eqn:Hev.
    + apply N.even_spec in Hev as [h ->].
      rewrite N.mul_comm, N.div_mul by lia.
      destruct (IH h (e + 1)%Z) as (m' & e' & Hop & Hodd & Hle' & Hval).
      * lia.
      * rewrite Nat2N.inj_succ, N.pow_succ_r' in Hle. lia.
      * exists m', e'. split; [done|]. split; [done|]. split; [lia|].
        replace (e' - e)%Z with (Z.succ (e' - (e + 1)))%Z by lia.
        rewrite Z2N.inj_succ by lia. rewrite N.pow_succ_r'. lia.
    + exists m, e. split; [done|]. split.
      * by rewrite <- N.negb_even, Hev.
      * split; [lia|]. rewrite Z.sub_diag. cbn. lia.
Qed.

(** What [nearest_double] gives: [M * 2 ^ u], where [2 ^ u] is the unit in
    the last place for [n / d] and [M] the integer nearest to [n / d] in
    that unit, written with an odd mantissa; an infinity when that is
    [2 ^ 1024] or more. *)
Lemma nearest_double_rounds negative n d :
  n <> 0 -> d <> 0 ->
  let u := last_bit n d in
  let M := round_half_even (n * 2 ^ Z.to_N (- u)) (d * 2 ^ Z.to_N u) in
  match nearest_double negative n d with
  | Finite s m e =>
      s = negative /\ (Z.of_N (N.log2 M) + u <= 1023)%Z
      /\ (M = 0 -> m = 0)
      /\ (M <> 0 -> N.odd m = true /\ (u <= e)%Z /\ m * 2 ^ Z.to_N (e - u) = M)
  | Infinity s => s = negative /\ (1023 < Z.of_N (N.log2 M) + u)%Z
  end.
Proof.
  intros Hn Hd. cbv zeta.
  destruct (last_bit_spec n d Hn Hd) as (Hu & Hhi & Hlo).
  assert (Hb : d * 2 ^ Z.to_N (last_bit n d) <> 0).
  { apply N.neq_mul_0. split; [done|]. apply N.pow_nonzero. lia. }
  destruct (round_half_even_nearest (n * 2 ^ Z.to_N (- last_bit n d)) _ Hb)
    as (Hup & Hdn & _).
  unfold nearest_double. destruct (N.eqb_spec n 0) as [|_]; [done|].
  rewrite scaled_eq.
  set (u := last_bit n d) in *.
  set (M := round_half_even _ _) in *.
  destruct (N.eqb_spec M 0) as [HM|HM].
  { rewrite HM in *. split; [done|]. split; [|done].
    destruct Hlo as [->|Hlo]; [done|]. exfalso.
    set (a := n * 2 ^ Z.to_N (- u)) in *. set (b := d * 2 ^ Z.to_N u) in *.
    lia. }
  assert (HM53 : M <= 2 ^ N.of_nat 53).
  { change (N.of_nat 53) with 53.
    set (a := n * 2 ^ Z.to_N (- u)) in *. set (b := d * 2 ^ Z.to_N u) in *.
    assert (Hlt : 2 * M * b < (2 * 2 ^ 53 + 1) * b) by lia.
    apply N.mul_lt_mono_pos_r in Hlt; lia. }
  destruct (odd_part_spec_le 53 M u HM HM53) as (m' & e' & -> & Hodd & Hle & Hval).
  assert (Hm' : 0 < m') by (destruct m'; [done|lia]).
  assert (Hlog : N.log2 M = Z.to_N (e' - u) + N.log2 m').
  { rewrite Hval. apply N.log2_mul_pow2; lia. }
  destruct (Z.ltb_spec 1023 (Z.of_N (N.log2 m') + e')) as [Hov|Hfin].
  - split; [done|lia].
  - split; [done|]. split; [lia|]. split; [done|]. done.
Qed.

Lemma round_half_even_1 a : round_half_even a 1 = a.
Proof.
  unfold round_half_even. rewrite N.div_1_r, N.mod_1_r. reflexivity.
Qed.

(** An integer below [2 ^ 53] is a double: [nearest_double] gives it as it
    is. *)
Lemma nearest_double_integer negative n :
  0 < n < 2 ^ 53 ->
  exists m e, nearest_double negative n 1 = Finite negative m e
              /\ (0 <= e)%Z /\ m * 2 ^ Z.to_N e = n.
Proof.
  intros [Hpos Hlt].
  assert (Hlog : N.log2 n < 53) by (by apply N.log2_lt_pow2).
  pose proof (N.log2_spec n Hpos) as [Hlo Hhi].
  unfold nearest_double.
  destruct (N.eqb_spec n 0) as [->|_]; [lia|].
  assert (Hlast : last_bit n 1 = (Z.of_N (N.log2 n) - 52)%Z).
  { unfold last_bit, scaled. change (N.log2 1) with 0. rewrite Z.sub_0_r.
    destruct (Z.leb_spec 0 (Z.of_N (N.log2 n))) as [_|Hneg]; [|lia].
    rewrite N2Z.id, N.mul_1_l.
    destruct (N.leb_spec (2 ^ N.log2 n) n) as [_|Hx]; [|lia]. lia. }
  rewrite Hlast.
  set (k := 52 - N.log2 n).
  assert (Hsc : scaled n 1 (Z.of_N (N.log2 n) - 52) = (n * 2 ^ k, 1)).
  { unfold scaled.
    destruct (Z.leb_spec 0 (Z.of_N (N.log2 n) - 52)) as [Hge|Hneg].
    - assert (Hk0 : k = 0) by (subst k; lia). rewrite Hk0.
      replace (Z.of_N (N.log2 n) - 52)%Z with 0%Z by lia.
      change (Z.to_N 0) with 0. by rewrite N.pow_0_r, !N.mul_1_r.
    - f_equal. f_equal. f_equal. subst k. lia. }
  rewrite Hsc, round_half_even_1.
  assert (Hm : n * 2 ^ k <> 0).
  { apply N.neq_mul_0. split; [lia|]. apply N.pow_nonzero. lia. }
  destruct (N.eqb_spec (n * 2 ^ k) 0) as [|_]; [done|].
  assert (Hm53 : n * 2 ^ k < 2 ^ N.of_nat 53).
  { change (N.of_nat 53) with 53.
    replace 53 with (N.succ (N.log2 n) + k) by (subst k; lia).
    rewrite N.pow_add_r. apply N.mul_lt_mono_pos_r; [|done].
    apply N.neq_0_lt_0, N.pow_nonzero. lia. }
  destruct (odd_part_spec_le 53 _ (Z.of_N (N.log2 n) - 52) Hm
              (N.lt_le_incl _ _ Hm53))
    as (m' & e' & -> & Hodd & Hle & Hval).
  assert (Hek : (e' - (Z.of_N (N.log2 n) - 52) = e' + Z.of_N k)%Z) by (subst k; lia).
  rewrite Hek in Hval.
  assert (He' : (0 <= e')%Z).
  { destruct (Z.le_gt_cases 0 e') as [|Hneg]; [done|]. exfalso.
    assert (Hk : k = Z.to_N (e' + Z.of_N k) + Z.to_N (- e')) by lia.
    rewrite Hk in Hval at 1. rewrite N.pow_add_r, N.mul_assoc in Hval.
    assert (Hval' : n * 2 ^ Z.to_N (- e') * 2 ^ Z.to_N (e' + Z.of_N k)
                    = m' * 2 ^ Z.to_N (e' + Z.of_N k)) by lia.
    apply N.mul_cancel_r in Hval'; [|apply N.pow_nonzero; lia].
    replace (Z.to_N (- e')) with (N.succ (Z.to_N (- e' - 1))) in Hval' by lia.
    rewrite N.pow_succ_r' in Hval'.
    assert (Hev : N.even m' = true).
    { apply N.even_spec. exists (n * 2 ^ Z.to_N (- e' - 1)). lia. }
    rewrite <- N.negb_even, Hev in Hodd. done. }
  assert (Hn : m' * 2 ^ Z.to_N e' = n).
  { rewrite Z2N.inj_add, N2Z.id, N.pow_add_r, N.mul_assoc in Hval by lia.
    apply N.mul_cancel_r in Hval; [done|]. apply N.pow_nonzero. lia. }
  assert (Hm' : 0 < m').
  { destruct m'; [done|lia]. }
  assert (Hfin : (1023 <? Z.of_N (N.log2 m') + e')%Z = false).
  { apply Z.ltb_ge.
    assert (N.log2 n = Z.to_N e' + N.log2 m')
      by (rewrite <- Hn; apply N.log2_mul_pow2; lia).
    lia. }
  rewrite Hfin. by exists m', e'.
Qed.

(** X17. The three kinds of [processEnvValue]: a decimal literal becomes a
    number, the double nearest to the decimal its digits denote, which for
    a literal without fraction below [2 ^ 53] is that integer itself; any
    value with a comma becomes an array, cut at the commas, each piece
    trimmed; every other value is returned as it is. A literal has no
    comma, so the three cases exclude each other. *)
Theorem processEnvValue_kinds value :
  (forall negative ids fds,
      decimal_literal negative ids fds value ->
      let digits := digits_value (map (fun c => c - 48) (ids ++ fds)) in
      processEnvValue value
      = V_number (nearest_double negative digits (10 ^ N.of_nat (length fds)))
      /\ (fds = [] -> 0 < digits < 2 ^ 53 ->
          exists m e, processEnvValue value = V_number (Finite negative m e)
                      /\ (0 <= e)%Z /\ m * 2 ^ Z.to_N e = digits))
  /\ (comma ∈ value ->
      processEnvValue value = V_array (map trim (split_on comma value)))
  /\ (comma ∉ value ->
      (forall negative ids fds, ~ decimal_literal negative ids fds value) ->
      processEnvValue value = V_string value).
Proof.
  split; [|split].
  - intros negative ids fds Hd digits. unfold processEnvValue.
    rewrite (numeric_regex_complete _ _ _ _ Hd).
    rewrite (Number_decimal _ _ _ _ Hd). fold digits. split; [done|].
    intros -> Hlt. cbn [length N.of_nat]. rewrite N.pow_0_r.
    destruct (nearest_double_integer negative digits Hlt) as (m & e & -> & He & Hm).
    by exists m, e.
  - intros Hc. unfold processEnvValue.
    destruct (re_test numeric_regex value) eqn:Ht.
    + apply numeric_regex_sound in Ht as (negative & ids & fds & Hd).
      by apply decimal_literal_no_comma in Hd.
    + by rewrite bool_decide_eq_true_2.
  - intros Hc Hnd. unfold processEnvValue.
    destruct (re_test numeric_regex value) eqn:Ht.
    + apply numeric_regex_sound in Ht as (negative & ids & fds & Hd).
      by apply Hnd in Hd.
    + by rewrite bool_decide_eq_false_2.
Qed.

Lemma split_on_length c s :
  length (split_on c s) = S (count_occ N.eq_dec s c).
Proof.
  induction s as [|x s IH]; [done|]. cbn [split_on count_occ].
  destruct (N.eqb_spec x c) as [->|Hne].
  - destruct (N.eq_dec c c); [|done]. cbn [length]. by rewrite IH.
  - destruct (N.eq_dec x c); [done|].
    destruct (split_on c s) as [|h t]; cbn [length] in *; lia.
Qed.

Lemma trimStart_suffix s :
  exists ws, s = ws ++ trimStart s /\ forallb is_space ws = true.
Proof.
  induction s as [|c s (ws & Heq & Hws)]; [by exists []|].
  cbn [trimStart]. destruct (is_space c) eqn:Hc.
  - exists (c :: ws). cbn [app forallb]. rewrite Hc, Hws. by rewrite <- Heq.
  - by exists [].
Qed.

Lemma trimStart_head s :
  match head (trimStart s) with Some c => is_space c = false | None => True end.
Proof.
  induction s as [|c s IH]; [done|]. cbn [trimStart].
  by destruct (is_space c) eqn:Hc.
Qed.

Lemma trim_ends s :
  (match head (trim s) with Some c => is_space c = false | None => True end)
  /\ (match last (trim s) with Some c => is_space c = false | None => True end)
  /\ (forall c, c ∈ trim s -> c ∈ s).
Proof.
  unfold trim.
  destruct (trimStart_suffix s) as (ws1 & Hs & _).
  destruct (trimStart_suffix (rev (trimStart s))) as (ws2 & Hr & _).
  pose proof (trimStart_head s) as Hhead.
  pose proof (trimStart_head (rev (trimStart s))) as Hlast.
  set (a := trimStart s) in *. set (b := trimStart (rev a)) in *.
  assert (Ha : a = rev b ++ rev ws2).
  { rewrite <- rev_app_distr, <- Hr. by rewrite rev_involutive. }
  split; [|split].
  - destruct (rev b) as [|c r] eqn:Hb; [done|]. cbn [head].
    rewrite Ha in Hhead. by cbn [app head] in Hhead.
  - destruct b as [|c r]; [done|]. cbn [rev]. rewrite last_snoc. exact Hlast.
  - intros c Hc. rewrite Hs. apply elem_of_app. right.
    rewrite Ha. apply elem_of_app. by left.
Qed.

(** X18. The items of an array: one more than the value has commas, none
    holding a comma, none beginning or ending with white space. *)
Theorem processEnvValue_array_items value items :
  processEnvValue value = V_array items ->
  comma ∈ value
  /\ length items = S (count_occ N.eq_dec value comma)
  /\ Forall (fun item =>
               (comma ∉ item)
               /\ (match head item with Some c => is_space c = false | None => True end)
               /\ (match last item with Some c => is_space c = false | None => True end))
            items.
Proof.
  unfold processEnvValue. destruct (re_test numeric_regex value); [done|].
  case_bool_decide as Hc; [|done]. intros [= <-].
  split; [done|]. split; [by rewrite length_map, split_on_length|].
  apply Forall_map.
  eapply Forall_impl; [apply (path_facts.split_on_no_sep comma value)|].
  intros piece Hp. cbn beta.
  destruct (trim_ends piece) as (Hh & Hl & Hsub).
  split; [|done]. intros Hin. by apply Hp, Hsub.
Qed.

Lemma has_truthy_insert_ne o k0 v k :
  k0 <> k -> has_truthy (<[k0 := v]> o) k = has_truthy o k.
Proof. intros Hne. unfold has_truthy. by rewrite lookup_insert_ne. Qed.

(** The loop of [initEnv] over entries with distinct keys. *)
Lemma foldl_initEnv_entry entries : forall o w,
  NoDup entries.*1 ->
  let r := foldl initEnv_entry (o, w) entries in
  (forall k,
      r.1 !! k = match (list_to_map entries : gmap jsstring jsstring) !! k with
                 | Some v => if has_truthy o k then o !! k
                             else Some (processEnvValue v)
                 | None => o !! k
                 end)
  /\ (forall k,
        process_env r.2 !! k
        = match (list_to_map entries : gmap jsstring jsstring) !! k with
          | Some v =>
              if has_truthy o k then process_env w !! k
              else match processEnvValue v with
                   | V_array items => Some (JSON_stringify_array items)
                   | _ => process_env w !! k
                   end
          | None => process_env w !! k
          end)
  /\ r.2 = with_env (process_env r.2) w.
Proof.
  induction entries as [|[k0 v0] entries IH]; intros o w Hnd.
  { cbn. repeat split; try done. by destruct w. }
  cbn [fmap list_fmap fst] in Hnd. apply NoDup_cons in Hnd as [Hk0 Hnd].
  assert (Hnone : (list_to_map entries : gmap jsstring jsstring) !! k0 = None).
  { by apply not_elem_of_list_to_map_1. }
  cbn [foldl list_to_map foldr uncurry fst snd].
  assert (Hst1 : initEnv_entry (o, w) (k0, v0)
                 = if has_truthy o k0 then (o, w)
                   else match processEnvValue v0 with
                        | V_array items =>
                            (<[k0 := V_array items]> o,
                             with_env (<[k0 := JSON_stringify_array items]>
                                         (process_env w)) w)
                        | pv => (<[k0 := pv]> o, w)
                        end).
  { unfold initEnv_entry. cbn [fst snd].
    destruct (has_truthy o k0); [done|]. by destruct (processEnvValue v0). }
  destruct (initEnv_entry (o, w) (k0, v0)) as [o1 w1].
  destruct (IH o1 w1 Hnd) as (Ho & He & Hw). cbv zeta in *.
  split; [|split].
  - intros k. rewrite Ho. destruct (decide (k0 = k)) as [<-|Hne].
    + rewrite Hnone, lookup_insert_eq.
      destruct (has_truthy o k0); [by injection Hst1 as -> ->|].
      destruct (processEnvValue v0); injection Hst1 as -> ->;
        by rewrite lookup_insert_eq.
    + rewrite lookup_insert_ne by done.
      assert (Hsame : o1 !! k = o !! k /\ has_truthy o1 k = has_truthy o k).
      { destruct (has_truthy o k0); [by injection Hst1 as -> ->|].
        destruct (processEnvValue v0); injection Hst1 as -> ->;
          by rewrite lookup_insert_ne, has_truthy_insert_ne. }
      destruct Hsame as [-> ->]. done.
  - intros k. rewrite He. destruct (decide (k0 = k)) as [<-|Hne].
    + rewrite Hnone, lookup_insert_eq.
      destruct (has_truthy o k0); [by injection Hst1 as -> ->|].
      destruct (processEnvValue v0); injection Hst1 as -> ->;
        cbn [process_env with_env]; try done.
      by rewrite lookup_insert_eq.
    + rewrite lookup_insert_ne by done.
      assert (Hsame : process_env w1 !! k = process_env w !! k
                      /\ has_truthy o1 k = has_truthy o k).
      { destruct (has_truthy o k0); [by injection Hst1 as -> ->|].
        destruct (processEnvValue v0); injection Hst1 as -> ->;
          cbn [process_env with_env];
          by rewrite ?lookup_insert_ne, has_truthy_insert_ne. }
      destruct Hsame as [-> ->]. done.
  - rewrite Hw.
    destruct (has_truthy o k0); [by injection Hst1 as -> ->|].
    by destruct (processEnvValue v0); injection Hst1 as -> ->.
Qed.

Section loader_properties.
Context `{Crypto}.
Variable Object_entries : gmap jsstring jsstring -> list (jsstring * jsstring).
Hypothesis Object_entries_own :
  forall o : gmap jsstring jsstring, Object_entries o ≡ₚ map_to_list o.

Lemma Object_entries_lookup (o : gmap jsstring jsstring) :
  NoDup (Object_entries o).*1
  /\ (list_to_map (Object_entries o) : gmap jsstring jsstring) = o.
Proof.
  split.
  - rewrite (Object_entries_own o). apply NoDup_fst_map_to_list.
  - rewrite <- (list_to_map_to_list o) at 2.
    apply list_to_map_proper; [|apply Object_entries_own].
    rewrite (Object_entries_own o). apply NoDup_fst_map_to_list.
Qed.

Lemma initEnv_run sp kv l w vars w1 :
  isInitialized l = false ->
  decryptEnvFile sp kv w = (Return vars, w1) ->
  exists o w3,
    initEnv Object_entries sp kv l w = (Loaded o, mkLoader o true, w3)
    /\ (forall k,
          o !! k = match vars !! k with
                   | Some v => if has_truthy (env l) k then env l !! k
                               else Some (processEnvValue v)
                   | None => env l !! k
                   end)
    /\ (forall k,
          process_env w3 !! k
          = match vars !! k with
            | Some v =>
                if has_truthy (env l) k then process_env w !! k
                else match processEnvValue v with
                     | V_array items => Some (JSON_stringify_array items)
                     | _ => process_env w !! k
                     end
            | None => process_env w !! k
            end)
    /\ fs_files w3 = fs_files w
    /\ trace w3
       = trace w1 ++ [E_console_log (js "Decrypted environment variables loaded")].
Proof.
  intros Hinit Hdec. unfold initEnv. rewrite Hinit, Hdec.
  destruct (Object_entries_lookup vars) as [Hnd Hmap].
  destruct (foldl_initEnv_entry (Object_entries vars) (env l) w1 Hnd)
    as (Ho & He & Hw). cbv zeta in *.
  destruct (foldl initEnv_entry (env l, w1) (Object_entries vars)) as [o w2].
  cbn [fst snd] in *. rewrite Hmap in *.
  pose proof (decrypt_keeps_world w sp kv) as (Hf & Henv & _).
  rewrite Hdec in Hf, Henv. cbn [snd] in Hf, Henv.
  eexists _, _. split; [reflexivity|]. split; [exact Ho|].
  split; [|split].
  - intros k. unfold console_log, log_event. cbn [snd with_trace process_env].
    rewrite He. by rewrite Henv.
  - unfold console_log, log_event. cbn [snd with_trace fs_files].
    rewrite Hw. cbn [with_env fs_files]. exact Hf.
  - unfold console_log, log_event. cbn [snd with_trace trace].
    rewrite Hw. done.
Qed.

(** X19. A first successful [initEnv]. A key of the decrypted mapping
    whose entry in [env] is truthy, own or inherited from
    [Object.prototype], is left alone; every other key of the mapping gets
    the processed value in [env], and in [process.env] the JSON text of the
    array when the value is one. The other entries of [env] and of
    [process.env] and all files stay as they were, and the call logs one
    line. The order of [Object.entries] does not matter. *)
Theorem initEnv_loads sp kv l w vars w1 :
  isInitialized l = false ->
  decryptEnvFile sp kv w = (Return vars, w1) ->
  exists o w3,
    initEnv Object_entries sp kv l w = (Loaded o, mkLoader o true, w3)
    /\ (forall k,
          o !! k = match vars !! k with
                   | Some v => if has_truthy (env l) k then env l !! k
                               else Some (processEnvValue v)
                   | None => env l !! k
                   end)
    /\ (forall k,
          process_env w3 !! k
          = match vars !! k with
            | Some v =>
                if has_truthy (env l) k then process_env w !! k
                else match processEnvValue v with
                     | V_array items => Some (JSON_stringify_array items)
                     | _ => process_env w !! k
                     end
            | None => process_env w !! k
            end)
    /\ fs_files w3 = fs_files w
    /\ trace w3
       = trace w1 ++ [E_console_log (js "Decrypted environment variables loaded")].
Proof. apply initEnv_run. Qed.

(** X20. After [resetEnv] a load starts from nothing: [env] then holds
    the processed value of every key of the decrypted mapping, apart from
    the names [Object.prototype] defines, and nothing else. *)
Theorem resetEnv_then_initEnv_reloads sp kv l w vars w1 :
  decryptEnvFile sp kv w = (Return vars, w1) ->
  exists o w3,
    initEnv Object_entries sp kv (resetEnv l) w = (Loaded o, mkLoader o true, w3)
    /\ (forall k,
          o !! k = if bool_decide (k ∈ Object_prototype_properties) then None
                   else processEnvValue <$> vars !! k).
Proof.
  intros Hdec.
  destruct (initEnv_run sp kv (resetEnv l) w vars w1 eq_refl Hdec)
    as (o & w3 & Hrun & Ho & _).
  exists o, w3. split; [done|]. intros k. rewrite Ho.
  unfold resetEnv, has_truthy. cbn [env]. rewrite lookup_empty.
  destruct (vars !! k); by case_bool_decide.
Qed.

(** X21. A load that fails: whatever [decryptEnvFile] throws, [initEnv]
    throws an error with one fixed message and that error as its cause;
    [env], [isInitialized], [process.env] and the files are as before. *)
Theorem initEnv_wraps_failure sp kv l w e :
  isInitialized l = false ->
  (decryptEnvFile sp kv w).1 = Throw e ->
  exists w1,
    initEnv Object_entries sp kv l w
    = (Load_failed (js "Failed to load encrypted environment variables") e, l, w1)
    /\ fs_files w1 = fs_files w /\ process_env w1 = process_env w.
Proof.
  intros Hinit Hdec. unfold initEnv. rewrite Hinit.
  pose proof (decrypt_keeps_world w sp kv) as (Hf & Henv & _).
  destruct (decryptEnvFile sp kv w) as [[vars|e'] w1]; cbn [fst snd] in *;
    [done|].
  injection Hdec as ->. by exists w1.
Qed.

(** X22. A load happens once: after an [initEnv] that returned, every
    further call, whatever its arguments and the world, returns the same
    [env] and touches nothing. *)
Theorem initEnv_runs_once sp kv l w o l' w' :
  initEnv Object_entries sp kv l w = (Loaded o, l', w') ->
  env l' = o /\ isInitialized l' = true
  /\ (forall sp2 kv2 w2,
        initEnv Object_entries sp2 kv2 l' w2 = (Loaded o, l', w2)).
Proof.
  unfold initEnv. destruct (isInitialized l) eqn:Hinit.
  - intros [= <- <- <-]. repeat split; try done.
    intros sp2 kv2 w2. by rewrite Hinit.
  - destruct (decryptEnvFile sp kv w) as [[vars|e] w1]; [|done].
    destruct (foldl initEnv_entry _ _) as [o2 w2]. intros [= <- <- <-].
    repeat split; try done.
Qed.

End loader_properties.

(** ** The command line *)

Example cli_examples :
  needsQuotes (js "hello,world") = true /\ needsQuotes (js "abc") = false
  /\ needsQuotes [] = false /\ needsQuotes (js "a b") = true
  /\ envContent [(js "A", js "1"); (js "B", js "x y")]
     = js "A=1" ++ [10] ++ js "B=" ++ [dquote] ++ js "x y" ++ [dquote; 10]
  /\ envContent [] = [10].
Proof. repeat split; vm_compute; reflexivity. Qed.

Lemma re_test_class p s : re_test (Re_class p) s = existsb p s.
Proof.
  unfold re_test, re_exec.
  enough (Hall : forall pos,
            match re_exec_from (Re_class p) pos s with
            | Some _ => true
            | None => false
            end = existsb p s) by apply Hall.
  induction s as [|c s IH]; intros pos; [done|].
  cbn [re_exec_from existsb]. rewrite re_match_class.
  destruct (p c); [done|]. apply IH.
Qed.

Lemma existsb_false_forallb {A} (p q : A -> bool) l :
  (forall x, p x = false -> q x = true) ->
  existsb p l = false -> forallb q l = true.
Proof.
  intros Hpq. induction l as [|x l IH]; [done|]. cbn.
  intros Hx. apply orb_false_iff in Hx as [Hx Hl]. by rewrite (Hpq x Hx), IH.
Qed.

Lemma key_char_is_any c : is_key_char c = true -> is_any c = true.
Proof.
  unfold is_key_char, is_word, is_any.
  rewrite !orb_true_iff, !andb_true_iff, !N.leb_le, !N.eqb_eq. intros Hk.
  rewrite negb_true_iff, !orb_false_iff, !N.eqb_neq. lia.
Qed.

Lemma key_chars_are_any key :
  forallb is_key_char key = true -> forallb is_any key = true.
Proof.
  intros Hk. rewrite forallb_forall in *. intros c Hc. by apply key_char_is_any, Hk.
Qed.

Lemma env_entry_line_parses envVars key value :
  parsed_record key value ->
  needsQuotes value = true \/ unquote value = value ->
  (10 ∉ env_entry_line (key, value))
  /\ parse_env_line envVars (env_entry_line (key, value)) = <[key := value]> envVars.
Proof.
  intros (Hne & Hkey & Hproto & Hval) Hq.
  assert (Hset : forall v, set_property envVars key v = <[key := v]> envVars).
  { intros v. unfold set_property, jsstring_eqb. by rewrite bool_decide_eq_false_2. }
  pose proof (key_chars_are_any key Hkey) as Hkany.
  unfold env_entry_line. destruct (needsQuotes value) eqn:Hn.
  - split.
    + apply any_no_newline. rewrite !forallb_app, Hkany, Hval. done.
    + pose proof (parse_env_line_assignment_gen envVars [] key [] []
                    (dquote :: value ++ [dquote]) []) as Hline.
      cbn [app] in Hline. rewrite app_nil_r in Hline.
      change (key ++ [61; dquote] ++ value ++ [dquote])
        with (key ++ 61 :: dquote :: value ++ [dquote]).
      rewrite Hline; try done.
      * rewrite Hset. f_equal. apply unquote_wrapped. by left.
      * cbn [forallb]. rewrite forallb_app, Hval. done.
  - destruct Hq as [Hq|Hq]; [done|]. split.
    + apply any_no_newline. rewrite !forallb_app, Hkany, Hval. done.
    + pose proof (parse_env_line_assignment_gen envVars [] key [] [] value [])
        as Hline.
      cbn [app] in Hline. rewrite app_nil_r in Hline.
      change (key ++ [61] ++ value) with (key ++ 61 :: value).
      rewrite Hline; try done.
      * by rewrite Hset, Hq.
      * destruct value as [|v0 value]; [done|].
        unfold needsQuotes in Hn. rewrite re_test_class in Hn.
        cbn [existsb] in Hn. apply orb_false_iff in Hn as [Hn _].
        unfold is_space_comma_semicolon in Hn.
        apply orb_false_iff in Hn as [Hn _]. by apply orb_false_iff in Hn as [Hn _].
Qed.

Lemma parse_lines_of_content lines : forall envVars,
  Forall (fun line => 10 ∉ line) lines ->
  foldl parse_env_line envVars (split_on 10 (join_with [10] lines ++ [10]))
  = foldl parse_env_line envVars lines.
Proof.
  induction lines as [|l lines IH]; intros envVars Hall; [done|].
  inversion Hall as [|? ? Hl Hrest]; subst.
  destruct lines as [|l2 lines].
  - cbn [join_with foldl].
    rewrite path_facts.split_on_app by done. cbn [split_on foldl].
    by rewrite (parse_env_line_blank _ []).
  - change (join_with [10] (l :: l2 :: lines))
      with (l ++ [10] ++ join_with [10] (l2 :: lines)).
    rewrite <- !app_assoc.
    change ([10] ++ join_with [10] (l2 :: lines) ++ [10])
      with (10 :: (join_with [10] (l2 :: lines) ++ [10])).
    rewrite path_facts.split_on_app by done. cbn [foldl]. by apply IH.
Qed.

Lemma foldl_insert_entries (entries : list (jsstring * jsstring)) : forall m0,
  foldl (fun m e => <[e.1 := e.2]> m) m0 entries
  = (list_to_map (rev entries) : gmap jsstring jsstring) ∪ m0.
Proof.
  induction entries as [|[k v] entries IH]; intros m0.
  - cbn. by rewrite (left_id_L ∅ (∪)).
  - cbn [foldl rev fst snd]. rewrite IH, list_to_map_app. cbn [list_to_map foldr uncurry].
    rewrite <- (assoc_L (∪)). f_equal.
    by rewrite insert_union_singleton_l, <- insert_union_singleton_l,
      insert_empty, <- insert_union_singleton_l.
Qed.

Lemma envContent_parse vars entries :
  entries ≡ₚ map_to_list vars ->
  map_Forall parsed_record vars ->
  map_Forall (fun _ value => needsQuotes value = true \/ unquote value = value)
             vars ->
  parse_env (envContent entries) = vars.
Proof.
  intros entries_own vars_parsed vars_plain.
  unfold parse_env, envContent.
  assert (Hin : forall k v, (k, v) ∈ entries -> vars !! k = Some v).
  { intros k v Hkv. rewrite entries_own in Hkv. by apply elem_of_map_to_list. }
  assert (Hlines : Forall (fun line => 10 ∉ line) (map env_entry_line entries)
                   /\ forall m, foldl parse_env_line m (map env_entry_line entries)
                                = foldl (fun m e => <[e.1 := e.2]> m) m entries).
  { clear entries_own. induction entries as [|[k v] es IH].
    - split; [constructor|done].
    - destruct IH as [IH1 IH2]; [intros; apply Hin; by right|].
      assert (Hkv : vars !! k = Some v) by (apply Hin; left).
      destruct (env_entry_line_parses ∅ k v) as [Hno _];
        [by apply (vars_parsed k v)|by apply (vars_plain k v)|].
      split; [by constructor|]. intros m. cbn [map foldl fst snd].
      destruct (env_entry_line_parses m k v) as [_ ->];
        [by apply (vars_parsed k v)|by apply (vars_plain k v)|].
      apply IH2. }
  destruct Hlines as [Hno Hfold].
  assert (Hrev : rev entries ≡ₚ entries) by (symmetry; apply Permutation_rev).
  rewrite parse_lines_of_content, Hfold, foldl_insert_entries by done.
  rewrite (right_id_L ∅ (∪)).
  transitivity (list_to_map (map_to_list vars) : gmap jsstring jsstring);
    [|apply list_to_map_to_list].
  apply list_to_map_proper.
  - rewrite Hrev, entries_own. apply NoDup_fst_map_to_list.
  - by rewrite Hrev.
Qed.

(** X23. The text the [decrypt] command writes parses back to the mapping
    it was made from, in whatever order the entries are listed, provided no
    value that is written without quotes is itself wrapped in quotes. *)
Theorem envContent_parses_back vars entries :
  entries ≡ₚ map_to_list vars ->
  map_Forall parsed_record vars ->
  map_Forall (fun _ value => needsQuotes value = true \/ unquote value = value)
             vars ->
  parse_env (envContent entries) = vars.
Proof. apply envContent_parse. Qed.

Lemma parent_resolved cs d name :
  Forall path.clean_seg (cs ++ [d]) -> path.clean_seg name ->
  path.resolved_segs (cs ++ [d]) (js "../" ++ name) = cs ++ [name].
Proof.
  intros Hcs Hname. unfold path.resolved_segs.
  change (path.isAbsolute (js "../" ++ name)) with false. cbv iota.
  change (js "../" ++ name) with (path.dotdot ++ path.slash :: name).
  rewrite path_facts.split_on_app by compute_done.
  rewrite path_facts.split_on_clean by (by destruct Hname as (_ & _ & _ & ?)).
  rewrite rev_app_distr. cbn [rev app].
  apply Forall_app in Hcs as [Hcs Hd]. inversion Hd as [|? ? Hd' _]; subst.
  destruct (path_facts.clean_seg_keep d Hd') as (_ & _ & Hdd).
  change (path.normalize_segs false (d :: rev cs) [path.dotdot; name])
    with (if jsstring_eqb d path.dotdot
          then path.normalize_segs false (path.dotdot :: d :: rev cs) [name]
          else path.normalize_segs false (rev cs) [name]).
  rewrite Hdd.
  rewrite path_facts.normalize_clean by (constructor; [done|constructor]).
  by rewrite rev_involutive.
Qed.

Section command_line_properties.
Context `{Crypto}.
Variable Object_entries : gmap jsstring jsstring -> list (jsstring * jsstring).

(** X24. The [decrypt] command does not validate its output path: given
    [../name], which [validatePath] refuses, it writes the decrypted
    variables, in clear, into the parent of the working directory, with the
    default mode. *)
Theorem cli_decrypt_output_not_confined argv w cs d name vars w1 :
  process_cwd w = path.abs_path (cs ++ [d]) ->
  Forall path.clean_seg (cs ++ [d]) ->
  path.clean_seg name -> name <> d ->
  drop 2 argv !! 0%nat = Some (js "decrypt") ->
  drop 2 argv !! 2%nat = Some (js "../" ++ name) ->
  decryptEnvFile (arg_or (drop 2 argv !! 1%nat) (js ".env.encrypted"))
                 (arg_or (drop 2 argv !! 3%nat) DEFAULT_KEY) w
  = (Return vars, w1) ->
  path.abs_path (cs ++ [name]) ∉ fs_denied w ->
  let r := cli_main Object_entries argv w in
  let written := envContent (Object_entries vars) in
  validate (process_cwd w) (js "../" ++ name) = Throw invalid_path
  /\ run_exit r = None
  /\ fs_files (run_world r)
     = <[path.abs_path (cs ++ [name]) := written]> (fs_files w)
  /\ last (trace (run_world r))
     = Some (E_writeFileSync (path.abs_path (cs ++ [name])) written mode_default).
Proof.
  intros Hw Hcs Hname Hne Hcmd Hout Hdec Hden. cbv zeta.
  pose proof (parent_resolved cs d name Hcs Hname) as Hres.
  split.
  { pose proof (validatePath_outside w (cs ++ [d]) Hw Hcs (js "../" ++ name)) as Hv.
    rewrite validatePath_eq in Hv.
    assert (Hno : ¬ (cs ++ [d]) `prefix_of`
                    path.resolved_segs (cs ++ [d]) (js "../" ++ name)).
    { rewrite Hres. intros [k Hk]. rewrite <- app_assoc in Hk.
      apply app_inv_head in Hk. injection Hk as Hk _. by subst. }
    exact (f_equal fst (Hv Hno)). }
  unfold cli_main. rewrite Hcmd.
  rewrite bool_decide_eq_false_2 by (intros [= Hx]; discriminate Hx).
  rewrite bool_decide_eq_true_2 by done.
  cbv zeta. rewrite Hdec, Hout.
  pose proof (decrypt_keeps_world w
                (arg_or (drop 2 argv !! 1%nat) (js ".env.encrypted"))
                (arg_or (drop 2 argv !! 3%nat) DEFAULT_KEY))
    as (Hf & _ & _ & Hc & Hd & _).
  rewrite Hdec in Hf, Hc, Hd. cbn [snd] in Hf, Hc, Hd.
  change (arg_or (Some (js "../" ++ name)) (js ".env")) with (js "../" ++ name).
  change (negb (jsstring_eqb (js "../" ++ name) [])) with true. cbv iota.
  rewrite Hc, Hw, path_facts.resolve_two, Hres by done.
  unfold writeFileSync. rewrite Hd, bool_decide_eq_false_2 by done.
  cbn [run_exit run_world fs_files with_trace with_files trace].
  split; [done|]. split; [by rewrite Hf|]. by rewrite last_snoc.
Qed.

(** X25. The exit code. A run either ends by itself or calls
    [process.exit(1)]; when it does, no file and no entry of [process.env]
    has changed, and the last line on the console is the report of the
    error caught. *)
Theorem cli_exit_code argv w :
  let r := cli_main Object_entries argv w in
  (run_exit r = None \/ run_exit r = Some 1)
  /\ (run_exit r = Some 1 ->
      fs_files (run_world r) = fs_files w
      /\ process_env (run_world r) = process_env w
      /\ exists error, last (run_console r) = Some (report error)).
Proof.
  cbv zeta. unfold cli_main. cbv zeta.
  case_bool_decide as Hcmd.
  - pose proof (encrypt_keeps_world w
                  (arg_or (drop 2 argv !! 1%nat) (js ".env"))
                  (arg_or (drop 2 argv !! 2%nat) (js ".env.encrypted"))
                  (arg_or (drop 2 argv !! 3%nat) DEFAULT_KEY))
      as (He & _ & _ & Hf).
    destruct (encryptEnvFile _ _ _ w) as [[u|e] w1]; cbn [fst snd] in *.
    + split; [by left|]. intros Hx. discriminate Hx.
    + split; [by right|]. intros _. split; [by eapply Hf|]. split; [done|].
      by exists e.
  - case_bool_decide as Hcmd2; [|split; [by left|intros Hx; discriminate Hx]].
    pose proof (decrypt_keeps_world w
                  (arg_or (drop 2 argv !! 1%nat) (js ".env.encrypted"))
                  (arg_or (drop 2 argv !! 3%nat) DEFAULT_KEY))
      as (Hf & He & _).
    destruct (decryptEnvFile _ _ w) as [[vars|e] w1]; cbn [fst snd] in *.
    + destruct (negb _); [|split; [by left|intros Hx; discriminate Hx]].
      unfold writeFileSync. case_bool_decide.
      * split; [by right|]. intros _. cbn [run_world run_console].
        split; [done|]. split; [done|]. eexists. by rewrite last_snoc.
      * split; [by left|]. intros Hx. discriminate Hx.
    + split; [by right|]. intros _. split; [done|]. split; [done|]. by exists e.
Qed.

End command_line_properties.

(** ** The engine, the loader and the command line together *)

Lemma arg_or_nonempty arg fallback : fallback <> [] -> arg_or arg fallback <> [].
Proof. intros Hf. unfold arg_or. by destruct arg as [[|c r]|]. Qed.

Section together.
Context `{Crypto} `{!CryptoLaws H}.
Variable Object_entries : gmap jsstring jsstring -> list (jsstring * jsstring).
Hypothesis Object_entries_own :
  forall o : gmap jsstring jsstring, Object_entries o ≡ₚ map_to_list o.

(** X29. Encrypt, then load: after [encryptEnvFile] on a plaintext that
    is not empty, [initEnv] on the file it wrote, the loader reset, returns
    an [env] that holds the processed value of every record of the parse
    of the plaintext, apart from the names [Object.prototype] defines. *)
Theorem encrypt_then_initEnv w sp op kv K P sp' op' l :
  process_env w !! kv = Some K -> K <> [] ->
  validate (process_cwd w) sp = Return sp' ->
  validate (process_cwd w) op = Return op' ->
  fs_files w !! sp' = Some P ->
  op' ∉ fs_denied w ->
  well_formed P = true -> P <> [] ->
  let sealed := (encryptEnvFile sp op kv w).2 in
  exists o w3,
    initEnv Object_entries op kv (resetEnv l) sealed
    = (Loaded o, mkLoader o true, w3)
    /\ (forall k,
          o !! k = if bool_decide (k ∈ Object_prototype_properties) then None
                   else processEnvValue <$> parse_env P !! k).
Proof.
  intros HK HK' Hsp Hop HP Hden Hwf Hne sealed.
  destruct (roundtrip_nonempty w sp op kv K P sp' op') as [_ Hdec]; try done.
  fold sealed in Hdec.
  destruct (decryptEnvFile op kv sealed) as [r w1] eqn:Hrun.
  cbn [fst] in Hdec. subst r.
  destruct (initEnv_run Object_entries Object_entries_own op kv (resetEnv l)
              sealed (parse_env P) w1 eq_refl Hrun)
    as (o & w3 & Hinit & Ho & _).
  exists o, w3. split; [done|]. intros k. rewrite Ho.
  unfold resetEnv, has_truthy. cbn [env]. rewrite lookup_empty.
  destruct (parse_env P !! k); by case_bool_decide.
Qed.

(** X30. The [decrypt] command, when [decryptEnvFile] returns and the
    target can be written: it ends by itself, prints the keys and the line
    that names the output path, and has changed one file, the output path
    resolved against the working directory, whose new text parses back to
    the mapping decrypted, provided no value that is written without
    quotes is itself wrapped in quotes. *)
Theorem cli_decrypt_restores_variables argv w vars w1 :
  drop 2 argv !! 0%nat = Some (js "decrypt") ->
  decryptEnvFile (arg_or (drop 2 argv !! 1%nat) (js ".env.encrypted"))
                 (arg_or (drop 2 argv !! 3%nat) DEFAULT_KEY) w
  = (Return vars, w1) ->
  let outputPath := arg_or (drop 2 argv !! 2%nat) (js ".env") in
  let target := path.resolve (process_cwd w) [process_cwd w; outputPath] in
  target ∉ fs_denied w ->
  map_Forall (fun _ value => needsQuotes value = true \/ unquote value = value)
             vars ->
  let r := cli_main Object_entries argv w in
  run_exit r = None
  /\ run_console r
     = [Log_keys (js "Decrypted variables:") (Object_entries vars).*1;
        Log (js "Decrypted environment saved to " ++ outputPath)]
  /\ exists text,
       fs_files (run_world r) = <[target := text]> (fs_files w)
       /\ parse_env text = vars.
Proof.
  intros Hcmd Hdec outputPath target Hden Hplain. cbv zeta.
  unfold cli_main. rewrite Hcmd.
  rewrite bool_decide_eq_false_2 by (intros [= Hx]; discriminate Hx).
  rewrite bool_decide_eq_true_2 by done.
  cbv zeta. rewrite Hdec. fold outputPath.
  pose proof (decrypt_keeps_world w
                (arg_or (drop 2 argv !! 1%nat) (js ".env.encrypted"))
                (arg_or (drop 2 argv !! 3%nat) DEFAULT_KEY))
    as (Hf & _ & _ & Hc & Hd & _).
  rewrite Hdec in Hf, Hc, Hd. cbn [snd] in Hf, Hc, Hd.
  assert (Hout : negb (jsstring_eqb outputPath []) = true).
  { unfold jsstring_eqb. rewrite bool_decide_eq_false_2; [done|].
    by apply arg_or_nonempty. }
  rewrite Hout, Hc. fold target.
  unfold writeFileSync. rewrite Hd, bool_decide_eq_false_2 by done.
  cbn [run_exit run_world run_console fs_files with_trace with_files app].
  split; [done|]. split; [done|].
  exists (envContent (Object_entries vars)). split; [by rewrite Hf|].
  apply (envContent_parse vars); try done.
  assert (Hret : (decryptEnvFile (arg_or (drop 2 argv !! 1%nat) (js ".env.encrypted"))
                    (arg_or (drop 2 argv !! 3%nat) DEFAULT_KEY) w).1 = Return vars)
    by (by rewrite Hdec).
  apply decryptEnvFile_returns_parse in Hret as [text ->].
  apply parse_env_records.
Qed.

End together.

(** ** The further properties on the example worlds *)

Section further_examples.
Import toy toy_facts.

Lemma missing_key_fails_first_witness :
  encryptEnvFile (js ".env") (js ".env.encrypted") DEFAULT_KEY empty_world
  = (Throw (EnvCryptoError
              (js "Environment variable " ++ DEFAULT_KEY ++ js " not found")
              (js "KEY_NOT_FOUND")), empty_world)
  /\ decryptEnvFile (js ".env") DEFAULT_KEY empty_world
     = (Throw (EnvCryptoError
                 (js "Decryption key not found in environment variable "
                  ++ DEFAULT_KEY)
                 (js "KEY_NOT_FOUND")), empty_world)
  /\ (encryptEnvFile (js ".env") (js ".env.encrypted") (js "toString") demo_world).1
     = Throw (TypeError (js "The password argument must be of type string"))
  /\ trace (decryptEnvFile (js ".env") (js "toString") demo_world).2
     = [E_readFileSync (js "/home/user/project/.env")].
Proof.
  destruct (missing_key_fails_first empty_world (js ".env") (js ".env.encrypted")
              DEFAULT_KEY) as [H1 _].
  destruct (missing_key_fails_first demo_world (js ".env") (js ".env.encrypted")
              (js "toString")) as [_ H2].
  destruct H1 as [Ha Hb].
  { right. split; [vm_compute; reflexivity|].
    unfold Object_prototype_properties, DEFAULT_KEY.
    rewrite !elem_of_cons, elem_of_nil.
    intros Hin. repeat (destruct Hin as [Hin|Hin]; [discriminate Hin|]). exact Hin. }
  split; [exact Ha|]. split; [exact Hb|].
  destruct (H2 (js "/home/user/project/.env") demo_text)
    as (Hc & _ & _ & Hd);
    [vm_compute; reflexivity
    |unfold Object_prototype_properties; rewrite !elem_of_cons; auto 10
    |vm_compute; reflexivity|vm_compute; reflexivity|].
  split; [exact Hc|exact Hd].
Defined.

Lemma rejected_source_path_fails_first_witness :
  encryptEnvFile (js "../../../etc/passwd") (js ".env.encrypted") DEFAULT_KEY
    demo_world
  = (Throw invalid_path, demo_world)
  /\ decryptEnvFile (js "../../../etc/passwd") DEFAULT_KEY demo_world
     = (Throw invalid_path, demo_world)
  /\ error_code invalid_path = Some (js "INVALID_PATH").
Proof.
  apply (rejected_source_path_fails_first demo_world (js "../../../etc/passwd")
           (js ".env.encrypted") DEFAULT_KEY demo_key invalid_path);
    [vm_compute; reflexivity|discriminate|vm_compute; reflexivity].
Defined.

Lemma missing_source_file_fails_witness :
  (decryptEnvFile (js ".env.encrypted") DEFAULT_KEY demo_world).1
  = Throw (SystemError (js "ENOENT")).
Proof.
  destruct (missing_source_file_fails demo_world (js ".env.encrypted")
              (js ".env.encrypted") DEFAULT_KEY demo_key
              (js "/home/user/project/.env.encrypted"))
    as (_ & Hd & _);
    [vm_compute; reflexivity|discriminate|vm_compute; reflexivity
    |vm_compute; reflexivity|].
  by rewrite Hd.
Defined.

Lemma encryptEnvFile_writes_inside_only_witness :
  process_env (encryptEnvFile (js ".env") (js "out/.env.encrypted") DEFAULT_KEY
                 demo_world).2
  = process_env demo_world.
Proof.
  destruct (encryptEnvFile_writes_inside_only demo_world project_dir (js ".env")
              (js "out/.env.encrypted") DEFAULT_KEY eq_refl project_dir_clean)
    as (He & _).
  exact He.
Defined.

Lemma encrypted_file_format_witness :
  exists text,
    fs_files (encryptEnvFile (js ".env") (js ".env.encrypted") DEFAULT_KEY
                demo_world).2
    !! js "/home/user/project/.env.encrypted" = Some text
    /\ exists content, field (js "content") text = Some (toString_hex content)
                       /\ length content = length (utf8_encode demo_text).
Proof.
  destruct (encrypted_file_format demo_world (js ".env") (js ".env.encrypted")
              DEFAULT_KEY demo_key demo_text (js "/home/user/project/.env")
              (js "/home/user/project/.env.encrypted"))
    as (text & content & authTag & _ & Hf & _ & Hp & _ & _ & _ & Hlen & _);
    [vm_compute; reflexivity|discriminate|vm_compute; reflexivity
    |vm_compute; reflexivity|vm_compute; reflexivity|apply not_elem_of_empty|].
  exists text. split; [exact Hf|]. exists content. split; [|exact Hlen].
  unfold field. by rewrite Hp.
Defined.

Lemma decrypt_recovers_nonempty_plaintext_witness :
  (decryptEnvFile (js ".env.encrypted") DEFAULT_KEY
     (encryptEnvFile (js ".env") (js ".env.encrypted") DEFAULT_KEY demo_world).2).1
  = Return (parse_env demo_text).
Proof.
  destruct (decrypt_recovers_nonempty_plaintext demo_world (js ".env")
              (js ".env.encrypted") DEFAULT_KEY demo_key demo_text
              (js "/home/user/project/.env")
              (js "/home/user/project/.env.encrypted"))
    as (_ & Hd);
    [vm_compute; reflexivity|discriminate|vm_compute; reflexivity
    |vm_compute; reflexivity|vm_compute; reflexivity|apply not_elem_of_empty
    |vm_compute; reflexivity|discriminate|].
  exact Hd.
Defined.

Lemma incomplete_container_rejected_witness :
  (decryptEnvFile (js ".env.encrypted") DEFAULT_KEY empty_salt_world).1
  = Throw invalid_format.
Proof.
  destruct (incomplete_container_rejected empty_salt_world (js ".env.encrypted")
              DEFAULT_KEY demo_key (js "/home/user/project/.env.encrypted")
              (JSON_stringify [(js "salt", []); (js "iv", js "00");
                               (js "content", js "00"); (js "authTag", js "00")])
              (JObject [(js "salt", JString []); (js "iv", JString (js "00"));
                        (js "content", JString (js "00"));
                        (js "authTag", JString (js "00"))]))
    as (_ & Hd);
    [vm_compute; reflexivity|discriminate|vm_compute; reflexivity
    |vm_compute; reflexivity|vm_compute; reflexivity|].
  rewrite Hd; [reflexivity|discriminate|].
  exists (js "salt"). split; [left|reflexivity].
Defined.

Lemma parse_env_line_assignment_witness :
  parse_env_line ∅ (js "  DB_HOST = " ++ [dquote] ++ js "localhost" ++ [dquote; 13])
  = <[js "DB_HOST" := js "localhost"]> ∅.
Proof.
  apply (parse_env_line_assignment ∅ (js "  ") (js "DB_HOST") (js " ") (js " ")
           ([dquote] ++ js "localhost" ++ [dquote]) [13]);
    [reflexivity|discriminate|reflexivity|reflexivity|reflexivity|reflexivity
    |reflexivity|split; reflexivity].
Defined.

Lemma decryptEnvFile_returns_valid_records_witness :
  parsed_record (js "TEST_VAR") (js "123").
Proof.
  apply (decryptEnvFile_returns_valid_records sealed_world (js ".env.encrypted")
           DEFAULT_KEY (parse_env demo_text) (js "TEST_VAR") (js "123"));
    vm_compute; reflexivity.
Defined.

Lemma later_assignment_wins_witness :
  parse_env (js "A=1" ++ [10] ++ js "B=0" ++ [10] ++ js "A=2")
  = <[js "A" := js "2"]> (parse_env (js "A=1" ++ [10] ++ js "B=0")).
Proof.
  apply (later_assignment_wins (js "A=1" ++ [10] ++ js "B=0") (js "A") (js "2"));
    [discriminate|reflexivity|discriminate|reflexivity|reflexivity].
Defined.

Lemma processEnvValue_kinds_witness :
  processEnvValue (js "-12.50") = V_number (nearest_double true 1250 100)
  /\ (exists m e, processEnvValue (js "123") = V_number (Finite false m e)
                  /\ (0 <= e)%Z /\ m * 2 ^ Z.to_N e = 123)
  /\ processEnvValue (js "a, b") = V_array [js "a"; js "b"].
Proof.
  split; [|split].
  - destruct (processEnvValue_kinds (js "-12.50")) as (H1 & _).
    destruct (H1 true (js "12") (js "50")) as [H _]; [|exact H].
    unfold decimal_literal. split; [reflexivity|]. split; [discriminate|].
    split; reflexivity.
  - destruct (processEnvValue_kinds (js "123")) as (H1 & _).
    destruct (H1 false (js "123") []) as [_ H].
    { unfold decimal_literal. split; [reflexivity|]. split; [discriminate|].
      split; reflexivity. }
    apply H; [reflexivity|split; reflexivity].
  - destruct (processEnvValue_kinds (js "a, b")) as (_ & H2 & _).
    rewrite H2; [reflexivity|].
    apply list_elem_of_In. vm_compute. tauto.
Defined.

Lemma processEnvValue_array_items_witness :
  length [js "hello"; js "world"]
  = S (count_occ N.eq_dec (js "hello,world") comma).
Proof.
  destruct (processEnvValue_array_items (js "hello,world")
              [js "hello"; js "world"]) as (_ & Hlen & _);
    [vm_compute; reflexivity|].
  exact Hlen.
Defined.

Lemma initEnv_loads_witness :
  exists o,
    (initEnv map_to_list (js ".env.encrypted") DEFAULT_KEY fresh_loader
       sealed_world).1.1 = Loaded o
    /\ o !! js "TEST_VAR" = Some (V_number (Finite false 123 0))
    /\ o !! js "ANOTHER_VAR" = Some (V_array [js "hello"; js "world"]).
Proof.
  destruct (initEnv_loads map_to_list (fun o => reflexivity (map_to_list o))
              (js ".env.encrypted") DEFAULT_KEY fresh_loader sealed_world
              (parse_env demo_text)
              (decryptEnvFile (js ".env.encrypted") DEFAULT_KEY sealed_world).2)
    as (o & w3 & Hrun & Ho & _);
    [reflexivity|vm_compute; reflexivity|].
  exists o. split; [by rewrite Hrun|].
  rewrite !Ho. split; vm_compute; reflexivity.
Defined.

Lemma resetEnv_then_initEnv_reloads_witness :
  exists o,
    (initEnv map_to_list (js ".env.encrypted") DEFAULT_KEY
       (resetEnv (mkLoader {[ js "OLD" := V_string (js "x") ]} true))
       sealed_world).1.1 = Loaded o
    /\ o !! js "OLD" = None
    /\ o !! js "TEST_VAR" = Some (V_number (Finite false 123 0)).
Proof.
  destruct (resetEnv_then_initEnv_reloads map_to_list
              (fun o => reflexivity (map_to_list o))
              (js ".env.encrypted") DEFAULT_KEY
              (mkLoader {[ js "OLD" := V_string (js "x") ]} true) sealed_world
              (parse_env demo_text)
              (decryptEnvFile (js ".env.encrypted") DEFAULT_KEY sealed_world).2)
    as (o & w3 & Hrun & Ho);
    [vm_compute; reflexivity|].
  exists o. split; [by rewrite Hrun|].
  rewrite !Ho. split; vm_compute; reflexivity.
Defined.

Lemma initEnv_wraps_failure_witness :
  (initEnv map_to_list (js ".env.encrypted") DEFAULT_KEY fresh_loader
     empty_world).1
  = (Load_failed (js "Failed to load encrypted environment variables")
       (key_not_found (js "Decryption key not found in environment variable "
                       ++ DEFAULT_KEY)),
     fresh_loader).
Proof.
  destruct (initEnv_wraps_failure map_to_list (js ".env.encrypted") DEFAULT_KEY
              fresh_loader empty_world
              (key_not_found (js "Decryption key not found in environment variable "
                              ++ DEFAULT_KEY)))
    as (w1 & Hrun & _);
    [reflexivity|vm_compute; reflexivity|].
  by rewrite Hrun.
Defined.

Lemma initEnv_runs_once_witness :
  let first := initEnv map_to_list (js ".env.encrypted") DEFAULT_KEY fresh_loader
                 sealed_world in
  initEnv map_to_list (js "../other") (js "OTHER_KEY") first.1.2 empty_world
  = (first.1.1, first.1.2, empty_world).
Proof.
  cbv zeta.
  destruct (initEnv_runs_once map_to_list (js ".env.encrypted") DEFAULT_KEY
              fresh_loader sealed_world
              (<[js "TEST_VAR" := V_number (Finite false 123 0)]>
                 (<[js "ANOTHER_VAR" := V_array [js "hello"; js "world"]]> ∅))
              (initEnv map_to_list (js ".env.encrypted") DEFAULT_KEY fresh_loader
                 sealed_world).1.2
              (initEnv map_to_list (js ".env.encrypted") DEFAULT_KEY fresh_loader
                 sealed_world).2)
    as (_ & _ & Hagain);
    [vm_compute; reflexivity|].
  rewrite Hagain. vm_compute; reflexivity.
Defined.

Lemma envContent_parses_back_witness :
  parse_env (envContent (map_to_list (<[js "A" := js "1"]>
                                        (<[js "B" := js "x y"]> ∅))))
  = <[js "A" := js "1"]> (<[js "B" := js "x y"]> ∅).
Proof.
  apply (envContent_parses_back
           (<[js "A" := js "1"]> (<[js "B" := js "x y"]> ∅))
           (map_to_list (<[js "A" := js "1"]> (<[js "B" := js "x y"]> ∅))));
    [reflexivity| |].
  - apply map_Forall_insert_2; [repeat split; (reflexivity || discriminate)|].
    apply map_Forall_insert_2; [repeat split; (reflexivity || discriminate)|].
    apply map_Forall_empty.
  - apply map_Forall_insert_2; [right; reflexivity|].
    apply map_Forall_insert_2; [left; reflexivity|].
    apply map_Forall_empty.
Defined.

Lemma cli_decrypt_output_not_confined_witness :
  validate (process_cwd sealed_world) (js "../leak.env") = Throw invalid_path
  /\ exists written,
       fs_files (run_world (cli_main map_to_list leak_argv sealed_world))
       = <[js "/home/user/leak.env" := written]> (fs_files sealed_world)
       /\ parse_env written = parse_env demo_text.
Proof.
  destruct (cli_decrypt_output_not_confined map_to_list leak_argv sealed_world
              [js "home"; js "user"] (js "project") (js "leak.env")
              (parse_env demo_text)
              (decryptEnvFile (js ".env.encrypted") DEFAULT_KEY sealed_world).2)
    as (Hv & _ & Hf & _);
    [reflexivity|exact project_dir_clean|repeat split; compute_done
    |discriminate|reflexivity|reflexivity|vm_compute; reflexivity
    |apply not_elem_of_empty|].
  split; [exact Hv|]. eexists. split; [exact Hf|]. vm_compute; reflexivity.
Defined.

Lemma validatePath_absolute_paths_witness :
  validatePath (js "/home/user/project/subdir/.env") empty_world
  = (Return (js "/home/user/project/subdir/.env"), empty_world)
  /\ validatePath (js "/home/user/project/a/../b") empty_world
     = (Return (js "/home/user/project/b"), empty_world)
  /\ validatePath (js "/home/user/project") empty_world
     = (Throw invalid_path, empty_world)
  /\ validatePath (js "/home/user/project/..hidden") empty_world
     = (Throw invalid_path, empty_world).
Proof.
  split; [|split; [|split]].
  - destruct (validatePath_absolute_paths empty_world project_dir
                (js "/home/user/project/subdir/.env") eq_refl project_dir_clean
                eq_refl) as (_ & _ & Hin & _).
    apply (Hin [js "subdir"; js ".env"]);
      [reflexivity|discriminate|discriminate|reflexivity].
  - destruct (validatePath_absolute_paths empty_world project_dir
                (js "/home/user/project/a/../b") eq_refl project_dir_clean
                eq_refl) as (_ & _ & Hin & _).
    apply (Hin [js "b"]); [reflexivity|discriminate|discriminate|reflexivity].
  - destruct (validatePath_absolute_paths empty_world project_dir
                (js "/home/user/project") eq_refl project_dir_clean
                eq_refl) as (_ & _ & _ & Hout & _).
    apply Hout. right. left. reflexivity.
  - destruct (validatePath_absolute_paths empty_world project_dir
                (js "/home/user/project/..hidden") eq_refl project_dir_clean
                eq_refl) as (_ & _ & _ & Hout & _).
    apply Hout. right. right. right. exists [js "..hidden"]. split; reflexivity.
Defined.

Lemma parse_env_line_key_without_equals_witness :
  parse_env_line ∅ (js "export FOO=bar") = ∅.
Proof.
  apply (parse_env_line_key_without_equals ∅ [] (js "export") (js " ") 70
           (js "OO=bar"));
    [reflexivity|discriminate|reflexivity|reflexivity|discriminate|reflexivity
    |discriminate].
Defined.

Lemma decryptEnvFile_reads_four_fields_witness :
  (decryptEnvFile (js ".env.encrypted") DEFAULT_KEY
     (with_files (<[js "/home/user/project/.env.encrypted" := bare_container]>
                    (fs_files sealed_world)) sealed_world)).1
  = (decryptEnvFile (js ".env.encrypted") DEFAULT_KEY sealed_world).1.
Proof.
  destruct (decryptEnvFile_reads_four_fields sealed_world (js ".env.encrypted")
              DEFAULT_KEY (js "/home/user/project/.env.encrypted")
              (container_of demo_salt demo_iv
                 (ciphertext demo_key demo_text demo_salt demo_iv)
                 (auth_tag demo_key demo_text demo_salt demo_iv))
              bare_container
              [(js "version", JString (js "1.0.0"));
               (js "salt", JString (toString_hex demo_salt));
               (js "iv", JString (toString_hex demo_iv));
               (js "content",
                JString (toString_hex
                           (ciphertext demo_key demo_text demo_salt demo_iv)));
               (js "authTag",
                JString (toString_hex
                           (auth_tag demo_key demo_text demo_salt demo_iv)))]
              [(js "authTag",
                JString (toString_hex
                           (auth_tag demo_key demo_text demo_salt demo_iv)));
               (js "note", JString (js "no version here"));
               (js "content",
                JString (toString_hex
                           (ciphertext demo_key demo_text demo_salt demo_iv)));
               (js "iv", JString (toString_hex demo_iv));
               (js "salt", JString (toString_hex demo_salt))])
    as (Hsame & _);
    [vm_compute; reflexivity|vm_compute; reflexivity|vm_compute; reflexivity
    |vm_compute; reflexivity| |].
  - intros name Hin. rewrite !elem_of_cons in Hin.
    destruct Hin as [-> | [-> | [-> | [-> | Hin]]]];
      [vm_compute; reflexivity..|by apply elem_of_nil in Hin].
  - symmetry. exact Hsame.
Defined.

Lemma encrypt_then_initEnv_witness :
  exists o,
    (initEnv map_to_list (js ".env.encrypted") DEFAULT_KEY (resetEnv fresh_loader)
       (encryptEnvFile (js ".env") (js ".env.encrypted") DEFAULT_KEY
          demo_world).2).1.1
    = Loaded o
    /\ o !! js "ANOTHER_VAR" = Some (V_array [js "hello"; js "world"]).
Proof.
  destruct (encrypt_then_initEnv map_to_list (fun o => reflexivity (map_to_list o))
              demo_world (js ".env") (js ".env.encrypted") DEFAULT_KEY demo_key
              demo_text (js "/home/user/project/.env")
              (js "/home/user/project/.env.encrypted") fresh_loader)
    as (o & w3 & Hrun & Ho);
    [vm_compute; reflexivity|discriminate|vm_compute; reflexivity
    |vm_compute; reflexivity|vm_compute; reflexivity|apply not_elem_of_empty
    |vm_compute; reflexivity|discriminate|].
  exists o. split; [exact (f_equal (fun x => x.1.1) Hrun)|].
  rewrite Ho. vm_compute; reflexivity.
Defined.

Lemma cli_decrypt_restores_variables_witness :
  exists text,
    fs_files (run_world (cli_main map_to_list
                           [js "node"; js "env-crypto"; js "decrypt"]
                           sealed_world))
    = <[js "/home/user/project/.env" := text]> (fs_files sealed_world)
    /\ parse_env text = parse_env demo_text.
Proof.
  destruct (cli_decrypt_restores_variables map_to_list
              (fun o => reflexivity (map_to_list o))
              [js "node"; js "env-crypto"; js "decrypt"] sealed_world
              (parse_env demo_text)
              (decryptEnvFile (js ".env.encrypted") DEFAULT_KEY sealed_world).2)
    as (_ & _ & text & Hf & Hp);
    [reflexivity|vm_compute; reflexivity|apply not_elem_of_empty| |].
  - replace (parse_env demo_text)
      with (<[js "TEST_VAR" := js "123"]>
              (<[js "ANOTHER_VAR" := js "hello,world"]> ∅) : gmap jsstring jsstring)
      by (vm_compute; reflexivity).
    apply map_Forall_insert_2; [right; reflexivity|].
    apply map_Forall_insert_2; [left; reflexivity|].
    apply map_Forall_empty.
  - exists text. split; [exact Hf|exact Hp].
Defined.

End further_examples.
